(** * Unrolled linked list: a shallow embedding of [unrolled_list.h]

    The repository holds several drafts of one container.  The development
    follows the sentinel-free draft (the second header of the pair: nodes
    created by [create_node], iterators carrying a parent pointer, [front]
    and [back] guarded by [std::out_of_range]).

    Nodes live in a store indexed by addresses, a container object is the
    triple [head], [tail], [total_size], and every member function is a
    computation over the pair (node store, container object) that can
    return, raise a C++ exception, or hit undefined behaviour. *)

From stdpp Require Import gmap list numbers.

Set Default Proof Using "Type".


(** ** [size_type]: 64-bit unsigned arithmetic, wrap-around written out *)

Definition size_type := N.
Definition SIZE_MOD : N := 2 ^ 64.

Definition size_add (a b : N) : N := ((a + b) mod SIZE_MOD)%N.
Definition size_sub (a b : N) : N :=
  Z.to_N ((Z.of_N a - Z.of_N b) mod Z.of_N SIZE_MOD).

(** Addresses of heap-allocated nodes and of container objects. *)
Definition loc := positive.

Inductive exn := out_of_range | construction_failed.

(** ** Outcomes of a computation over a state of type [St] *)

Inductive outcome (St A : Type) :=
| Ret (a : A) (s : St)
| Raise (e : exn) (s : St)
| Undefined
| Timeout.
Arguments Ret {St A} a s.
Arguments Raise {St A} e s.
Arguments Undefined {St A}.
Arguments Timeout {St A}.

Definition comp (St A : Type) : Type := St → outcome St A.

Definition ret {St A} (a : A) : comp St A := λ s, Ret a s.
Definition bind {St A B} (m : comp St A) (k : A → comp St B) : comp St B :=
  λ s, match m s with
       | Ret a s' => k a s'
       | Raise e s' => Raise e s'
       | Undefined => Undefined
       | Timeout => Timeout
       end.
Definition throw {St A} (e : exn) : comp St A := λ s, Raise e s.
Definition undefined {St A} : comp St A := λ _, Undefined.
Definition timeout {St A} : comp St A := λ _, Timeout.

Notation "x <- c ;; k" := (bind c (λ x, k))
  (at level 100, c at next level, right associativity,
   format "'[v' x  <-  c  ;;  '/' k ']'").
Notation "c ;;; k" := (bind c (λ _, k))
  (at level 100, right associativity,
   format "'[v' c  ;;;  '/' k ']'").

Section Container.

Context {T : Type}.

(** [NodeMaxSize] is the second template parameter. *)
Variable NodeMaxSize : N.

(** ** Data model *)

(** One cell of a node's raw storage: uninitialised (or destroyed), holding a
    constructed element, or holding a moved-from object that was never
    destroyed. *)
Inductive slot := Raw | Live (v : T) | Husk.

Record Node := mkNode {
  count : N;
  next : option loc;
  prev : option loc;
  data : list slot
}.

Record unrolled_list := mkList {
  head : option loc;
  tail : option loc;
  total_size : N
}.

Record iterator := Iter {
  current_node : option loc;
  index_in_node : N
}.

(** What the argument pack of [emplace] does when the element is constructed
    from it: either it yields a value or the constructor throws. *)
Inductive ctor_args := Yields (v : T) | Throws.

Record state := mkState {
  mem : gmap loc Node;
  obj : unrolled_list
}.

#[global] Instance slot_inhabited : Inhabited slot := populate Raw.

(** Member functions run over the node store and the object they are
    called on. *)
Definition M (A : Type) : Type := comp state A.

(** *** Access to the container object ([this]) *)

Definition get_obj : M unrolled_list := λ s, Ret (obj s) s.
Definition set_head (p : option loc) : M unit :=
  λ s, Ret () (mkState (mem s) (mkList p (tail (obj s)) (total_size (obj s)))).
Definition set_tail (p : option loc) : M unit :=
  λ s, Ret () (mkState (mem s) (mkList (head (obj s)) p (total_size (obj s)))).
Definition set_total_size (n : N) : M unit :=
  λ s, Ret () (mkState (mem s) (mkList (head (obj s)) (tail (obj s)) n)).

(** *** Access to nodes.  Dereferencing a null or dangling pointer is
    undefined behaviour. *)

Definition deref (p : option loc) : M loc :=
  match p with Some q => ret q | None => undefined end.

Definition get_node (p : loc) : M Node :=
  λ s, match mem s !! p with Some n => Ret n s | None => Undefined end.

(** The state in which node [p] has been overwritten by [n]. *)
Definition upd (s : state) (p : loc) (n : Node) : state :=
  mkState (<[p := n]> (mem s)) (obj s).

(** The state in which the storage of node [p] has been given back. *)
Definition free (s : state) (p : loc) : state :=
  mkState (delete p (mem s)) (obj s).

Definition put_node (p : loc) (n : Node) : M unit := λ s, Ret () (upd s p n).

Definition with_data (n : Node) (d : list slot) : Node :=
  mkNode (count n) (next n) (prev n) d.

Definition set_count (p : loc) (c : N) : M unit :=
  n <- get_node p ;; put_node p (mkNode c (next n) (prev n) (data n)).
Definition set_next (p : loc) (q : option loc) : M unit :=
  n <- get_node p ;; put_node p (mkNode (count n) q (prev n) (data n)).
Definition set_prev (p : loc) (q : option loc) : M unit :=
  n <- get_node p ;; put_node p (mkNode (count n) (next n) q (data n)).

(** [elem(i)] addresses cell [i] of the node's storage; touching a cell
    outside [0, NodeMaxSize) is undefined behaviour. *)
Definition get_slot (p : loc) (i : N) : M slot :=
  n <- get_node p ;;
  match data n !! N.to_nat i with
  | Some c => ret c
  | None => undefined
  end.
Definition set_slot (p : loc) (i : N) (c : slot) : M unit :=
  n <- get_node p ;;
  if decide (N.to_nat i < length (data n)) then
    put_node p (with_data n (<[N.to_nat i := c]> (data n)))
  else undefined.

(** [allocator_traits::construct(allocator, elem(i), std::move(x))]. *)
Definition construct (p : loc) (i : N) (v : T) : M unit := set_slot p i (Live v).

(** [allocator_traits::construct(allocator, elem(i), args...)]: the only
    construction that can throw. *)
Definition construct_from (p : loc) (i : N) (args : ctor_args) : M unit :=
  match args with
  | Yields v => construct p i v
  | Throws => throw construction_failed
  end.

(** [allocator_traits::destroy(allocator, elem(i))]: the cell is raw storage
    afterwards.  Destructors are taken to be trivial on cells that hold no
    element, as they are for the [int] elements of the drivers. *)
Definition destroy (p : loc) (i : N) : M unit := set_slot p i Raw.

(** Moving out of cell [i] ([std::move] of [elem(i)] dereferenced) as a constructor argument: the value leaves
    the cell, a moved-from object stays behind.  Reading a cell that holds
    no element is undefined behaviour. *)
Definition move_from (p : loc) (i : N) : M T :=
  c <- get_slot p i ;;
  match c with
  | Live v => set_slot p i Husk ;;; ret v
  | _ => undefined
  end.

(** Reading through [*elem(i)]. *)
Definition read_elem (p : loc) (i : N) : M T :=
  c <- get_slot p i ;;
  match c with
  | Live v => ret v
  | _ => undefined
  end.

(** *** Loops *)

(** [for (i = from; i < to; ++i) body(i)], [to] fixed during the loop:
    [for_up from (N.to_nat (to - from)) body]. *)
Fixpoint for_up (i : N) (n : nat) (body : N → M unit) : M unit :=
  match n with
  | O => ret ()
  | S n' => body i ;;; for_up (size_add i 1) n' body
  end.

(** [for (i = from; i > to; i--) body(i)]:
    [for_down from (N.to_nat (from - to)) body]. *)
Fixpoint for_down (i : N) (n : nat) (body : N → M unit) : M unit :=
  match n with
  | O => ret ()
  | S n' => body i ;;; for_down (size_sub i 1) n' body
  end.

Definition trip (from to : N) : nat := N.to_nat (to - from).

(** ** Node management *)

Definition create_node : M loc :=
  λ s, let p := fresh (dom (mem s)) in
       Ret p (mkState
                (<[p := mkNode 0 None None (replicate (N.to_nat NodeMaxSize) Raw)]> (mem s))
                (obj s)).

(** [destroy_node]: runs [~Node] (which destroys cells [0, count)) and gives
    the storage back. *)
Definition destroy_node (p : loc) : M unit :=
  n <- get_node p ;;
  for_up 0 (trip 0 (count n)) (λ i, destroy p i) ;;;
  λ s, Ret () (free s p).

Definition normalize_node (p : loc) (from shift : N) : M unit :=
  if decide (shift = 0%N) then ret ()
  else
    n <- get_node p ;;
    for_up from (trip from (count n))
      (λ i, v <- move_from p i ;;
            construct p (size_sub i shift) v ;;;
            destroy p i).

(** ** Iterators *)

Definition begin_ : M iterator := l <- get_obj ;; ret (Iter (head l) 0).
Definition end_ : M iterator := ret (Iter None 0).

#[global] Instance iterator_eq_dec : EqDecision iterator.
Proof. solve_decision. Defined.

(** [operator++] *)
Definition iter_inc (it : iterator) : M iterator :=
  match current_node it with
  | None => ret it
  | Some p =>
      n <- get_node p ;;
      if (index_in_node it <? size_sub (count n) 1)%N
      then ret (Iter (Some p) (size_add (index_in_node it) 1))
      else ret (Iter (next n) 0)
  end.

(** [operator--]; [parent->tail] is the tail of the container in the state. *)
Definition iter_dec (it : iterator) : M iterator :=
  match current_node it with
  | None =>
      l <- get_obj ;;
      match tail l with
      | Some t => n <- get_node t ;; ret (Iter (Some t) (size_sub (count n) 1))
      | None => ret (Iter None (index_in_node it))
      end
  | Some p =>
      if (0 <? index_in_node it)%N
      then ret (Iter (Some p) (size_sub (index_in_node it) 1))
      else
        n <- get_node p ;;
        match prev n with
        | Some q => m <- get_node q ;; ret (Iter (Some q) (size_sub (count m) 1))
        | None => ret (Iter None (index_in_node it))
        end
  end.

(** [operator*], read as an rvalue. *)
Definition iter_deref (it : iterator) : M T :=
  p <- deref (current_node it) ;; read_elem p (index_in_node it).

(** ** Element access and capacity *)



Definition size : M N := l <- get_obj ;; ret (total_size l).
Definition empty : M bool := l <- get_obj ;; ret (total_size l =? 0)%N.

(** ** Insertion *)

(** The body of [if (node->count == NodeMaxSize) { ... }] in
    [emplace_into_node_], up to and including the [tail] update; it returns
    the new node. *)
Definition split_full_node (node : loc) : M loc :=
  newNode <- create_node ;;
  let dataToMove := (NodeMaxSize / 2)%N in
  let startIndex := size_sub NodeMaxSize dataToMove in
  for_up 0 (trip 0 dataToMove)
    (λ i, v <- move_from node (size_add startIndex i) ;;
          construct newNode i v) ;;;
  set_count node startIndex ;;;
  set_count newNode dataToMove ;;;
  n <- get_node node ;;
  set_next newNode (next n) ;;;
  set_prev newNode (Some node) ;;;
  set_next node (Some newNode) ;;;
  nn <- get_node newNode ;;
  match next nn with
  | Some q => set_prev q (Some newNode)
  | None => ret ()
  end ;;;
  l <- get_obj ;;
  (if decide (Some node = tail l) then set_tail (Some newNode) else ret ()) ;;;
  ret newNode.

(** One turn of the shifting loop of [emplace_into_node_]: the element of
    cell [i - 1] goes to cell [i]; [cnt] is [node->count], which the loop
    does not change. *)
Definition shift_step (node : loc) (cnt : N) (i : N) : M unit :=
  if decide (i = cnt) then
    v <- move_from node (size_sub i 1) ;;
    construct node i v ;;;
    destroy node (size_sub i 1)
  else
    temp <- move_from node (size_sub i 1) ;;
    destroy node (size_sub i 1) ;;;
    construct node i temp.

(** The shifting loop: [for (i = node->count; i > ptr; i--)]. *)
Definition shift_up (node : loc) (ptr : N) : M unit :=
  n <- get_node node ;;
  for_down (count n) (trip ptr (count n)) (shift_step node (count n)).

(** The part of [emplace_into_node_] that follows the split block: shift,
    construct the new element, count it. *)
Definition place (node : loc) (ptr : N) (args : ctor_args) : M iterator :=
  shift_up node ptr ;;;
  construct_from node ptr args ;;;
  n <- get_node node ;;
  set_count node (size_add (count n) 1) ;;;
  l <- get_obj ;;
  set_total_size (size_add (total_size l) 1) ;;;
  ret (Iter (Some node) ptr).

Definition emplace_into_node_ (node : loc) (ptr : N) (args : ctor_args)
  : M iterator :=
  n <- get_node node ;;
  target <-
    (if decide (count n = NodeMaxSize) then
       newNode <- split_full_node node ;;
       n' <- get_node node ;;
       if (count n' <? ptr)%N
       then ret (newNode, size_sub ptr (count n'))
       else ret (node, ptr)
     else ret (node, ptr)) ;;
  place target.1 target.2 args.

Definition emplace (pos : iterator) (args : ctor_args) : M iterator :=
  l <- get_obj ;;
  match head l with
  | None => p <- create_node ;; set_head (Some p) ;;; set_tail (Some p)
  | Some _ => ret ()
  end ;;;
  match current_node pos with
  | None =>
      l <- get_obj ;;
      t <- deref (tail l) ;;
      n <- get_node t ;;
      emplace_into_node_ t (count n) args
  | Some node => emplace_into_node_ node (index_in_node pos) args
  end.

Definition emplace_back (args : ctor_args) : M unit :=
  e <- end_ ;; emplace e args ;;; ret ().
Definition emplace_front (args : ctor_args) : M unit :=
  b <- begin_ ;; emplace b args ;;; ret ().

Definition push_back (v : T) : M unit := emplace_back (Yields v).
Definition push_front (v : T) : M unit :=
  b <- begin_ ;; emplace b (Yields v) ;;; ret ().

(** ** Erasure *)

Definition remove_node (node : loc) : M iterator :=
  l <- get_obj ;;
  if decide (head l = tail l) then
    destroy_node node ;;;
    set_head None ;;;
    set_tail None ;;;
    ret (Iter None 0)
  else if decide (Some node = head l) then
    n <- get_node node ;;
    set_head (next n) ;;;
    h <- deref (next n) ;;
    set_prev h None ;;;
    destroy_node node ;;;
    ret (Iter (Some h) 0)
  else if decide (Some node = tail l) then
    n <- get_node node ;;
    set_tail (prev n) ;;;
    t <- deref (prev n) ;;
    set_next t None ;;;
    destroy_node node ;;;
    ret (Iter None 0)
  else
    n <- get_node node ;;
    let next_node := next n in
    p <- deref (prev n) ;;
    set_next p (next n) ;;;
    n <- get_node node ;;
    q <- deref (next n) ;;
    set_prev q (prev n) ;;;
    destroy_node node ;;;
    ret (Iter next_node 0).

(** The loop over the whole nodes strictly between the first and the last
    node of a range.  Each turn frees a node, so the number of nodes in the
    store bounds the number of turns. *)
Fixpoint erase_between (fuel : nat) (cur : option loc) (end_node : loc)
    (erasedCount : N) : M N :=
  match cur with
  | None => ret erasedCount
  | Some c =>
      if decide (c = end_node) then ret erasedCount
      else
        match fuel with
        | O => timeout
        | S fuel' =>
            n <- get_node c ;;
            for_up 0 (trip 0 (count n)) (λ i, destroy c i) ;;;
            n <- get_node c ;;
            remove_node c ;;;
            erase_between fuel' (next n) end_node
              (size_add erasedCount (count n))
        end
  end.

(** The branch [if (start_node == end_node) { ... }] of [erase(first, last)]. *)
Definition erase_same_node (start_node : loc) (start_index end_index : N)
  : M iterator :=
  for_up start_index (trip start_index end_index)
    (λ i, destroy start_node i) ;;;
  let erasedCount := N.of_nat (trip start_index end_index) in
  normalize_node start_node end_index erasedCount ;;;
  n <- get_node start_node ;;
  set_count start_node (size_sub (count n) erasedCount) ;;;
  l <- get_obj ;;
  set_total_size (size_sub (total_size l) erasedCount) ;;;
  n <- get_node start_node ;;
  if decide (count n = 0%N) then remove_node start_node
  else ret (Iter (Some start_node) start_index).

(** The rest of [erase(first, last)], for a range that spans several nodes,
    in its three parts.  First the elements of [start_node] from
    [start_index] on; [cur] is read before the node is possibly removed. *)
Definition erase_start_node (start_node : loc) (start_index : N)
  : M (option loc * N) :=
  n <- get_node start_node ;;
  for_up start_index (trip start_index (count n))
    (λ i, destroy start_node i) ;;;
  let erasedCount := N.of_nat (trip start_index (count n)) in
  set_count start_node start_index ;;;
  n <- get_node start_node ;;
  let cur := next n in
  (if decide (count n = 0%N) then remove_node start_node ;;; ret ()
   else ret ()) ;;;
  ret (cur, erasedCount).

(** Last the elements of [end_node] before [end_index]. *)
Definition erase_end_node (end_node : loc) (end_index erasedCount : N)
  : M iterator :=
  for_up 0 (trip 0 end_index) (λ i, destroy end_node i) ;;;
  let erasedCount := size_add erasedCount (N.of_nat (trip 0 end_index)) in
  normalize_node end_node end_index end_index ;;;
  n <- get_node end_node ;;
  set_count end_node (size_sub (count n) end_index) ;;;
  l <- get_obj ;;
  set_total_size (size_sub (total_size l) erasedCount) ;;;
  n <- get_node end_node ;;
  if decide (count n = 0%N) then remove_node end_node
  else ret (Iter (Some end_node) 0).

Definition erase_across_nodes (start_node : loc) (start_index : N)
    (end_node : loc) (end_index : N) : M iterator :=
  r <- erase_start_node start_node start_index ;;
  fuel <- (λ s, Ret (S (base.size (mem s))) s) ;;
  erasedCount <- erase_between fuel r.1 end_node r.2 ;;
  erase_end_node end_node end_index erasedCount.

(** [erase(first, last)] *)
Definition erase_range (first last : iterator) : M iterator :=
  l <- get_obj ;;
  if decide (first = last ∨ total_size l = 0%N) then
    ret (Iter (current_node first) (index_in_node first))
  else
    end_pos <-
      match current_node last with
      | Some e => ret (e, index_in_node last)
      | None => t <- deref (tail l) ;; n <- get_node t ;; ret (t, count n)
      end ;;
    start_pos <-
      match current_node first with
      | Some b => ret (b, index_in_node first)
      | None => h <- deref (head l) ;; ret (h, 0%N)
      end ;;
    let end_node := end_pos.1 in
    let end_index := end_pos.2 in
    let start_node := start_pos.1 in
    let start_index := start_pos.2 in
    if decide (start_node = end_node)
    then erase_same_node start_node start_index end_index
    else erase_across_nodes start_node start_index end_node end_index.

(** [erase(pos)] *)
Definition erase (pos : iterator) : M iterator :=
  pos_end <- iter_inc pos ;; erase_range pos pos_end.

Definition pop_back : M unit :=
  e <- end_ ;; p <- iter_dec e ;; erase p ;;; ret ().
Definition pop_front : M unit :=
  b <- begin_ ;; erase b ;;; ret ().

(** [clear]: every turn of the loop frees a node. *)
Fixpoint clear_loop (fuel : nat) (cur : option loc) : M unit :=
  match cur with
  | None => ret ()
  | Some c =>
      match fuel with
      | O => timeout
      | S fuel' =>
          n <- get_node c ;;
          destroy_node c ;;;
          clear_loop fuel' (next n)
      end
  end.

Definition clear : M unit :=
  l <- get_obj ;;
  fuel <- (λ s, Ret (S (base.size (mem s))) s) ;;
  clear_loop fuel (head l) ;;;
  set_head None ;;;
  set_tail None ;;;
  set_total_size 0.

(** ** The range-for loop: [for (it = begin(); it != end(); ++it) *it] *)

Fixpoint iterate (fuel : nat) (it : iterator) : M (list T) :=
  if decide (it = Iter None 0) then ret []
  else
    match fuel with
    | O => timeout
    | S fuel' =>
        v <- iter_deref it ;;
        it' <- iter_inc it ;;
        rest <- iterate fuel' it' ;;
        ret (v :: rest)
    end.

Definition to_list : M (list T) :=
  l <- get_obj ;;
  b <- begin_ ;;
  iterate (S (N.to_nat (total_size l))) b.

(** ** Indexing: [operator[]]

    [while (node && cnt + node->count <= index)] walks the chain; the
    element is then read through [node], which is null when the index is
    not below the number of elements. *)
Fixpoint subscript_loop (fuel : nat) (node : option loc) (cnt index : N)
  : M (option loc * N) :=
  match node with
  | None => ret (None, cnt)
  | Some p =>
      n <- get_node p ;;
      if (size_add cnt (count n) <=? index)%N then
        match fuel with
        | O => timeout
        | S fuel' =>
            subscript_loop fuel' (next n) (size_add cnt (count n)) index
        end
      else ret (Some p, cnt)
  end.

Definition subscript (index : N) : M T :=
  l <- get_obj ;;
  fuel <- (λ s, Ret (S (base.size (mem s))) s) ;;
  r <- subscript_loop fuel (head l) 0 index ;;
  p <- deref r.1 ;;
  read_elem p (size_sub index r.2).

(** ** Reverse traversal

    [for (rit = rbegin(); rit != rend(); ++rit) *rit] with
    [std::reverse_iterator]: [rbegin()] wraps [end()], [rend()] wraps
    [begin()], [*rit] reads through a decremented copy of the wrapped
    iterator and [++rit] decrements it. *)
Fixpoint rev_iterate (fuel : nat) (cur : iterator) : M (list T) :=
  b <- begin_ ;;
  if decide (cur = b) then ret []
  else
    match fuel with
    | O => timeout
    | S fuel' =>
        tmp <- iter_dec cur ;;
        v <- iter_deref tmp ;;
        cur' <- iter_dec cur ;;
        rest <- rev_iterate fuel' cur' ;;
        ret (v :: rest)
    end.

Definition rev_to_list : M (list T) :=
  l <- get_obj ;;
  e <- end_ ;;
  rev_iterate (S (N.to_nat (total_size l))) e.

(** ** Inserting several elements *)



(** [for (; first != last; ++first)] with a body that reads [*first]; the
    input range is given by the values it yields. *)
Fixpoint for_each {A} (xs : list A) (body : A → M unit) : M unit :=
  match xs with
  | [] => ret ()
  | x :: xs' => body x ;;; for_each xs' body
  end.

Definition assign_range (xs : list T) : M unit :=
  clear ;;; for_each xs push_back.

Definition prepend_range (xs : list T) : M unit :=
  for_each xs push_front.

(** ** Container objects in memory: construction, assignment, destruction

    Copy and move operations involve two container objects over one node
    store, and the assignment operators compare the addresses of the two
    objects, so objects live in a store of their own. *)

Record store := mkStore {
  nodes : gmap loc Node;
  objects : gmap loc unrolled_list
}.

Definition P (A : Type) : Type := comp store A.

Definition load (a : loc) : P unrolled_list :=
  λ st, match objects st !! a with Some o => Ret o st | None => Undefined end.
Definition store_obj (a : loc) (o : unrolled_list) : P unit :=
  λ st, Ret () (mkStore (nodes st) (<[a := o]> (objects st))).

(** Calling member function [m] on the object at [this]. *)
Definition call {A} (this : loc) (m : M A) : P A :=
  λ st, match objects st !! this with
        | None => Undefined
        | Some o =>
            match m (mkState (nodes st) o) with
            | Ret a s => Ret a (mkStore (mem s) (<[this := obj s]> (objects st)))
            | Raise e s => Raise e (mkStore (mem s) (<[this := obj s]> (objects st)))
            | Undefined => Undefined
            | Timeout => Timeout
            end
        end.

(** [unrolled_list()] *)
Definition default_construct (this : loc) : P unit :=
  store_obj this (mkList None None 0).

(** [unrolled_list(unrolled_list&& other) noexcept] *)
Definition move_construct (this other : loc) : P unit :=
  o <- load other ;;
  store_obj this (mkList (head o) (tail o) (total_size o)) ;;;
  store_obj other (mkList None None 0).

(** The loop of the copy constructor, run on the object under construction;
    it walks the nodes of the source, which are in the store on entry. *)
Fixpoint copy_nodes (fuel : nat) (cur : option loc) : M unit :=
  match cur with
  | None => ret ()
  | Some c =>
      match fuel with
      | O => timeout
      | S fuel' =>
          new_node <- create_node ;;
          n <- get_node c ;;
          for_up 0 (trip 0 (count n))
            (λ i, v <- read_elem c i ;; construct new_node i v) ;;;
          n <- get_node c ;;
          set_count new_node (count n) ;;;
          l <- get_obj ;;
          match tail l with
          | Some t =>
              set_next t (Some new_node) ;;;
              set_prev new_node (Some t) ;;;
              set_tail (Some new_node)
          | None => set_head (Some new_node) ;;; set_tail (Some new_node)
          end ;;;
          l <- get_obj ;;
          nn <- get_node new_node ;;
          set_total_size (size_add (total_size l) (count nn)) ;;;
          n <- get_node c ;;
          copy_nodes fuel' (next n)
      end
  end.

(** [unrolled_list(const unrolled_list& other)] *)
Definition copy_construct (this other : loc) : P unit :=
  o <- load other ;;
  store_obj this (mkList None None 0) ;;;
  fuel <- (λ st, Ret (S (base.size (nodes st))) st) ;;
  call this (copy_nodes fuel (head o)).

(** [~unrolled_list()] *)
Definition destruct_list (this : loc) : P unit :=
  call this clear ;;;
  λ st, Ret () (mkStore (nodes st) (delete this (objects st))).

Definition swap (this other : loc) : P unit :=
  a <- load this ;;
  b <- load other ;;
  store_obj this b ;;;
  store_obj other a.

(** [operator=(const unrolled_list& other)]; [tmp] is the address of the
    local temporary. *)
Definition copy_assign (this other : loc) : P unit :=
  if decide (this ≠ other) then
    tmp <- (λ st, Ret (fresh (dom (objects st))) st) ;;
    copy_construct tmp other ;;;
    swap this tmp ;;;
    destruct_list tmp
  else ret ().

(** [operator=(unrolled_list&& other) noexcept] *)
Definition move_assign (this other : loc) : P unit :=
  if decide (this ≠ other) then
    call this clear ;;;
    o <- load other ;;
    store_obj this (mkList (head o) (tail o) (total_size o)) ;;;
    store_obj other (mkList None None 0)
  else ret ().

(** [try { c } catch (...) { cleanup; throw; }] *)
Definition on_exception {St A} (c : comp St A) (cleanup : comp St unit)
  : comp St A :=
  λ s, match c s with
       | Raise e s' =>
           match cleanup s' with
           | Ret _ s'' => Raise e s''
           | Raise e' s'' => Raise e' s''
           | Undefined => Undefined
           | Timeout => Timeout
           end
       | r => r
       end.

(** [unrolled_list(InputIt first, InputIt last, const allocator_type&)]
    (and, through it, the initializer-list constructor).  Each element of
    the range is given by what copying it into the container does. *)
Definition range_construct (this : loc) (xs : list ctor_args) : P unit :=
  store_obj this (mkList None None 0) ;;;
  call this (on_exception (for_each xs emplace_back) clear).

(** [unrolled_list(size_type count, const T& value, const Allocator&)] *)
Definition fill_construct (this : loc) (cnt : N) (v : T) : P unit :=
  store_obj this (mkList None None 0) ;;;
  call this (for_up 0 (trip 0 cnt) (λ _, push_back v)).

End Container.

Arguments Raw {T}.
Arguments Husk {T}.
Arguments Throws {T}.

(** ** Comparison of containers *)

Section Comparison.

Context {T : Type} `{EqDecision T}.

(** [std::equal(first1, last1, first2)] with [last1 = end()]; the elements
    are compared with the equality of [T]. *)
Fixpoint equal_loop (fuel : nat) (first1 first2 : iterator) : M bool :=
  if decide (first1 = Iter None 0) then ret true
  else
    match fuel with
    | O => timeout
    | S fuel' =>
        a <- @iter_deref T first1 ;;
        b <- iter_deref first2 ;;
        if bool_decide (a = b) then
          i1 <- iter_inc first1 ;;
          i2 <- iter_inc first2 ;;
          equal_loop fuel' i1 i2
        else ret false
    end.

(** [operator==(const unrolled_list& other)] *)
Definition list_eq (this other : loc) : P bool :=
  if decide (this = other) then ret true
  else
    a <- @load T this ;;
    b <- load other ;;
    if decide (total_size a ≠ total_size b) then ret false
    else
      call this (equal_loop (S (N.to_nat (total_size a)))
                   (Iter (head a) 0) (Iter (head b) 0)).

(** [operator!=(const unrolled_list& other)] *)
Definition list_ne (this other : loc) : P bool :=
  r <- list_eq this other ;; ret (negb r).

End Comparison.


(** ** The representation invariant

    A well-formed container is a doubly linked chain of nodes; the node at
    address [p] of a block [(p, vs)] holds exactly the elements [vs] in its
    first cells, and no block is empty. *)

Section Invariant.

Context {T : Type}.
Variable NodeMaxSize : N.

Definition holds (n : @Node T) (vs : list T) : Prop :=
  count n = N.of_nat (length vs)
  ∧ length (data n) = N.to_nat NodeMaxSize
  ∧ take (length vs) (data n) = Live <$> vs.

(** [seg m pv cur bs pv' cur']: starting at [cur], whose predecessor is
    [pv], the [next] links run through the blocks [bs]; [pv'] is the last
    node visited and [cur'] the link that leaves it. *)
Fixpoint seg (m : gmap loc (@Node T)) (pv cur : option loc)
    (bs : list (loc * list T)) (pv' cur' : option loc) : Prop :=
  match bs with
  | [] => pv' = pv ∧ cur' = cur
  | (p, vs) :: bs' =>
      cur = Some p
      ∧ ∃ n, m !! p = Some n
             ∧ prev n = pv
             ∧ holds n vs
             ∧ vs ≠ []
             ∧ seg m (Some p) (next n) bs' pv' cur'
  end.

Definition chain (m : gmap loc (@Node T)) (hd : option loc)
    (bs : list (loc * list T)) (tl : option loc) : Prop :=
  seg m None hd bs tl None.

Definition contents (bs : list (loc * list T)) : list T := concat bs.*2.

Definition repr (s : @state T) (bs : list (loc * list T)) : Prop :=
  chain (mem s) (head (obj s)) bs (tail (obj s))
  ∧ NoDup bs.*1
  ∧ total_size (obj s) = N.of_nat (length (contents bs))
  ∧ (total_size (obj s) < SIZE_MOD)%N
  ∧ (NodeMaxSize < SIZE_MOD)%N.

(** The container in state [s] is well formed and holds the sequence [xs]. *)
Definition represents (s : @state T) (xs : list T) : Prop :=
  ∃ bs, repr s bs ∧ contents bs = xs.

(** The nodes of the store that are not nodes of the chain. *)
Definition outside (s : @state T) (bs : list (loc * list T)) : gset loc :=
  dom (mem s) ∖ list_to_set bs.*1.

(** The store in which the node [tl] (the last node of a chain, if there
    is one) has its [next] link set to [q]. *)
Definition linked_behind (m : gmap loc (@Node T)) (tl : option loc) (q : loc)
  : gmap loc (@Node T) :=
  match tl with
  | Some t =>
      match m !! t with
      | Some nt => <[t := mkNode (count nt) (Some q) (prev nt) (data nt)]> m
      | None => m
      end
  | None => m
  end.

(** Node [p], with record [n], is linked into the chain between the blocks
    [bs1] and the blocks [bs2]; nothing is said about its own cells. *)
Definition linked_at (m : gmap loc (@Node T)) (hd tl : option loc)
    (bs1 : list (loc * list T)) (p : loc) (n : @Node T)
    (bs2 : list (loc * list T)) : Prop :=
  m !! p = Some n
  ∧ seg m None hd bs1 (prev n) (Some p)
  ∧ seg m (Some p) (next n) bs2 tl None.

(** The cell that the shifting loop of [emplace_into_node_] leaves at the
    insertion index: the cell [x] that was there when nothing had to move,
    raw storage otherwise. *)
Definition gap (ws : list T) (x : @slot T) : @slot T :=
  match ws with [] => x | _ => Raw end.

(** The valid iterators of a well-formed container, each with the index in
    the sequence of the element it denotes; [end()] denotes the index one
    past the last element. *)
Inductive position (bs : list (loc * list T)) : iterator → nat → Prop :=
| position_end : position bs (Iter None 0) (length (contents bs))
| position_at bs1 p vs bs2 (i : nat) :
    bs = bs1 ++ (p, vs) :: bs2 →
    i < length vs →
    position bs (Iter (Some p) (N.of_nat i)) (length (contents bs1) + i).

End Invariant.
(** ** Concrete states over [int] elements *)

Definition empty_state : @state Z := mkState ∅ (mkList None None 0).

(** Running a list of member calls one after the other. *)
Fixpoint sequence_ {St A} (cs : list (comp St A)) : comp St unit :=
  match cs with
  | [] => ret ()
  | c :: cs' => c ;;; sequence_ cs'
  end.

(** The container [{1, 2, 3}] with [NodeMaxSize = 4]: one node at address 1. *)
Definition one_two_three : @state Z :=
  mkState {[ 1%positive := mkNode 3 None None [Live 1%Z; Live 2%Z; Live 3%Z; Raw] ]}
          (mkList (Some 1%positive) (Some 1%positive) 3).

(** Two container objects over one node store: the object at address 5 owns
    the node of [one_two_three]. *)
Definition two_objects_before : @store Z :=
  mkStore (mem one_two_three) {[ 5%positive := obj one_two_three ]}.

(** Two containers over one node store: the object at address 5 owns the
    node of [one_two_three], the object at address 6 a node at address 2
    that holds [7]. *)
Definition two_lists : @store Z :=
  mkStore (<[ 2%positive := mkNode 1 None None [Live 7%Z; Raw; Raw; Raw] ]>
             (mem one_two_three))
          (<[ 6%positive := mkList (Some 2%positive) (Some 2%positive) 1 ]>
             {[ 5%positive := obj one_two_three ]}).

(** * Properties *)

(** ** Iterators *)

Section IteratorFacts.

Context {T : Type}.
Implicit Types (s : @state T) (it : @iterator).

(** C9. Incrementing an iterator whose node pointer is null returns it
    unchanged, in every state of the node store, and leaves the state as it
    was; the computation does not depend on the store at all (it is [ret]). *)
Theorem inc_end_is_end (i : N) :
  @iter_inc T (Iter None i) = ret (Iter None i)
  ∧ ∀ s, iter_inc (Iter None i) s = Ret (Iter None i) s.
Proof. split; [reflexivity | intros s; reflexivity]. Qed.

(** C8. [erase(it, it)] returns [it] and changes neither the node store nor
    the container object, for every iterator and every state. *)
Theorem erase_empty_range (it : iterator) s :
  erase_range it it s = Ret it s.
Proof.
  unfold erase_range, bind, get_obj.
  destruct (decide _) as [_ | Hno].
  - destruct it; reflexivity.
  - exfalso. apply Hno. left. reflexivity.
Qed.

End IteratorFacts.


(** ** Arithmetic of [size_type] away from the wrap-around *)

Lemma size_sub_small (a b : N) :
  (b ≤ a)%N → (a < SIZE_MOD)%N → size_sub a b = (a - b)%N.
Proof.
  intros Hle Hlt. unfold size_sub.
  rewrite Z.mod_small; [lia|]. unfold SIZE_MOD in *. lia.
Qed.

Lemma size_add_small (a b : N) :
  (a + b < SIZE_MOD)%N → size_add a b = (a + b)%N.
Proof. intros. unfold size_add. by rewrite N.mod_small. Qed.

(** ** Running computations step by step *)

Lemma bind_Ret {St A B} (c : comp St A) (k : A → comp St B) s a s' :
  c s = Ret a s' → bind c k s = k a s'.
Proof. unfold bind. by intros ->. Qed.

Lemma bind_Raise {St A B} (c : comp St A) (k : A → comp St B) s e s' :
  c s = Raise e s' → bind c k s = Raise e s'.
Proof. unfold bind. by intros ->. Qed.

Lemma bind_Undefined {St A B} (c : comp St A) (k : A → comp St B) s :
  c s = Undefined → bind c k s = Undefined.
Proof. unfold bind. by intros ->. Qed.

Lemma bind_assoc {St A B C} (c : comp St A) (k1 : A → comp St B)
    (k2 : B → comp St C) s :
  bind (bind c k1) k2 s = bind c (λ x, bind (k1 x) k2) s.
Proof. unfold bind. by destruct (c s). Qed.

(** ** Element access under the representation invariant *)

Section Access.

Context {T : Type}.
Variable NodeMaxSize : N.
Implicit Types (s : @state T) (bs : list (loc * list T)) (m : gmap loc (@Node T)).
Implicit Types (n : @Node T) (vs : list T) (p : loc).

Lemma get_node_Some s p n : mem s !! p = Some n → get_node p s = Ret n s.
Proof. unfold get_node. by intros ->. Qed.

Lemma holds_length n vs :
  holds NodeMaxSize n vs → length vs ≤ N.to_nat NodeMaxSize.
Proof.
  intros (_ & Hlen & Htake).
  apply (f_equal length) in Htake.
  rewrite length_take, length_fmap in Htake. lia.
Qed.

Lemma holds_lookup n vs (i : nat) (v : T) :
  holds NodeMaxSize n vs → vs !! i = Some v → data n !! i = Some (Live v).
Proof.
  intros (_ & _ & Htake) Hi.
  assert (Hlt : i < length vs) by (eapply lookup_lt_Some; eauto).
  rewrite <- (lookup_take_lt (data n) (length vs) i) by lia.
  rewrite Htake, list_lookup_fmap, Hi. reflexivity.
Qed.

Lemma read_elem_holds s p n vs (i : N) (v : T) :
  mem s !! p = Some n → holds NodeMaxSize n vs → vs !! N.to_nat i = Some v →
  read_elem p i s = Ret v s.
Proof.
  intros Hp Hn Hi. unfold read_elem, get_slot, bind, get_node.
  rewrite Hp. rewrite (holds_lookup _ _ _ _ Hn Hi). reflexivity.
Qed.

Lemma seg_app m pv cur bs1 bs2 pv' cur' :
  seg NodeMaxSize m pv cur (bs1 ++ bs2) pv' cur' ↔
  ∃ mp mc, seg NodeMaxSize m pv cur bs1 mp mc ∧ seg NodeMaxSize m mp mc bs2 pv' cur'.
Proof.
  revert pv cur. induction bs1 as [| [p vs] bs1 IH]; intros pv cur; simpl.
  - split.
    + intros H. exists pv, cur. done.
    + intros (mp & mc & [-> ->] & H). done.
  - split.
    + intros (-> & n & Hp & Hpv & Hh & Hne & Hrest).
      apply IH in Hrest as (mp & mc & H1 & H2).
      exists mp, mc. split; [|done]. split; [done|]. exists n. done.
    + intros (mp & mc & (-> & n & Hp & Hpv & Hh & Hne & H1) & H2).
      split; [done|]. exists n. do 4 (split; [done|]).
      apply IH. eauto.
Qed.

(** The last block of a chain is the node [tail] points to. *)
Lemma chain_last m hd bs p vs tl :
  chain NodeMaxSize m hd (bs ++ [(p, vs)]) tl →
  tl = Some p
  ∧ ∃ n, m !! p = Some n ∧ holds NodeMaxSize n vs ∧ vs ≠ [] ∧ next n = None.
Proof.
  unfold chain. rewrite seg_app. simpl.
  intros (mp & mc & _ & -> & n & Hn & _ & Hh & Hne & -> & Hnx). eauto 10.
Qed.

Lemma chain_contents_nil m hd bs tl :
  chain NodeMaxSize m hd bs tl → contents bs = [] → bs = [].
Proof.
  destruct bs as [| [p vs] bs]; [done|]. unfold chain. simpl.
  intros (_ & n & _ & _ & _ & Hne & _) Hc. unfold contents in Hc. simpl in Hc.
  apply app_nil in Hc as [-> _]. done.
Qed.

Lemma contents_cons p vs bs : @contents T ((p, vs) :: bs) = vs ++ contents bs.
Proof. reflexivity. Qed.

Lemma contents_app bs1 bs2 : @contents T (bs1 ++ bs2) = contents bs1 ++ contents bs2.
Proof. unfold contents. by rewrite fmap_app, concat_app. Qed.

Lemma contents_snoc bs p vs : contents (bs ++ [(p, vs)]) = contents bs ++ vs.
Proof. rewrite contents_app, contents_cons. unfold contents at 3. simpl. by rewrite app_nil_r. Qed.


End Access.

(** ** The range-for loop reads the contents *)

Section Iteration.

Context {T : Type}.
Variable NodeMaxSize : N.
Hypothesis NodeMaxSize_fits : (NodeMaxSize < SIZE_MOD)%N.
Implicit Types (s : @state T) (bs : list (loc * list T)) (m : gmap loc (@Node T)).
Implicit Types (n : @Node T) (vs : list T) (p : loc).

Lemma iter_inc_inside s p n vs (i : nat) :
  mem s !! p = Some n → holds NodeMaxSize n vs → S i < length vs →
  iter_inc (Iter (Some p) (N.of_nat i)) s = Ret (Iter (Some p) (N.of_nat (S i))) s.
Proof using NodeMaxSize_fits.
  intros Hp Hh Hi. pose proof (holds_length _ _ _ Hh) as Hle.
  destruct Hh as (Hc & _ & _).
  unfold iter_inc. simpl. rewrite (bind_Ret _ _ _ _ _ (get_node_Some _ _ _ Hp)).
  rewrite Hc, size_sub_small by lia.
  destruct (N.ltb_spec (N.of_nat i) (N.of_nat (length vs) - 1)) as [_ | Hge]; [| lia].
  rewrite size_add_small by lia. unfold ret. do 2 f_equal. lia.
Qed.

Lemma iter_inc_last s p n vs (i : nat) :
  mem s !! p = Some n → holds NodeMaxSize n vs → S i = length vs →
  iter_inc (Iter (Some p) (N.of_nat i)) s = Ret (Iter (next n) 0) s.
Proof using NodeMaxSize_fits.
  intros Hp Hh Hi. pose proof (holds_length _ _ _ Hh) as Hle.
  destruct Hh as (Hc & _ & _).
  unfold iter_inc. simpl. rewrite (bind_Ret _ _ _ _ _ (get_node_Some _ _ _ Hp)).
  rewrite Hc, size_sub_small by lia.
  destruct (N.ltb_spec (N.of_nat i) (N.of_nat (length vs) - 1)) as [Hlt | _]; [lia |].
  reflexivity.
Qed.

Lemma iter_deref_holds s p n vs (i : nat) (v : T) :
  mem s !! p = Some n → holds NodeMaxSize n vs → vs !! i = Some v →
  iter_deref (Iter (Some p) (N.of_nat i)) s = Ret v s.
Proof.
  intros Hp Hh Hi. unfold iter_deref. simpl.
  rewrite (bind_Ret _ _ s p s) by reflexivity.
  eapply read_elem_holds; eauto. by rewrite Nat2N.id.
Qed.

(** Walking the rest of one node: from index [i], [k + 1] elements remain. *)
Lemma iterate_block s p n vs (k i fuel : nat) :
  mem s !! p = Some n → holds NodeMaxSize n vs → i + S k = length vs →
  iterate (S k + fuel) (Iter (Some p) (N.of_nat i)) s
  = (rest <- iterate fuel (Iter (next n) 0) ;; ret (drop i vs ++ rest)) s.
Proof using NodeMaxSize_fits.
  intros Hp Hh. revert i. induction k as [| k IH]; intros i Hi.
  - assert (Hv : ∃ v, vs !! i = Some v) by (apply lookup_lt_is_Some; lia).
    destruct Hv as [v Hv].
    change (iterate (1 + fuel) (Iter (Some p) (N.of_nat i)) s)
      with ((v <- iter_deref (Iter (Some p) (N.of_nat i)) ;;
             it' <- iter_inc (Iter (Some p) (N.of_nat i)) ;;
             rest <- iterate fuel it' ;; ret (v :: rest)) s).
    rewrite (bind_Ret _ _ _ _ _ (iter_deref_holds _ _ _ _ _ _ Hp Hh Hv)).
    rewrite (bind_Ret _ _ _ _ _ (iter_inc_last s p n vs i Hp Hh ltac:(lia))).
    rewrite (drop_S _ _ _ Hv), drop_ge by lia. reflexivity.
  - assert (Hv : ∃ v, vs !! i = Some v) by (apply lookup_lt_is_Some; lia).
    destruct Hv as [v Hv].
    change (iterate (S (S k) + fuel) (Iter (Some p) (N.of_nat i)) s)
      with ((v <- iter_deref (Iter (Some p) (N.of_nat i)) ;;
             it' <- iter_inc (Iter (Some p) (N.of_nat i)) ;;
             rest <- iterate (S k + fuel) it' ;; ret (v :: rest)) s).
    rewrite (bind_Ret _ _ _ _ _ (iter_deref_holds _ _ _ _ _ _ Hp Hh Hv)).
    rewrite (bind_Ret _ _ _ _ _ (iter_inc_inside s p n vs i Hp Hh ltac:(lia))).
    unfold bind at 1. rewrite IH by lia. unfold bind.
    destruct (iterate fuel _ s); try reflexivity.
    unfold ret. rewrite (drop_S _ _ _ Hv). reflexivity.
Qed.

Lemma iterate_end (fuel : nat) s : iterate fuel (Iter None 0) s = Ret [] s.
Proof. destruct fuel; reflexivity. Qed.

Lemma iterate_seg s bs pv cur pv' (fuel : nat) :
  seg NodeMaxSize (mem s) pv cur bs pv' None →
  iterate (length (contents bs) + fuel) (Iter cur 0) s = Ret (contents bs) s.
Proof using NodeMaxSize_fits.
  revert pv cur. induction bs as [| [p vs] bs IH]; intros pv cur; simpl.
  - intros [_ <-]. apply iterate_end.
  - intros (-> & n & Hp & _ & Hh & Hne & Hrest).
    rewrite contents_cons, length_app.
    destruct vs as [| v vs']; [done|].
    replace (length (v :: vs') + length (contents bs) + fuel)
      with (S (length vs') + (length (contents bs) + fuel)) by (simpl; lia).
    rewrite (iterate_block s p n (v :: vs') (length vs') 0 _ Hp Hh) by (simpl; lia).
    rewrite (bind_Ret _ _ _ _ _ (IH _ _ Hrest)). reflexivity.
Qed.

(** In a well-formed container the loop [for (it = begin(); it != end(); ++it)]
    terminates, reads exactly the contents in order and changes nothing. *)
Theorem to_list_repr s bs :
  repr NodeMaxSize s bs → to_list s = Ret (contents bs) s.
Proof using NodeMaxSize_fits.
  intros (Hchain & _ & Hsize & _ & _).
  unfold to_list, begin_, bind, get_obj, ret.
  rewrite Hsize, Nat2N.id.
  replace (S (length (contents bs))) with (length (contents bs) + 1) by lia.
  eapply iterate_seg. exact Hchain.
Qed.

End Iteration.

(** ** The primitive operations on nodes *)

Section Memory.

Context {T : Type}.
Implicit Types (s : @state T) (n : @Node T) (p : loc) (d : list (@slot T)).

Lemma upd_upd s p n1 n2 : upd (upd s p n1) p n2 = upd s p n2.
Proof. unfold upd. simpl. by rewrite insert_insert_eq. Qed.

Lemma upd_lookup s p n : mem (upd s p n) !! p = Some n.
Proof. apply lookup_insert_eq. Qed.

Lemma upd_lookup_ne s p q n : p ≠ q → mem (upd s p n) !! q = mem s !! q.
Proof. intros. by apply lookup_insert_ne. Qed.

Lemma upd_id s p n : mem s !! p = Some n → upd s p n = s.
Proof. intros H. unfold upd. rewrite insert_id by done. by destruct s. Qed.

Lemma upd_obj s p n : obj (upd s p n) = obj s.
Proof. reflexivity. Qed.

Lemma free_lookup s p : mem (free s p) !! p = None.
Proof. apply lookup_delete_eq. Qed.

Lemma free_lookup_ne s p q : p ≠ q → mem (free s p) !! q = mem s !! q.
Proof. intros. by apply lookup_delete_ne. Qed.

Lemma free_upd s p n : free (upd s p n) p = free s p.
Proof. unfold free, upd. simpl. by rewrite delete_insert_eq. Qed.

Lemma with_data_data n d : data (with_data n d) = d.
Proof. reflexivity. Qed.

Lemma set_count_Some s p n (c : N) :
  mem s !! p = Some n →
  set_count p c s = Ret () (upd s p (mkNode c (next n) (prev n) (data n))).
Proof. intros H. unfold set_count. by rewrite (bind_Ret _ _ _ _ _ (get_node_Some _ _ _ H)). Qed.

Lemma set_next_Some s p n (q : option loc) :
  mem s !! p = Some n →
  set_next p q s = Ret () (upd s p (mkNode (count n) q (prev n) (data n))).
Proof. intros H. unfold set_next. by rewrite (bind_Ret _ _ _ _ _ (get_node_Some _ _ _ H)). Qed.

Lemma set_prev_Some s p n (q : option loc) :
  mem s !! p = Some n →
  set_prev p q s = Ret () (upd s p (mkNode (count n) (next n) q (data n))).
Proof. intros H. unfold set_prev. by rewrite (bind_Ret _ _ _ _ _ (get_node_Some _ _ _ H)). Qed.

Lemma set_slot_Some s p n (i : N) (c : slot) :
  mem s !! p = Some n → N.to_nat i < length (data n) →
  set_slot p i c s = Ret () (upd s p (with_data n (<[N.to_nat i := c]> (data n)))).
Proof.
  intros H Hi. unfold set_slot.
  rewrite (bind_Ret _ _ _ _ _ (get_node_Some _ _ _ H)).
  by rewrite decide_True.
Qed.

Lemma set_slot_out_of_bounds s p n (i : N) (c : slot) :
  mem s !! p = Some n → length (data n) ≤ N.to_nat i →
  set_slot p i c s = Undefined.
Proof.
  intros H Hi. unfold set_slot.
  rewrite (bind_Ret _ _ _ _ _ (get_node_Some _ _ _ H)).
  rewrite decide_False by lia. reflexivity.
Qed.

Lemma move_from_Live s p n (i : N) (v : T) :
  mem s !! p = Some n → data n !! N.to_nat i = Some (Live v) →
  move_from p i s = Ret v (upd s p (with_data n (<[N.to_nat i := Husk]> (data n)))).
Proof.
  intros H Hi. unfold move_from, get_slot.
  rewrite bind_assoc.
  rewrite (bind_Ret _ _ _ _ _ (get_node_Some _ _ _ H)). rewrite Hi.
  rewrite (bind_Ret _ _ s (Live v) s) by reflexivity.
  rewrite (bind_Ret _ _ _ _ _ (set_slot_Some _ _ _ _ _ H (lookup_lt_Some _ _ _ Hi))).
  reflexivity.
Qed.

(** One turn of the shifting loop moves the element of cell [i - 1] to cell
    [i]; the two orders of construction and destruction in the source have
    the same effect. *)
Lemma shift_step_spec s p n (cnt i : N) (w : T) :
  mem s !! p = Some n →
  (1 ≤ i < SIZE_MOD)%N →
  data n !! (N.to_nat i - 1) = Some (Live w) →
  N.to_nat i < length (data n) →
  shift_step p cnt i s
  = Ret () (upd s p (with_data n (<[N.to_nat i := Live w]>
                                    (<[N.to_nat i - 1 := Raw]> (data n))))).
Proof.
  intros Hp Hi Hw Hlen.
  assert (Hsub : N.to_nat (size_sub i 1) = N.to_nat i - 1).
  { rewrite size_sub_small by lia. lia. }
  assert (Hlt : N.to_nat i - 1 < length (data n)) by lia.
  unfold shift_step, construct, destroy.
  pose proof (move_from_Live s p n (size_sub i 1) w Hp) as Hm.
  rewrite Hsub in Hm. specialize (Hm Hw).
  destruct (decide (i = cnt)) as [_ | _].
  - rewrite (bind_Ret _ _ _ _ _ Hm).
    rewrite (bind_Ret _ _ _ _ _ (set_slot_Some _ p _ i _ (upd_lookup _ _ _)
             ltac:(by rewrite with_data_data, length_insert))).
    rewrite (set_slot_Some _ p _ _ _ (upd_lookup _ _ _))
      by (by rewrite Hsub, !with_data_data, !length_insert).
    rewrite !upd_upd, Hsub. unfold with_data. simpl. do 3 f_equal.
    rewrite (list_insert_insert_ne _ (N.to_nat i - 1) (N.to_nat i)) by lia.
    by rewrite list_insert_insert_eq.
  - rewrite (bind_Ret _ _ _ _ _ Hm).
    rewrite (bind_Ret _ _ _ _ _ (set_slot_Some _ p _ (size_sub i 1) _ (upd_lookup _ _ _)
             ltac:(by rewrite Hsub, with_data_data, length_insert))).
    rewrite (set_slot_Some _ p _ i _ (upd_lookup _ _ _))
      by (by rewrite !with_data_data, !length_insert).
    rewrite !upd_upd, Hsub. unfold with_data. simpl. do 3 f_equal.
    by rewrite list_insert_insert_eq.
Qed.

End Memory.

(** Symbolic execution of one primitive call at the head of a computation. *)
Ltac solve_lookup :=
  repeat first [ rewrite upd_lookup
               | rewrite upd_lookup_ne by (done || congruence)
               | rewrite free_lookup_ne by (done || congruence) ];
  first [ reflexivity | eassumption ].

Ltac step :=
  erewrite bind_Ret;
  [| first [ apply get_node_Some; solve_lookup
           | apply set_count_Some; solve_lookup
           | apply set_next_Some; solve_lookup
           | apply set_prev_Some; solve_lookup
           | reflexivity ] ];
  cbv beta; cbn [count next prev data with_data obj upd].

(** ** The shifting loop and the placement of the new element *)

Section Shifting.

Context {T : Type}.
Implicit Types (s : @state T) (n : @Node T) (p : loc).
Implicit Types (pre post : list (@slot T)) (ws : list T).

Lemma insert_at_length {A} (l1 l2 : list A) (x y : A) :
  <[length l1 := y]> (l1 ++ x :: l2) = l1 ++ y :: l2.
Proof. induction l1 as [| a l1 IH]; simpl; [done | by rewrite IH]. Qed.

Lemma lookup_at_length {A} (l1 l2 : list A) (x : A) :
  (l1 ++ x :: l2) !! length l1 = Some x.
Proof. by apply list_lookup_middle. Qed.

Lemma with_data_id n : with_data n (data n) = n.
Proof. by destruct n. Qed.

Lemma shift_loop p (cnt : N) ws : ∀ pre x post n s,
  mem s !! p = Some n →
  data n = pre ++ (Live <$> ws) ++ x :: post →
  (N.of_nat (length pre + length ws) < SIZE_MOD)%N →
  for_down (N.of_nat (length pre + length ws)) (length ws) (shift_step p cnt) s
  = Ret () (upd s p (with_data n (pre ++ gap ws x :: (Live <$> ws) ++ post))).
Proof.
  induction ws as [| w ws IH] using rev_ind; intros pre x post n s Hp Hd Hlt.
  - simpl in *. rewrite <- Hd, with_data_id, upd_id by done. reflexivity.
  - rewrite length_app in *. simpl in *.
    replace (length ws + 1) with (S (length ws)) in * by lia.
    rewrite fmap_app in Hd. simpl in Hd.
    set (l1 := pre ++ (Live <$> ws)).
    assert (Hl1 : length l1 = length pre + length ws).
    { unfold l1. by rewrite length_app, length_fmap. }
    assert (Hd1 : data n = l1 ++ Live w :: x :: post).
    { rewrite Hd. unfold l1. by rewrite <- !app_assoc. }
    simpl.
    assert (Hidx : N.to_nat (N.of_nat (length pre + S (length ws))) - 1 = length l1) by lia.
    assert (Hidx' : N.to_nat (N.of_nat (length pre + S (length ws))) = length (l1 ++ [Live w])).
    { rewrite length_app. simpl. lia. }
    rewrite (bind_Ret _ _ _ _ _
      (shift_step_spec s p n cnt (N.of_nat (length pre + S (length ws))) w Hp ltac:(lia)
         ltac:(rewrite Hidx, Hd1; apply lookup_at_length)
         ltac:(rewrite Hd1, length_app; simpl; lia))).
    rewrite Hidx, Hd1, insert_at_length.
    rewrite Hidx'.
    replace (l1 ++ Raw :: x :: post) with ((l1 ++ [Raw]) ++ x :: post)
      by (by rewrite <- app_assoc).
    replace (length (l1 ++ [Live w])) with (length (l1 ++ [Raw]))
      by (by rewrite !length_app).
    rewrite insert_at_length, <- app_assoc. simpl.
    rewrite size_sub_small by lia.
    replace (N.of_nat (length pre + S (length ws)) - 1)%N
      with (N.of_nat (length pre + length ws)) by lia.
    rewrite (IH pre Raw (Live w :: post) _ _ (upd_lookup _ _ _)); cycle 1.
    { rewrite with_data_data. unfold l1. by rewrite <- app_assoc. }
    { lia. }
    rewrite upd_upd. unfold with_data. simpl. do 3 f_equal.
    rewrite fmap_app. simpl. rewrite <- app_assoc. simpl.
    f_equal. by destruct ws.
Qed.

Lemma shift_up_spec s p n (vs : list T) (i : nat) x post :
  mem s !! p = Some n →
  count n = N.of_nat (length vs) →
  (count n < SIZE_MOD)%N →
  i ≤ length vs →
  data n = (Live <$> take i vs) ++ (Live <$> drop i vs) ++ x :: post →
  shift_up p (N.of_nat i) s
  = Ret () (upd s p (with_data n ((Live <$> take i vs) ++ gap (drop i vs) x
                                    :: (Live <$> drop i vs) ++ post))).
Proof.
  intros Hp Hc Hlt Hi Hd. unfold shift_up.
  rewrite (bind_Ret _ _ _ _ _ (get_node_Some _ _ _ Hp)).
  assert (Hlen : length (Live <$> take i vs : list slot) + length (drop i vs) = length vs).
  { rewrite length_fmap, length_take, length_drop. lia. }
  unfold trip. rewrite Hc.
  replace (N.to_nat (N.of_nat (length vs) - N.of_nat i)) with (length (drop i vs))
    by (rewrite length_drop; lia).
  rewrite <- Hlen at 1.
  apply shift_loop; [done | done | lia].
Qed.

(** When the constructor throws, the elements have already been shifted:
    the exception leaves the node with its old [count] and a hole at the
    insertion index. *)
Lemma place_Throws s p n (vs : list T) (i : nat) x post :
  mem s !! p = Some n →
  count n = N.of_nat (length vs) →
  (count n < SIZE_MOD)%N →
  i ≤ length vs →
  data n = (Live <$> take i vs) ++ (Live <$> drop i vs) ++ x :: post →
  place p (N.of_nat i) Throws s
  = Raise construction_failed
      (upd s p (with_data n ((Live <$> take i vs) ++ gap (drop i vs) x
                               :: (Live <$> drop i vs) ++ post))).
Proof.
  intros Hp Hc Hlt Hi Hd. unfold place.
  rewrite (bind_Ret _ _ _ _ _ (shift_up_spec s p n vs i x post Hp Hc Hlt Hi Hd)).
  reflexivity.
Qed.

Variable NodeMaxSize : N.
Hypothesis NodeMaxSize_fits : (NodeMaxSize < SIZE_MOD)%N.

(** The storage of a node that is not full, cut at index [i]: the elements
    before [i], the elements from [i] on, the first free cell, the rest. *)
Lemma holds_decompose n (vs : list T) (i : nat) :
  holds NodeMaxSize n vs → length vs < N.to_nat NodeMaxSize → i ≤ length vs →
  ∃ x post, data n = (Live <$> take i vs) ++ (Live <$> drop i vs) ++ x :: post
            ∧ length post = N.to_nat NodeMaxSize - length vs - 1.
Proof.
  clear NodeMaxSize_fits.
  intros (Hc & Hlen & Htake) Hfull Hi.
  destruct (drop (length vs) (data n)) as [| x post] eqn:Hdrop.
  { apply (f_equal length) in Hdrop. rewrite length_drop in Hdrop. simpl in Hdrop. lia. }
  exists x, post. split.
  - rewrite app_assoc, <- fmap_app, take_drop, <- Htake, <- Hdrop.
    by rewrite take_drop.
  - apply (f_equal length) in Hdrop. rewrite length_drop in Hdrop. simpl in Hdrop. lia.
Qed.

(** Placing an element in a node that has a free cell. *)
Lemma place_Yields s p n (vs : list T) (i : nat) (v : T) :
  mem s !! p = Some n →
  holds NodeMaxSize n vs →
  length vs < N.to_nat NodeMaxSize →
  i ≤ length vs →
  (total_size (obj s) + 1 < SIZE_MOD)%N →
  ∃ n', place p (N.of_nat i) (Yields v) s
        = Ret (Iter (Some p) (N.of_nat i))
              (mkState (<[p := n']> (mem s))
                       (mkList (head (obj s)) (tail (obj s)) (total_size (obj s) + 1)))
        ∧ holds NodeMaxSize n' (take i vs ++ v :: drop i vs)
        ∧ next n' = next n ∧ prev n' = prev n.
Proof using NodeMaxSize_fits.
  intros Hp Hh Hfull Hi Htot.
  destruct (holds_decompose n vs i Hh Hfull Hi) as (x & post & Hd & Hpost).
  pose proof Hh as (Hc & Hlen & Htake).
  pose (pre := (Live <$> take i vs : list slot)).
  pose (ws := drop i vs).
  assert (Hpre : length pre = i).
  { unfold pre. rewrite length_fmap, length_take. lia. }
  assert (Hws : length ws = length vs - i) by (unfold ws; by rewrite length_drop).
  set (n' := mkNode (count n + 1) (next n) (prev n)
                    (pre ++ Live v :: (Live <$> ws) ++ post)).
  exists n'. split; [| split; [| done]].
  - unfold place.
    rewrite (bind_Ret _ _ _ _ _
      (shift_up_spec s p n vs i x post Hp Hc ltac:(lia) Hi Hd)).
    fold pre ws. unfold construct_from, construct.
    assert (Hside : N.to_nat (N.of_nat i)
                    < length (data (with_data n (pre ++ gap ws x :: (Live <$> ws) ++ post)))).
    { rewrite with_data_data, length_app. simpl. lia. }
    rewrite (bind_Ret _ _ _ _ _ (set_slot_Some _ p _ (N.of_nat i) _ (upd_lookup _ _ _) Hside)).
    rewrite upd_upd, with_data_data, Nat2N.id.
    rewrite <- Hpre at 1. rewrite insert_at_length.
    rewrite (bind_Ret _ _ _ _ _ (get_node_Some _ _ _ (upd_lookup _ _ _))).
    rewrite (bind_Ret _ _ _ _ _ (set_count_Some _ _ _ _ (upd_lookup _ _ _))).
    rewrite upd_upd. simpl.
    rewrite (bind_Ret _ _ _ (obj s) _) by reflexivity.
    rewrite (bind_Ret _ _ _ () _) by reflexivity.
    rewrite !size_add_small by lia. reflexivity.
  - assert (Hl : length (take i vs ++ v :: drop i vs)
                 = length (pre ++ Live v :: (Live <$> ws))).
    { rewrite !length_app. simpl. rewrite length_fmap. unfold pre.
      by rewrite length_fmap. }
    unfold holds, n'. simpl. split; [| split].
    + rewrite Hl, length_app. simpl. rewrite length_fmap. lia.
    + rewrite <- Hlen, Hd. fold pre ws.
      rewrite !length_app. simpl. rewrite !length_app. simpl. lia.
    + rewrite Hl, fmap_app, fmap_cons. fold pre ws.
      rewrite (app_comm_cons _ post), app_assoc.
      by rewrite take_app_length.
Qed.

End Shifting.

(** ** Local changes to a chain *)

Section ChainUpdates.

Context {T : Type}.
Variable NodeMaxSize : N.
Implicit Types (s : @state T) (bs : list (loc * list T)) (m : gmap loc (@Node T)).
Implicit Types (n : @Node T) (vs : list T) (p : loc).

(** A segment only depends on the nodes it runs through. *)
Lemma seg_frame m m' pv cur bs pv' cur' :
  (∀ p, p ∈ bs.*1 → m' !! p = m !! p) →
  seg NodeMaxSize m pv cur bs pv' cur' → seg NodeMaxSize m' pv cur bs pv' cur'.
Proof.
  revert pv cur. induction bs as [| [p vs] bs IH]; intros pv cur Hsame; simpl; [done|].
  intros (-> & n & Hp & Hpv & Hh & Hne & Hrest).
  split; [done|]. exists n. split.
  { rewrite Hsame; [done|]. simpl. left. }
  do 3 (split; [done|]). apply IH; [|done].
  intros q Hq. apply Hsame. simpl. by right.
Qed.

Lemma seg_block m pv cur bs1 p vs bs2 pv' cur' :
  seg NodeMaxSize m pv cur (bs1 ++ (p, vs) :: bs2) pv' cur' ↔
  ∃ n, m !! p = Some n ∧ holds NodeMaxSize n vs ∧ vs ≠ []
       ∧ seg NodeMaxSize m pv cur bs1 (prev n) (Some p)
       ∧ seg NodeMaxSize m (Some p) (next n) bs2 pv' cur'.
Proof.
  rewrite seg_app. simpl. split.
  - intros (mp & mc & H1 & -> & n & Hp & <- & Hh & Hne & H2). exists n. done.
  - intros (n & Hp & Hh & Hne & H1 & H2).
    exists (prev n), (Some p). split; [done|]. split; [done|]. exists n. done.
Qed.

(** Every node of a segment is allocated. *)
Lemma seg_allocated m pv cur bs pv' cur' p :
  seg NodeMaxSize m pv cur bs pv' cur' → p ∈ bs.*1 → is_Some (m !! p).
Proof.
  revert pv cur. induction bs as [| [q vs] bs IH]; intros pv cur; simpl.
  - intros _ Hin. by apply elem_of_nil in Hin.
  - intros (-> & n & Hq & _ & _ & _ & Hrest) Hin.
    apply elem_of_cons in Hin as [-> | Hin]; [by eexists | eauto].
Qed.

Lemma NoDup_block_l bs1 p vs bs2 :
  NoDup (bs1 ++ (p, vs) :: bs2).*1 → p ∉ bs1.*1.
Proof.
  rewrite fmap_app, fmap_cons. simpl. intros Hnd Hin.
  apply list.NoDup_app in Hnd as (_ & Hdisj & _).
  apply (Hdisj p Hin). left.
Qed.

Lemma NoDup_block_r bs1 p vs bs2 :
  NoDup (bs1 ++ (p, vs) :: bs2).*1 → p ∉ bs2.*1.
Proof.
  rewrite fmap_app, fmap_cons. simpl. intros Hnd.
  apply list.NoDup_app in Hnd as (_ & _ & Hnd).
  by apply list.NoDup_cons in Hnd as [? _].
Qed.

(** Replacing the contents of one block, links untouched. *)
Lemma seg_replace_block m pv cur bs1 p vs vs' bs2 pv' cur' n n' :
  NoDup (bs1 ++ (p, vs) :: bs2).*1 →
  seg NodeMaxSize m pv cur (bs1 ++ (p, vs) :: bs2) pv' cur' →
  m !! p = Some n →
  next n' = next n → prev n' = prev n →
  holds NodeMaxSize n' vs' → vs' ≠ [] →
  seg NodeMaxSize (<[p := n']> m) pv cur (bs1 ++ (p, vs') :: bs2) pv' cur'.
Proof.
  intros Hnd Hseg Hp Hnx Hpv Hh Hne.
  apply seg_block in Hseg as (n0 & Hp0 & _ & _ & H1 & H2).
  assert (n0 = n) as -> by congruence.
  apply seg_block. exists n'. split; [apply lookup_insert_eq|].
  split; [done|]. split; [done|]. rewrite Hnx, Hpv. split.
  - eapply seg_frame; [|done]. intros q Hq.
    apply lookup_insert_ne. intros ->. by apply (NoDup_block_l _ _ _ _ Hnd).
  - eapply seg_frame; [|done]. intros q Hq.
    apply lookup_insert_ne. intros ->. by apply (NoDup_block_r _ _ _ _ Hnd).
Qed.

Lemma contents_block bs1 p vs bs2 :
  contents (bs1 ++ (p, vs) :: bs2) = contents bs1 ++ vs ++ contents bs2.
Proof. by rewrite contents_app, contents_cons. Qed.

Lemma fst_block bs1 p vs vs' bs2 :
  (bs1 ++ (p, vs') :: bs2).*1 = (bs1 ++ (p, vs) :: bs2).*1.
Proof. by rewrite !fmap_app, !fmap_cons. Qed.

(** Inserting into a block that has room: the block grows by the new
    element, nothing else changes, no node is allocated. *)
Lemma place_repr s bs1 p vs bs2 (i : nat) (v : T) :
  repr NodeMaxSize s (bs1 ++ (p, vs) :: bs2) →
  length vs < N.to_nat NodeMaxSize →
  i ≤ length vs →
  (total_size (obj s) + 1 < SIZE_MOD)%N →
  ∃ s', place p (N.of_nat i) (Yields v) s = Ret (Iter (Some p) (N.of_nat i)) s'
        ∧ repr NodeMaxSize s' (bs1 ++ (p, take i vs ++ v :: drop i vs) :: bs2)
        ∧ dom (mem s') = dom (mem s).
Proof.
  intros (Hchain & Hnd & Hsize & Hlt & NodeMaxSize_fits) Hroom Hi Htot.
  pose proof Hchain as Hc. apply seg_block in Hc as (n & Hp & Hh & Hne & _).
  destruct (place_Yields NodeMaxSize NodeMaxSize_fits s p n vs i v Hp Hh Hroom Hi Htot)
    as (n' & Hrun & Hh' & Hnx & Hpv).
  eexists. split; [exact Hrun|]. split.
  - unfold repr. simpl. split; [| split; [| split; [| split]]].
    + apply (seg_replace_block (mem s) None (head (obj s)) bs1 p vs _ bs2
               (tail (obj s)) None n n'); try done.
      by destruct (take i vs).
    + by rewrite (fst_block bs1 p vs).
    + rewrite Hsize, !contents_block.
      repeat (rewrite length_app || simpl).
      rewrite length_take, length_drop. lia.
    + lia.
    + done.
  - simpl. rewrite dom_insert_L.
    apply subseteq_union_1_L, singleton_subseteq_l, elem_of_dom. eauto.
Qed.

End ChainUpdates.

(** ** Splitting a full node *)

Section SplitLoop.

Context {T : Type}.
Implicit Types (s : @state T) (n : @Node T) (p q : loc).

Lemma upd_comm s p q n1 n2 :
  p ≠ q → upd (upd s p n1) q n2 = upd (upd s q n2) p n1.
Proof. intros Hne. unfold upd. simpl. f_equal. by apply insert_insert_ne. Qed.

(** The loop that moves the back half: after [j] turns the cells
    [si, si + j) of the old node are moved-from and the cells [0, j) of the
    new node hold their elements. *)
Lemma split_loop p q (si : nat) (ws : list T) :
  ∀ (j : nat) (A : list slot) (moved : list T) (r : nat) np nq s,
  p ≠ q →
  mem s !! p = Some np → mem s !! q = Some nq →
  data np = A ++ replicate j Husk ++ (Live <$> ws) → length A = si →
  data nq = (Live <$> moved) ++ replicate (length ws + r) Raw → length moved = j →
  (N.of_nat (si + j + length ws) < SIZE_MOD)%N →
  for_up (N.of_nat j) (length ws)
    (λ i, v <- move_from p (size_add (N.of_nat si) i) ;; construct q i v) s
  = Ret () (upd (upd s p (with_data np (A ++ replicate (j + length ws) Husk)))
                q (with_data nq ((Live <$> (moved ++ ws)) ++ replicate r Raw))).
Proof.
  induction ws as [| w ws IH]; intros j A moved r np nq s Hne Hp Hq Hdp HA Hdq Hmoved Hlt.
  - simpl in *. rewrite !app_nil_r in *. rewrite Nat.add_0_r.
    rewrite <- Hdp, <- Hdq, !with_data_id.
    rewrite (upd_id s p np Hp), (upd_id s q nq Hq). reflexivity.
  - simpl in Hlt. simpl length. cbn [for_up].
    assert (Hidx : N.to_nat (size_add (N.of_nat si) (N.of_nat j)) = length (A ++ replicate j Husk)).
    { rewrite size_add_small by lia. rewrite length_app, length_replicate. lia. }
    assert (Hdp' : data np = (A ++ replicate j Husk) ++ Live w :: (Live <$> ws)).
    { rewrite Hdp. by rewrite <- app_assoc. }
    assert (Hcell : data np !! N.to_nat (size_add (N.of_nat si) (N.of_nat j)) = Some (Live w)).
    { rewrite Hidx, Hdp'. apply lookup_at_length. }
    rewrite bind_assoc.
    rewrite (bind_Ret _ _ _ _ _ (move_from_Live s p np _ w Hp Hcell)).
    rewrite Hidx, Hdp', insert_at_length.
    set (np1 := with_data np ((A ++ replicate j Husk) ++ Husk :: (Live <$> ws))).
    assert (Hq1 : mem (upd s p np1) !! q = Some nq) by (by rewrite upd_lookup_ne).
    assert (Hdq' : data nq = (Live <$> moved) ++ Raw :: replicate (length ws + r) Raw).
    { by rewrite Hdq. }
    assert (Hj : N.to_nat (N.of_nat j) = length (Live <$> moved : list slot)).
    { rewrite length_fmap. lia. }
    assert (Hside : N.to_nat (N.of_nat j) < length (data nq)).
    { rewrite Hj, Hdq', length_app. simpl. lia. }
    unfold construct.
    rewrite (bind_Ret _ _ _ _ _ (set_slot_Some _ q nq (N.of_nat j) (Live w) Hq1 Hside)).
    rewrite Hj, Hdq', insert_at_length.
    set (nq1 := with_data nq ((Live <$> moved) ++ Live w :: replicate (length ws + r) Raw)).
    rewrite size_add_small by lia.
    replace (N.of_nat j + 1)%N with (N.of_nat (S j)) by lia.
    rewrite (IH (S j) A (moved ++ [w]) r np1 nq1 _ Hne); cycle 1.
    { rewrite upd_lookup_ne by done. apply upd_lookup. }
    { apply upd_lookup. }
    { unfold np1. rewrite with_data_data, replicate_S_end, <- !app_assoc.
      reflexivity. }
    { done. }
    { unfold nq1. rewrite with_data_data, fmap_app. simpl. by rewrite <- app_assoc. }
    { rewrite length_app. simpl. lia. }
    { lia. }
    rewrite (upd_comm (upd s p np1) q p) by done.
    rewrite !upd_upd.
    unfold np1, nq1, with_data. simpl.
    rewrite <- app_assoc. simpl.
    replace (j + S (length ws)) with (S (j + length ws)) by lia.
    reflexivity.
Qed.

End SplitLoop.

Section Splitting.

Context {T : Type}.
Variable NodeMaxSize : N.
Implicit Types (s : @state T) (n : @Node T) (p q : loc) (bs : list (loc * list T)).

Lemma create_node_spec s :
  create_node NodeMaxSize s
  = Ret (fresh (dom (mem s)))
        (upd s (fresh (dom (mem s)))
             (mkNode 0 None None (replicate (N.to_nat NodeMaxSize) Raw))).
Proof. reflexivity. Qed.

Lemma fresh_not_allocated s : mem s !! fresh (dom (mem s)) = None.
Proof. apply not_elem_of_dom. apply is_fresh. Qed.

Lemma holds_full n (vs : list T) :
  holds NodeMaxSize n vs → length vs = N.to_nat NodeMaxSize → data n = Live <$> vs.
Proof.
  intros (_ & Hlen & Htake) Hfull. rewrite <- Htake. symmetry. apply take_ge. lia.
Qed.

Lemma seg_last_in (m : gmap loc (@Node T)) pv cur bs pv' cur' :
  seg NodeMaxSize m pv cur bs pv' cur' → bs ≠ [] → ∃ p, pv' = Some p ∧ p ∈ bs.*1.
Proof.
  intros Hseg Hne. destruct (exists_last Hne) as (bs0 & [p vs] & ->).
  apply seg_app in Hseg as (mp & mc & _ & Hlast). simpl in Hlast.
  destruct Hlast as (_ & n & _ & _ & _ & _ & -> & _).
  exists p. split; [done|]. rewrite fmap_app. simpl. apply elem_of_app. right. left.
Qed.

(** The two halves of a full block of [NodeMaxSize >= 2] elements. *)
Lemma halves :
  (2 ≤ NodeMaxSize)%N →
  let h := N.to_nat (NodeMaxSize / 2) in
  let si := N.to_nat NodeMaxSize - h in
  1 ≤ h ∧ 1 ≤ si ∧ h + si = N.to_nat NodeMaxSize
  ∧ (NodeMaxSize - NodeMaxSize / 2)%N = N.of_nat si.
Proof.
  intros HN.
  assert (NodeMaxSize / 2 < NodeMaxSize)%N by (apply N.div_lt; lia).
  assert (1 ≤ NodeMaxSize / 2)%N by (apply N.div_le_lower_bound; lia).
  cbv zeta. lia.
Qed.

(** Splitting a full block: the front [NodeMaxSize - NodeMaxSize / 2]
    elements stay, the back [NodeMaxSize / 2] elements go to one new node
    linked right behind; the contents, [head] and [total_size] are
    unchanged. *)
Lemma split_repr s bs1 p vs bs2 :
  (2 ≤ NodeMaxSize)%N →
  repr NodeMaxSize s (bs1 ++ (p, vs) :: bs2) →
  length vs = N.to_nat NodeMaxSize →
  let q := fresh (dom (mem s)) in
  let si := N.to_nat NodeMaxSize - N.to_nat (NodeMaxSize / 2) in
  ∃ s', split_full_node NodeMaxSize p s = Ret q s'
        ∧ repr NodeMaxSize s' (bs1 ++ (p, take si vs) :: (q, drop si vs) :: bs2)
        ∧ dom (mem s') = {[q]} ∪ dom (mem s)
        ∧ q ∉ dom (mem s).
Proof.
  intros HN (Hchain & Hnd & Hsize & Hlt & NodeMaxSize_fits) Hfull q si.
  pose proof Hchain as Hc. apply seg_block in Hc as (np & Hp & Hh & Hne & Hseg1 & Hseg2).
  assert (Hq : mem s !! q = None) by apply fresh_not_allocated.
  assert (Hpq : p ≠ q) by congruence.
  pose (h := N.to_nat (NodeMaxSize / 2)).
  destruct (halves HN) as (Hh1 & Hsi1 & Hsum & HsiN). fold h si in Hh1, Hsi1, Hsum, HsiN.
  (* the nodes of the chain are allocated, hence different from [q] *)
  assert (Halloc : ∀ x, x ∈ (bs1 ++ (p, vs) :: bs2).*1 → x ≠ q).
  { intros x Hx ->. destruct (seg_allocated _ _ _ _ _ _ _ _ Hchain Hx) as [? Hsome].
    congruence. }
  assert (Hnp1 : p ∉ bs1.*1) by (by eapply NoDup_block_l).
  assert (Hnp2 : p ∉ bs2.*1) by (by eapply NoDup_block_r).
  (* run the code up to the fix-up of the successor *)
  unfold split_full_node.
  rewrite (bind_Ret _ _ _ _ _ (create_node_spec s)). fold q.
  unfold trip. rewrite N.sub_0_r. fold h.
  rewrite size_sub_small by lia.
  pose proof (split_loop p q si (drop si vs) 0 (Live <$> take si vs) [] si np
                (mkNode 0 None None (replicate (N.to_nat NodeMaxSize) Raw))
                (upd s q (mkNode 0 None None (replicate (N.to_nat NodeMaxSize) Raw)))
                Hpq) as Hloop.
  rewrite length_drop, Hfull in Hloop.
  replace (N.to_nat NodeMaxSize - si) with h in Hloop by lia.
  rewrite HsiN.
  rewrite (bind_Ret _ _ _ _ _ (Hloop ltac:(by rewrite upd_lookup_ne) ltac:(apply upd_lookup)
     ltac:(simpl; rewrite <- fmap_app, take_drop; by apply holds_full)
     ltac:(rewrite length_fmap, length_take; lia)
     ltac:(simpl; f_equal; lia) eq_refl ltac:(lia))).
  clear Hloop. cbn [app Nat.add].
  do 7 step.
  set (dp := (Live <$> take si vs) ++ replicate h Husk).
  set (dq := (Live <$> drop si vs) ++ replicate si Raw).
  set (np' := mkNode (N.of_nat si) (Some q) (prev np) dp).
  set (nq' := mkNode (NodeMaxSize / 2) (next np) (Some p) dq).
  assert (Hhp : holds NodeMaxSize np' (take si vs)).
  { unfold holds, np', dp. simpl. rewrite length_take.
    split; [f_equal; lia|]. split.
    - rewrite length_app, length_fmap, length_take, length_replicate. lia.
    - apply take_app_length'. rewrite length_fmap, length_take. lia. }
  assert (Hhq : holds NodeMaxSize nq' (drop si vs)).
  { unfold holds, nq', dq. simpl. rewrite length_drop.
    split; [lia|]. split.
    - rewrite length_app, length_fmap, length_drop, length_replicate. lia.
    - apply take_app_length'. rewrite length_fmap, length_drop. lia. }
  assert (Hnep : take si vs ≠ []).
  { intros Heq. apply (f_equal length) in Heq. rewrite length_take in Heq. simpl in Heq. lia. }
  assert (Hneq : drop si vs ≠ []).
  { intros Heq. apply (f_equal length) in Heq. rewrite length_drop in Heq. simpl in Heq. lia. }
  match goal with
  | |- ∃ s', bind _ _ ?st = _ ∧ _ =>
      replace st with (upd (upd s q nq') p np')
  end; cycle 1.
  { unfold upd, np', nq', with_data. cbn [mem obj count next prev data].
    f_equal. apply map_eq. intros x.
    destruct (decide (x = p)) as [-> |];
      [| destruct (decide (x = q)) as [-> |]];
      repeat (rewrite lookup_insert_eq || rewrite lookup_insert_ne by done);
      done. }
  assert (Hframe : ∀ bs, p ∉ bs.*1 → (∀ x, x ∈ bs.*1 → x ≠ q) →
            ∀ x, x ∈ bs.*1 → mem (upd (upd s q nq') p np') !! x = mem s !! x).
  { intros bs Hnotp Hnotq x Hx.
    rewrite !upd_lookup_ne; [done | | ].
    - intros ->. by apply (Hnotq x).
    - intros ->. by apply Hnotp. }
  assert (Hq1 : ∀ x, x ∈ bs1.*1 → x ≠ q).
  { intros x Hx. apply Halloc. rewrite fmap_app. apply elem_of_app. by left. }
  assert (Hq2 : ∀ x, x ∈ bs2.*1 → x ≠ q).
  { intros x Hx. apply Halloc. rewrite fmap_app, fmap_cons.
    apply elem_of_app. right. by right. }
  assert (Hnd' : NoDup (bs1 ++ (p, take si vs) :: (q, drop si vs) :: bs2).*1).
  { rewrite fmap_app, !fmap_cons in *. simpl in *.
    apply list.NoDup_app in Hnd as (Hnd1 & Hdisj & Hnd2).
    apply list.NoDup_cons in Hnd2 as (Hp2 & Hnd2).
    apply list.NoDup_app. split; [done|]. split.
    - intros x Hx Hin. apply elem_of_cons in Hin as [-> | Hin]; [by apply Hnp1|].
      apply elem_of_cons in Hin as [-> | Hin]; [by apply (Hq1 q)|].
      apply (Hdisj x Hx). by right.
    - apply list.NoDup_cons. split.
      + intros Hin. apply elem_of_cons in Hin as [? | Hin]; [done | by apply Hnp2].
      + apply list.NoDup_cons. split; [| done]. intros Hin. by apply (Hq2 q). }
  assert (Hcont : contents (bs1 ++ (p, take si vs) :: (q, drop si vs) :: bs2)
                  = contents (bs1 ++ (p, vs) :: bs2)).
  { rewrite !contents_app, !contents_cons. f_equal.
    by rewrite app_assoc, take_drop. }
  destruct bs2 as [| [r ws] bs3].
  - (* [p] was the tail: the new node becomes the tail *)
    destruct Hseg2 as [Htl Hnx]. rewrite <- Hnx.
    step. step. rewrite Htl, decide_True by done. step.
    eexists. split; [reflexivity|]. split; [| split].
    + unfold repr. cbn [mem obj head tail total_size upd].
      split; [| split; [done | split; [by rewrite Hcont | done]]].
      apply seg_block. exists np'. split; [apply lookup_insert_eq|].
      split; [done|]. split; [done|]. split.
      * eapply seg_frame; [| exact Hseg1]. apply (Hframe bs1 Hnp1 Hq1).
      * simpl. split; [done|]. exists nq'. split.
        { rewrite lookup_insert_ne by done. apply lookup_insert_eq. }
        split; [done|]. split; [done|]. split; [done|]. split; [done|].
        exact Hnx.
    + cbn [mem upd]. rewrite !dom_insert_L.
      apply subseteq_union_1_L, singleton_subseteq_l, elem_of_union. right.
      by apply elem_of_dom_2 in Hp.
    + by apply not_elem_of_dom.
  - (* [p] has a successor [r], whose [prev] link is redirected *)
    simpl in Hseg2. destruct Hseg2 as (Hnx & nr & Hr & Hrprev & Hhr & Hner & Hseg3).
    rewrite Hnx.
    assert (Hrp : r ≠ p).
    { intros ->. apply Hnp2. simpl. left. }
    assert (Hrq : r ≠ q) by (apply Hq2; simpl; left).
    assert (Hnr3 : r ∉ bs3.*1).
    { rewrite fmap_app, !fmap_cons in Hnd. simpl in Hnd.
      apply list.NoDup_app in Hnd as (_ & _ & Hnd2).
      apply list.NoDup_cons in Hnd2 as (_ & Hnd2).
      by apply list.NoDup_cons in Hnd2 as (? & _). }
    assert (Hnr1 : r ∉ bs1.*1).
    { rewrite fmap_app, !fmap_cons in Hnd. simpl in Hnd.
      apply list.NoDup_app in Hnd as (_ & Hdisj & _).
      intros Hin. apply (Hdisj r Hin). right. left. }
    assert (Htl : tail (obj s) ≠ Some p).
    { destruct (exists_last (l := (r, ws) :: bs3) ltac:(done)) as (bs0 & [t wt] & Hlast).
      assert (Hseg' : seg NodeMaxSize (mem s) (Some p) (Some r) ((r, ws) :: bs3) (tail (obj s)) None).
      { simpl. split; [done|]. exists nr. done. }
      destruct (seg_last_in _ _ _ _ _ _ Hseg' ltac:(done)) as (t' & Ht' & Hin).
      rewrite Ht'. intros [= ->]. by apply Hnp2. }
    erewrite bind_Ret; cycle 1.
    { apply set_prev_Some. by rewrite !upd_lookup_ne. }
    cbv beta. step. rewrite decide_False by (intros Heq; by apply Htl).
    step.
    set (nr' := mkNode (count nr) (next nr) (Some q) (data nr)).
    eexists. split; [reflexivity|]. split; [| split].
    + unfold repr. cbn [mem obj head tail total_size upd].
      split; [| split; [done | split; [by rewrite Hcont | done]]].
      apply seg_block. exists np'. split.
      { rewrite lookup_insert_ne by done. apply lookup_insert_eq. }
      split; [done|]. split; [done|]. split.
      * eapply seg_frame; [| exact Hseg1]. intros x Hx.
        rewrite lookup_insert_ne by (intros ->; by apply Hnr1).
        apply (Hframe bs1 Hnp1 Hq1 x Hx).
      * simpl. split; [done|]. exists nq'. split.
        { rewrite !lookup_insert_ne by done. apply lookup_insert_eq. }
        split; [done|]. split; [done|]. split; [done|].
        split; [done|]. exists nr'. split; [apply lookup_insert_eq|].
        split; [done|]. split; [done|]. split; [done|].
        eapply seg_frame; [| exact Hseg3]. intros x Hx.
        rewrite lookup_insert_ne by (intros ->; by apply Hnr3).
        apply (Hframe bs3); [| | done].
        { intros Hin. apply Hnp2. simpl. by right. }
        { intros y Hy. apply Hq2. simpl. by right. }
    + cbn [mem upd]. rewrite !dom_insert_L.
      apply elem_of_dom_2 in Hp. apply elem_of_dom_2 in Hr.
      rewrite (subseteq_union_1_L {[r]}).
      * apply subseteq_union_1_L, singleton_subseteq_l, elem_of_union. by right.
      * apply singleton_subseteq_l, elem_of_union. right.
        apply elem_of_union. by right.
    + by apply not_elem_of_dom.
Qed.

End Splitting.

(** ** Insertion preserves the invariant *)

Section Insertion.

Context {T : Type}.
Variable NodeMaxSize : N.
Implicit Types (s : @state T) (n : @Node T) (p q : loc) (bs : list (loc * list T)).
Implicit Types (vs : list T).

Lemma lookup_inserted vs (i : nat) (v : T) :
  i ≤ length vs → (take i vs ++ v :: drop i vs) !! i = Some v.
Proof.
  intros Hi. apply list_lookup_middle. rewrite length_take. lia.
Qed.

Lemma insert_back_half vs (si i : nat) (v : T) :
  si ≤ i →
  take si vs ++ take (i - si) (drop si vs) ++ v :: drop (i - si) (drop si vs)
  = take i vs ++ v :: drop i vs.
Proof.
  intros Hle. rewrite drop_drop. replace (si + (i - si)) with i by lia.
  rewrite app_assoc. f_equal.
  rewrite take_take_drop. f_equal. lia.
Qed.

Lemma insert_front_half vs (si i : nat) (v : T) :
  i ≤ si →
  (take i (take si vs) ++ v :: drop i (take si vs)) ++ drop si vs
  = take i vs ++ v :: drop i vs.
Proof.
  intros Hle. rewrite take_take. replace (i `min` si) with i by lia.
  rewrite <- app_assoc. f_equal. simpl. f_equal.
  rewrite <- (take_drop si vs) at 3.
  destruct (decide (si ≤ length vs)) as [Hsi | Hsi].
  - rewrite drop_app_le by (rewrite length_take; lia). done.
  - rewrite !(take_ge vs si) by lia. rewrite (drop_ge vs si) by lia.
    by rewrite !app_nil_r.
Qed.

Lemma contents_nil : @contents T [] = [].
Proof. reflexivity. Qed.

Lemma deref_block s bs1 p vs bs2 (i : nat) (v : T) :
  repr NodeMaxSize s (bs1 ++ (p, vs) :: bs2) → vs !! i = Some v →
  iter_deref (Iter (Some p) (N.of_nat i)) s = Ret v s.
Proof.
  intros (Hchain & _) Hv. apply seg_block in Hchain as (n & Hp & Hh & _).
  eapply iter_deref_holds; eauto.
Qed.

(** Reading through a valid iterator gives the element at its index. *)
Lemma deref_position s bs it (k : nat) (v : T) :
  repr NodeMaxSize s bs → position bs it k → contents bs !! k = Some v →
  iter_deref it s = Ret v s.
Proof.
  intros Hrepr Hpos Hv. destruct Hpos as [| bs1 p vs bs2 i -> Hi].
  - apply lookup_lt_Some in Hv. lia.
  - eapply deref_block; [exact Hrepr|].
    rewrite contents_block, lookup_app_r in Hv by lia.
    rewrite lookup_app_l in Hv by lia.
    rewrite <- Hv. f_equal. lia.
Qed.

(** Nodes outside the chain: a fresh node that joins the chain, a node that
    leaves it and is freed, and a block whose elements change. *)
Lemma outside_join (D K : gset loc) q :
  q ∉ D → ({[q]} ∪ D) ∖ ({[q]} ∪ K) = D ∖ K.
Proof.
  intros Hq. apply set_eq. intros x.
  rewrite !elem_of_difference, !elem_of_union, !elem_of_singleton.
  split.
  - intros [[-> | Hx] Hn]; [exfalso; apply Hn; by left | split; [done | tauto]].
  - intros [Hx Hn]. split; [by right|]. intros [-> | HK]; [done | by apply Hn].
Qed.

Lemma outside_split (D K : gset loc) p q :
  q ∉ D → ({[q]} ∪ D) ∖ ({[p]} ∪ ({[q]} ∪ K)) = D ∖ ({[p]} ∪ K).
Proof.
  intros Hq. apply set_eq. intros x.
  rewrite !elem_of_difference, !elem_of_union, !elem_of_singleton.
  split.
  - intros [[-> | Hx] Hn]; [exfalso; apply Hn; right; by left | split; [done | tauto]].
  - intros [Hx Hn]. split; [by right|].
    intros [-> | [-> | HK]]; [apply Hn; by left | done | apply Hn; by right].
Qed.

Lemma outside_leave (D K : gset loc) q :
  q ∉ K → (D ∖ {[q]}) ∖ K = D ∖ ({[q]} ∪ K).
Proof.
  intros Hq. apply set_eq. intros x.
  rewrite !elem_of_difference, !elem_of_union, !elem_of_singleton. tauto.
Qed.

Lemma keys_block bs1 p vs bs2 :
  list_to_set (C := gset loc) (bs1 ++ (p, vs) :: bs2).*1
  = {[p]} ∪ list_to_set (bs1 ++ bs2).*1.
Proof.
  rewrite !fmap_app, fmap_cons, !list_to_set_app_L, list_to_set_cons. simpl.
  rewrite !(union_assoc_L _ _ _). f_equal. apply union_comm_L.
Qed.

Lemma outside_block s s' bs1 p vs vs' bs2 :
  dom (mem s') = dom (mem s) →
  outside s' (bs1 ++ (p, vs') :: bs2) = outside s (bs1 ++ (p, vs) :: bs2).
Proof. intros Hdom. unfold outside. by rewrite Hdom, (fst_block bs1 p vs). Qed.

(** [emplace_into_node_] on a block of a well-formed chain, at an index
    [i <= count]. *)
Lemma emplace_into_node_at s bs1 p vs bs2 (i : nat) (v : T) :
  (2 ≤ NodeMaxSize)%N →
  repr NodeMaxSize s (bs1 ++ (p, vs) :: bs2) →
  i ≤ length vs →
  (total_size (obj s) + 1 < SIZE_MOD)%N →
  ∃ it s' bs',
    emplace_into_node_ NodeMaxSize p (N.of_nat i) (Yields v) s = Ret it s'
    ∧ repr NodeMaxSize s' bs'
    ∧ contents bs' = contents bs1 ++ take i vs ++ v :: drop i vs ++ contents bs2
    ∧ position bs' it (length (contents bs1) + i)
    ∧ length bs' ≤ S (length (bs1 ++ (p, vs) :: bs2))
    ∧ dom (mem s') ⊆ {[fresh (dom (mem s))]} ∪ dom (mem s)
    ∧ outside s' bs' = outside s (bs1 ++ (p, vs) :: bs2).
Proof.
  intros NodeMaxSize_ge_2 Hrepr Hi Htot.
  pose proof Hrepr as (Hchain & Hnd & Hsize & Hlt & NodeMaxSize_fits).
  pose proof Hchain as Hc. apply seg_block in Hc as (np & Hp & Hh & Hne & _).
  pose proof (holds_length _ _ _ Hh) as Hle.
  pose proof Hh as (Hcnt & _ & _).
  unfold emplace_into_node_.
  rewrite (bind_Ret _ _ _ _ _ (get_node_Some _ _ _ Hp)).
  destruct (decide (count np = NodeMaxSize)) as [Hfull | Hroom].
  - (* full node: split first *)
    assert (Hlen : length vs = N.to_nat NodeMaxSize) by lia.
    destruct (split_repr NodeMaxSize s bs1 p vs bs2
                NodeMaxSize_ge_2 Hrepr Hlen) as (s1 & Hsplit & Hrepr1 & Hdom1 & Hfresh).
    destruct (halves NodeMaxSize NodeMaxSize_ge_2) as (Hh1 & Hsi1 & Hsum & HsiN).
    set (q := fresh (dom (mem s))) in *.
    set (si := N.to_nat NodeMaxSize - N.to_nat (NodeMaxSize / 2)) in *.
    assert (Htot1 : (total_size (obj s1) + 1 < SIZE_MOD)%N).
    { destruct Hrepr1 as (_ & _ & Hsz1 & _). rewrite Hsz1.
      rewrite !contents_block, contents_cons in *.
      rewrite Hsize in Htot. rewrite !length_app in *.
      rewrite length_take, length_drop. lia. }
    rewrite bind_assoc. rewrite (bind_Ret _ _ _ _ _ Hsplit).
    pose proof Hrepr1 as (Hchain1 & _).
    pose proof Hchain1 as Hc1. apply seg_block in Hc1 as (np1 & Hp1 & Hhp1 & _).
    rewrite bind_assoc. rewrite (bind_Ret _ _ _ _ _ (get_node_Some _ _ _ Hp1)).
    destruct Hhp1 as (Hcnt1 & _). rewrite Hcnt1, length_take.
    replace (si `min` length vs) with si by lia.
    destruct (N.ltb_spec (N.of_nat si) (N.of_nat i)) as [Hgt | Hle'].
    + (* the position lies in the back half, now in the new node *)
      rewrite (bind_Ret _ _ _ (q, size_sub (N.of_nat i) (N.of_nat si)) s1) by reflexivity.
      cbn [fst snd]. rewrite size_sub_small by lia.
      replace (N.of_nat i - N.of_nat si)%N with (N.of_nat (i - si)) by lia.
      replace (bs1 ++ (p, take si vs) :: (q, drop si vs) :: bs2)
        with ((bs1 ++ [(p, take si vs)]) ++ (q, drop si vs) :: bs2) in Hrepr1
        by (by rewrite <- app_assoc).
      destruct (place_repr NodeMaxSize s1 _ q (drop si vs) bs2
                  (i - si) v Hrepr1) as (s' & Hplace & Hrepr' & Hdom');
        [rewrite length_drop; lia | rewrite length_drop; lia | done |].
      eexists _, s', _. split; [exact Hplace|]. split; [exact Hrepr'|].
      split; [| split; [| split; [| split]]].
      * transitivity (contents bs1 ++ (take i vs ++ v :: drop i vs) ++ contents bs2);
          [| by rewrite <- app_assoc].
        rewrite <- (insert_back_half vs si i v) by lia.
        rewrite !contents_app, !contents_cons, contents_nil, app_nil_r.
        by rewrite <- !app_assoc.
      * replace (length (contents bs1) + i)
          with (length (contents (bs1 ++ [(p, take si vs)])) + (i - si)).
        -- eapply position_at; [reflexivity|].
           rewrite length_app, length_take, length_drop. simpl. lia.
        -- rewrite contents_snoc, length_app, length_take. lia.
      * repeat (rewrite length_app || simpl). lia.
      * rewrite Hdom', Hdom1. done.
      * unfold outside. rewrite Hdom', Hdom1. rewrite <- app_assoc. simpl.
        rewrite (keys_block bs1 p (take si vs)), (keys_block bs1 p vs).
        rewrite (keys_block bs1 q).
        apply outside_split. exact Hfresh.
    + (* the position lies in the front half, which stays in the node *)
      rewrite (bind_Ret _ _ _ (p, N.of_nat i) s1) by reflexivity.
      cbn [fst snd].
      destruct (place_repr NodeMaxSize s1 bs1 p (take si vs) _
                  i v Hrepr1) as (s' & Hplace & Hrepr' & Hdom');
        [rewrite length_take; lia | rewrite length_take; lia | done |].
      eexists _, s', _. split; [exact Hplace|]. split; [exact Hrepr'|].
      split; [| split; [| split; [| split]]].
      * transitivity (contents bs1 ++ (take i vs ++ v :: drop i vs) ++ contents bs2);
          [| by rewrite <- app_assoc].
        rewrite <- (insert_front_half vs si i v) by lia.
        rewrite !contents_app, !contents_cons.
        by rewrite <- !app_assoc.
      * eapply position_at; [reflexivity|].
        rewrite length_app, !length_take. simpl. lia.
      * repeat (rewrite length_app || simpl). lia.
      * rewrite Hdom', Hdom1. done.
      * unfold outside. rewrite Hdom', Hdom1.
        rewrite (keys_block bs1 p _ ((q, drop si vs) :: bs2)), (keys_block bs1 p vs).
        rewrite (keys_block bs1 q).
        apply outside_split. exact Hfresh.
  - (* room left in the node *)
    rewrite (bind_Ret _ _ _ (p, N.of_nat i) s) by reflexivity.
    cbn [fst snd].
    destruct (place_repr NodeMaxSize s bs1 p vs bs2 i v Hrepr)
      as (s' & Hplace & Hrepr' & Hdom'); [lia | done | done |].
    eexists _, s', _. split; [exact Hplace|]. split; [exact Hrepr'|].
    split; [| split; [| split; [| split]]].
    + rewrite contents_block. by rewrite <- !app_assoc.
    + eapply position_at; [reflexivity|].
      rewrite length_app, length_take. simpl. lia.
    + repeat (rewrite length_app || simpl). lia.
    + rewrite Hdom'. apply union_subseteq_r.
    + by apply outside_block.
Qed.

Lemma emplace_into_node_repr s bs1 p vs bs2 (i : nat) (v : T) :
  (2 ≤ NodeMaxSize)%N →
  repr NodeMaxSize s (bs1 ++ (p, vs) :: bs2) →
  i ≤ length vs →
  (total_size (obj s) + 1 < SIZE_MOD)%N →
  ∃ it s' bs',
    emplace_into_node_ NodeMaxSize p (N.of_nat i) (Yields v) s = Ret it s'
    ∧ repr NodeMaxSize s' bs'
    ∧ contents bs' = contents bs1 ++ take i vs ++ v :: drop i vs ++ contents bs2
    ∧ iter_deref it s' = Ret v s'
    ∧ length bs' ≤ S (length (bs1 ++ (p, vs) :: bs2))
    ∧ dom (mem s') ⊆ {[fresh (dom (mem s))]} ∪ dom (mem s).
Proof.
  intros HN Hrepr Hi Htot.
  destruct (emplace_into_node_at s bs1 p vs bs2 i v HN Hrepr Hi Htot)
    as (it & s' & bs' & Hrun & Hrepr' & Hcont & Hpos & Hlen & Hdom & _).
  exists it, s', bs'. split; [done|]. split; [done|]. split; [done|].
  split; [| done].
  eapply deref_position; [exact Hrepr' | exact Hpos |].
  rewrite Hcont, lookup_app_r by lia.
  replace (length (contents bs1) + i - length (contents bs1)) with i by lia.
  apply list_lookup_middle. rewrite length_take. lia.
Qed.

(** The first insertion into an empty container. *)
Lemma emplace_first s (v : T) :
  (2 ≤ NodeMaxSize)%N →
  repr NodeMaxSize s [] →
  ∃ s', emplace NodeMaxSize (Iter None 0) (Yields v) s
        = Ret (Iter (Some (fresh (dom (mem s)))) 0) s'
        ∧ repr NodeMaxSize s' [(fresh (dom (mem s)), [v])]
        ∧ dom (mem s') = {[fresh (dom (mem s))]} ∪ dom (mem s).
Proof.
  intros HN ((Htl & Hhd) & _ & Hsize & _ & Hfits). simpl in Hsize.
  set (p := fresh (dom (mem s))).
  set (n0 := mkNode 0 None None (replicate (N.to_nat NodeMaxSize) (@Raw T))).
  set (s1 := mkState (<[p := n0]> (mem s)) (mkList (Some p) (Some p) (total_size (obj s)))).
  assert (Hp1 : mem s1 !! p = Some n0) by apply lookup_insert_eq.
  assert (Hh0 : holds NodeMaxSize n0 []).
  { unfold holds, n0. simpl. by rewrite length_replicate. }
  destruct (place_Yields NodeMaxSize Hfits s1 p n0 [] 0 v Hp1 Hh0)
    as (n' & Hplace & Hh' & Hnx & Hpv); [simpl; lia | done | simpl; lia |].
  eexists. split; [| split].
  - unfold emplace.
    rewrite (bind_Ret _ _ s (obj s) s) by reflexivity. rewrite <- Hhd.
    rewrite bind_assoc, (bind_Ret _ _ _ _ _ (create_node_spec NodeMaxSize s)).
    fold p n0.
    rewrite (bind_Ret _ _ _ () s1) by reflexivity.
    cbn [current_node].
    rewrite (bind_Ret _ _ s1 (obj s1) s1) by reflexivity.
    rewrite (bind_Ret _ _ s1 p s1) by reflexivity.
    rewrite (bind_Ret _ _ _ _ _ (get_node_Some _ _ _ Hp1)).
    unfold emplace_into_node_.
    rewrite (bind_Ret _ _ _ _ _ (get_node_Some _ _ _ Hp1)).
    rewrite decide_False by (simpl; lia).
    rewrite (bind_Ret _ _ s1 (p, 0%N) s1) by reflexivity.
    exact Hplace.
  - unfold repr, chain. simpl. split; [| split; [| split; [| split]]].
    + split; [done|]. exists n'. split; [apply lookup_insert_eq|].
      split; [by rewrite Hpv|]. split; [done|]. split; [done|].
      split; [done|]. by rewrite Hnx.
    + apply NoDup_singleton.
    + rewrite Hsize. reflexivity.
    + rewrite Hsize. unfold SIZE_MOD. lia.
    + done.
  - simpl. rewrite insert_insert_eq. apply dom_insert_L.
Qed.

Lemma seg_head_Some (m : gmap loc (@Node T)) pv cur b bs pv' cur' :
  seg NodeMaxSize m pv cur (b :: bs) pv' cur' → cur = Some b.1.
Proof. destruct b as [p vs]. simpl. by intros [-> _]. Qed.

Lemma take_drop_insert (c1 vs c2 : list T) (i : nat) (v : T) :
  i ≤ length vs →
  take (length c1 + i) (c1 ++ vs ++ c2) ++ v :: drop (length c1 + i) (c1 ++ vs ++ c2)
  = c1 ++ take i vs ++ v :: drop i vs ++ c2.
Proof.
  intros Hi. rewrite take_app_add, drop_app_add, <- app_assoc. f_equal.
  rewrite take_app_le, drop_app_le by lia. reflexivity.
Qed.

Lemma position_le bs it k : position bs it k → k ≤ length (contents bs).
Proof.
  intros [| bs1 p vs bs2 i -> Hi]; [done|].
  rewrite contents_block, !length_app. lia.
Qed.

(** [emplace] at a valid position of a well-formed container, with a
    constructor that succeeds and [NodeMaxSize >= 2]. *)
Lemma emplace_at s bs (pos : iterator) (k : nat) (v : T) :
  (2 ≤ NodeMaxSize)%N →
  repr NodeMaxSize s bs →
  position bs pos k →
  (total_size (obj s) + 1 < SIZE_MOD)%N →
  ∃ it s' bs',
    emplace NodeMaxSize pos (Yields v) s = Ret it s'
    ∧ repr NodeMaxSize s' bs'
    ∧ contents bs' = take k (contents bs) ++ v :: drop k (contents bs)
    ∧ position bs' it k
    ∧ length bs' ≤ S (length bs)
    ∧ dom (mem s') ⊆ {[fresh (dom (mem s))]} ∪ dom (mem s)
    ∧ outside s' bs' = outside s bs.
Proof.
  intros HN Hrepr Hpos Htot.
  destruct Hpos as [| bs1 p vs bs2 i Hbs Hi].
  - (* at [end()] *)
    destruct bs as [| b bs0 _] using rev_ind.
    + destruct (emplace_first s v HN Hrepr) as (s' & Hrun & Hrepr' & Hdom).
      eexists _, s', _. split; [exact Hrun|]. split; [exact Hrepr'|].
      split; [done|]. split; [| split; [| split]].
      * apply (position_at [(fresh (dom (mem s)), [v])] [] _ [v] [] 0 eq_refl).
        simpl. lia.
      * simpl. lia.
      * by rewrite Hdom.
      * unfold outside. rewrite Hdom. simpl.
        apply outside_join, is_fresh.
    + destruct b as [t vs].
      pose proof Hrepr as (Hchain & _).
      pose proof Hchain as Hc. apply chain_last in Hc as (Htl & n & Ht & Hh & _).
      assert (Hhd : ∃ h, head (obj s) = Some h).
      { destruct (bs0 ++ [(t, vs)]) as [| b' bs'] eqn:Heq.
        - by destruct bs0.
        - eexists. eapply seg_head_Some. exact Hchain. }
      destruct Hhd as [h Hhd].
      destruct (emplace_into_node_at s bs0 t vs [] (length vs) v HN Hrepr)
        as (it & s' & bs' & Hrun & Hrepr' & Hcont & Hpos & Hlen & Hdom & Hout);
        [done | done |].
      exists it, s', bs'. split.
      { unfold emplace.
        rewrite (bind_Ret _ _ s (obj s) s) by reflexivity. rewrite Hhd.
        rewrite (bind_Ret _ _ s () s) by reflexivity.
        cbn [current_node].
        rewrite (bind_Ret _ _ s (obj s) s) by reflexivity. rewrite Htl.
        rewrite (bind_Ret _ _ s t s) by reflexivity.
        rewrite (bind_Ret _ _ _ _ _ (get_node_Some _ _ _ Ht)).
        destruct Hh as (-> & _). exact Hrun. }
      assert (Hc' : contents bs' = take (length (contents (bs0 ++ [(t, vs)])))
                                     (contents (bs0 ++ [(t, vs)]))
                                   ++ v :: drop (length (contents (bs0 ++ [(t, vs)])))
                                             (contents (bs0 ++ [(t, vs)]))).
      { rewrite Hcont, take_ge, drop_ge by done.
        rewrite take_ge, drop_ge by done.
        rewrite contents_snoc, contents_nil, app_nil_r. by rewrite <- app_assoc. }
      split; [done|]. split; [done|]. split; [| done].
      by rewrite contents_snoc, length_app.
  - (* at an element *)
    subst bs.
    pose proof Hrepr as (Hchain & _).
    assert (Hhd : ∃ h, head (obj s) = Some h).
    { destruct (bs1 ++ (p, vs) :: bs2) as [| b' bs'] eqn:Heq.
      - by destruct bs1.
      - eexists. eapply seg_head_Some. exact Hchain. }
    destruct Hhd as [h Hhd].
    destruct (emplace_into_node_at s bs1 p vs bs2 i v HN Hrepr)
      as (it & s' & bs' & Hrun & Hrepr' & Hcont & Hpos & Hlen & Hdom & Hout);
      [lia | done |].
    exists it, s', bs'. split.
    { unfold emplace.
      rewrite (bind_Ret _ _ s (obj s) s) by reflexivity. rewrite Hhd.
      rewrite (bind_Ret _ _ s () s) by reflexivity.
      exact Hrun. }
    assert (Hc' : contents bs'
                  = take (length (contents bs1) + i) (contents (bs1 ++ (p, vs) :: bs2))
                    ++ v :: drop (length (contents bs1) + i)
                              (contents (bs1 ++ (p, vs) :: bs2))).
    { rewrite Hcont, contents_block. symmetry. apply take_drop_insert. lia. }
    done.
Qed.

(** [emplace] at a valid position of a well-formed container, with a
    constructor that succeeds and [NodeMaxSize >= 2]: the call returns, the
    container is well formed again, its sequence is the old one with the new
    element inserted at the position, the returned iterator denotes the new
    element, [size()] grew by one, and at most one node (at the address the
    allocator hands out next) was added. *)
Theorem emplace_repr s bs (pos : iterator) (k : nat) (v : T) :
  (2 ≤ NodeMaxSize)%N →
  repr NodeMaxSize s bs →
  position bs pos k →
  (total_size (obj s) + 1 < SIZE_MOD)%N →
  ∃ it s' bs',
    emplace NodeMaxSize pos (Yields v) s = Ret it s'
    ∧ repr NodeMaxSize s' bs'
    ∧ contents bs' = take k (contents bs) ++ v :: drop k (contents bs)
    ∧ iter_deref it s' = Ret v s'
    ∧ total_size (obj s') = (total_size (obj s) + 1)%N
    ∧ length bs' ≤ S (length bs)
    ∧ dom (mem s') ⊆ {[fresh (dom (mem s))]} ∪ dom (mem s).
Proof.
  intros HN Hrepr Hpos Htot.
  pose proof (position_le _ _ _ Hpos) as Hk.
  destruct (emplace_at s bs pos k v HN Hrepr Hpos Htot)
    as (it & s' & bs' & Hrun & Hrepr' & Hcont & Hpos' & Hlen & Hdom & _).
  exists it, s', bs'. split; [done|]. split; [done|]. split; [done|].
  split; [| split; [| done]].
  - eapply deref_position; [exact Hrepr' | exact Hpos' |].
    rewrite Hcont. apply list_lookup_middle. rewrite length_take. lia.
  - destruct Hrepr' as (_ & _ & Hs' & _). destruct Hrepr as (_ & _ & Hs & _).
    rewrite Hs', Hs, Hcont, length_app. simpl. rewrite length_take, length_drop. lia.
Qed.

End Insertion.

(** ** What a throwing constructor leaves behind *)

Section ThrowingConstructor.

Context {T : Type}.
Variable NodeMaxSize : N.
Implicit Types (s : @state T) (n : @Node T) (p q : loc) (bs : list (loc * list T)).
Implicit Types (vs : list T).

Lemma repr_head_Some s b bs :
  repr NodeMaxSize s (b :: bs) → head (obj s) = Some b.1.
Proof. intros (Hchain & _). by eapply seg_head_Some. Qed.

(** Inserting before an element of a node that has room: the elements from
    the position on are shifted up before the constructor runs, so after the
    exception the cell at the position is raw storage although it lies below
    [count]; reading the position, which returned an element before the
    call, is undefined behaviour afterwards. *)
Lemma emplace_Throws_before_element s bs1 p vs bs2 (i : nat) :
  repr NodeMaxSize s (bs1 ++ (p, vs) :: bs2) →
  length vs < N.to_nat NodeMaxSize →
  i < length vs →
  ∃ s' w, emplace NodeMaxSize (Iter (Some p) (N.of_nat i)) Throws s
          = Raise construction_failed s'
          ∧ obj s' = obj s
          ∧ iter_deref (Iter (Some p) (N.of_nat i)) s = Ret w s
          ∧ iter_deref (Iter (Some p) (N.of_nat i)) s' = Undefined.
Proof.
  intros Hrepr Hroom Hi.
  pose proof Hrepr as (Hchain & _ & _ & _ & Hfits).
  pose proof Hchain as Hc. apply seg_block in Hc as (n & Hp & Hh & Hne & _).
  pose proof Hh as (Hcnt & Hlen & _).
  destruct (holds_decompose NodeMaxSize n vs i Hh Hroom ltac:(lia)) as (x & post & Hd & _).
  destruct (lookup_lt_is_Some_2 vs i Hi) as [w Hw].
  assert (Hhd : ∃ h, head (obj s) = Some h).
  { destruct (bs1 ++ (p, vs) :: bs2) as [| b bs] eqn:Heq; [by destruct bs1|].
    eexists. by eapply repr_head_Some. }
  destruct Hhd as [h Hhd].
  eexists _, w. split; [| split; [| split]].
  - unfold emplace.
    rewrite (bind_Ret _ _ s (obj s) s) by reflexivity. rewrite Hhd.
    rewrite (bind_Ret _ _ s () s) by reflexivity.
    cbn [current_node index_in_node]. unfold emplace_into_node_.
    rewrite (bind_Ret _ _ _ _ _ (get_node_Some _ _ _ Hp)).
    rewrite decide_False by lia.
    rewrite (bind_Ret _ _ s (p, N.of_nat i) s) by reflexivity.
    cbn [fst snd].
    apply (place_Throws s p n vs i x post Hp Hcnt); [lia | lia | done].
  - reflexivity.
  - eapply deref_block; eauto.
  - unfold iter_deref. cbn [current_node index_in_node].
    rewrite (bind_Ret _ _ _ p _) by reflexivity.
    unfold read_elem, get_slot.
    rewrite bind_assoc, (bind_Ret _ _ _ _ _ (get_node_Some _ _ _ (upd_lookup _ _ _))).
    rewrite with_data_data, Nat2N.id.
    replace i with (length (Live <$> take i vs : list slot)) at 1
      by (rewrite length_fmap, length_take; lia).
    rewrite lookup_at_length.
    destruct (drop i vs) eqn:Hdrop; [| reflexivity].
    apply (f_equal length) in Hdrop. rewrite length_drop in Hdrop. simpl in Hdrop. lia.
Qed.

(** Appending to a tail node that has room: nothing is shifted, and the
    exception leaves the state exactly as it was. *)
Lemma emplace_back_Throws_room s bs t vs :
  repr NodeMaxSize s (bs ++ [(t, vs)]) →
  length vs < N.to_nat NodeMaxSize →
  emplace_back NodeMaxSize Throws s = Raise construction_failed s.
Proof.
  intros Hrepr Hroom.
  pose proof Hrepr as (Hchain & _ & _ & _ & Hfits).
  pose proof Hchain as Hc. apply chain_last in Hc as (Htl & n & Ht & Hh & _).
  pose proof Hh as (Hcnt & Hlen & _).
  destruct (holds_decompose NodeMaxSize n vs (length vs) Hh Hroom ltac:(lia))
    as (x & post & Hd & _).
  assert (Hhd : ∃ h, head (obj s) = Some h).
  { destruct (bs ++ [(t, vs)]) as [| b bs'] eqn:Heq; [by destruct bs|].
    eexists. by eapply repr_head_Some. }
  destruct Hhd as [h Hhd].
  unfold emplace_back, end_.
  rewrite (bind_Ret _ _ s (Iter None 0) s) by reflexivity.
  apply bind_Raise. unfold emplace.
  rewrite (bind_Ret _ _ s (obj s) s) by reflexivity. rewrite Hhd.
  rewrite (bind_Ret _ _ s () s) by reflexivity.
  cbn [current_node].
  rewrite (bind_Ret _ _ s (obj s) s) by reflexivity. rewrite Htl.
  rewrite (bind_Ret _ _ s t s) by reflexivity.
  rewrite (bind_Ret _ _ _ _ _ (get_node_Some _ _ _ Ht)).
  unfold emplace_into_node_.
  rewrite (bind_Ret _ _ _ _ _ (get_node_Some _ _ _ Ht)).
  rewrite decide_False by lia.
  rewrite (bind_Ret _ _ s (t, count n) s) by reflexivity.
  cbn [fst snd]. rewrite Hcnt.
  rewrite (place_Throws s t n vs (length vs) x post Ht Hcnt); [| lia | lia | done].
  rewrite drop_ge in * by lia. cbn [gap fmap list_fmap app] in *.
  rewrite <- Hd, with_data_id, upd_id by done. reflexivity.
Qed.

End ThrowingConstructor.
(** ** [push_back] and [push_front] *)

Section Push.

Context {T : Type}.
Variable NodeMaxSize : N.
Implicit Types (s : @state T) (bs : list (loc * list T)).

(** [begin()] denotes the first element, or is [end()] in an empty
    container. *)
Lemma begin_position s bs :
  repr NodeMaxSize s bs → ∃ b, begin_ s = Ret b s ∧ position bs b 0.
Proof.
  intros (Hchain & _). unfold begin_, bind, get_obj, ret.
  destruct bs as [| [p vs] bs].
  - destruct Hchain as [_ <-]. eexists. split; [done|].
    apply (position_end []).
  - destruct Hchain as (-> & n & _ & _ & _ & Hne & _).
    eexists. split; [done|].
    apply (position_at ((p, vs) :: bs) [] p vs bs 0 eq_refl).
    destruct vs; [done | simpl; lia].
Qed.

Theorem push_back_repr s bs (v : T) :
  (2 ≤ NodeMaxSize)%N →
  repr NodeMaxSize s bs →
  (total_size (obj s) + 1 < SIZE_MOD)%N →
  ∃ s' bs', push_back NodeMaxSize v s = Ret () s'
            ∧ repr NodeMaxSize s' bs'
            ∧ contents bs' = contents bs ++ [v].
Proof.
  intros HN Hrepr Htot.
  destruct (emplace_repr NodeMaxSize s bs (Iter None 0) _ v HN Hrepr
              (position_end bs) Htot) as (it & s' & bs' & Hrun & Hrepr' & Hcont & _).
  exists s', bs'. split; [| split; [done|]].
  - unfold push_back, emplace_back, end_.
    unfold bind at 1. unfold ret at 1.
    by rewrite (bind_Ret _ _ _ _ _ Hrun).
  - by rewrite Hcont, firstn_all, drop_all.
Qed.

Theorem push_front_repr s bs (v : T) :
  (2 ≤ NodeMaxSize)%N →
  repr NodeMaxSize s bs →
  (total_size (obj s) + 1 < SIZE_MOD)%N →
  ∃ s' bs', push_front NodeMaxSize v s = Ret () s'
            ∧ repr NodeMaxSize s' bs'
            ∧ contents bs' = v :: contents bs.
Proof.
  intros HN Hrepr Htot.
  destruct (begin_position s bs Hrepr) as (b & Hb & Hpos).
  destruct (emplace_repr NodeMaxSize s bs b 0 v HN Hrepr Hpos Htot)
    as (it & s' & bs' & Hrun & Hrepr' & Hcont & _).
  exists s', bs'. split; [| split; [done|]].
  - unfold push_front. rewrite (bind_Ret _ _ _ _ _ Hb).
    by rewrite (bind_Ret _ _ _ _ _ Hrun).
  - by rewrite Hcont, take_0, drop_0.
Qed.

End Push.

(** ** The loops of [erase] and the removal of a node *)

Section ErasePrimitives.

Context {T : Type}.
Implicit Types (s : @state T) (n : @Node T) (p q : loc).

(** [for (i = from; i < to; ++i) destroy(elem(i))] turns the cells of the
    range into raw storage. *)
Lemma destroy_loop p (cells : list (@slot T)) : ∀ (A B : list slot) n s,
  mem s !! p = Some n →
  data n = A ++ cells ++ B →
  (N.of_nat (length A + length cells) < SIZE_MOD)%N →
  for_up (N.of_nat (length A)) (length cells) (λ i, destroy p i) s
  = Ret () (upd s p (with_data n (A ++ replicate (length cells) Raw ++ B))).
Proof.
  induction cells as [| c cells IH]; intros A B n s Hp Hd Hlt.
  - simpl in *. rewrite <- Hd, with_data_id, upd_id by done. reflexivity.
  - cbn [length for_up] in *. unfold destroy at 1.
    assert (Hside : N.to_nat (N.of_nat (length A)) < length (data n)).
    { rewrite Hd, length_app. simpl. lia. }
    rewrite (bind_Ret _ _ _ _ _ (set_slot_Some s p n _ Raw Hp Hside)).
    rewrite Nat2N.id, Hd, <- app_comm_cons, insert_at_length.
    rewrite size_add_small by lia.
    replace (N.of_nat (length A) + 1)%N with (N.of_nat (length (A ++ [Raw])))
      by (rewrite length_app; simpl; lia).
    rewrite (IH (A ++ [Raw]) B _ _ (upd_lookup _ _ _)); cycle 1.
    { rewrite with_data_data, <- app_assoc. reflexivity. }
    { rewrite length_app. simpl. lia. }
    rewrite upd_upd. unfold with_data. simpl.
    rewrite <- app_assoc. reflexivity.
Qed.

(** The loop of [normalize_node] closes a gap of [g >= 1] raw cells: the
    elements behind the gap move down by [g] cells and the gap ends up
    behind them. *)
Lemma normalize_loop p (g : nat) (ws : list T) : ∀ (A B : list slot) n s,
  1 ≤ g →
  mem s !! p = Some n →
  data n = A ++ replicate g Raw ++ (Live <$> ws) ++ B →
  (N.of_nat (length A + g + length ws) < SIZE_MOD)%N →
  for_up (N.of_nat (length A + g)) (length ws)
    (λ i, v <- move_from p i ;;
          construct p (size_sub i (N.of_nat g)) v ;;;
          destroy p i) s
  = Ret () (upd s p (with_data n (A ++ (Live <$> ws) ++ replicate g Raw ++ B))).
Proof.
  induction ws as [| w ws IH]; intros A B n s Hg Hp Hd Hlt.
  - simpl in *. rewrite <- Hd, with_data_id, upd_id by done. reflexivity.
  - cbn [length for_up fmap list_fmap] in *.
    destruct g as [| g']; [lia|].
    (* the element to move sits right behind the gap *)
    assert (Hd1 : data n = (A ++ replicate (S g') Raw) ++ Live w :: (Live <$> ws) ++ B).
    { rewrite Hd. by rewrite <- app_assoc. }
    assert (Hx : N.to_nat (N.of_nat (length A + S g')) = length (A ++ replicate (S g') (@Raw T))).
    { rewrite length_app, length_replicate. lia. }
    assert (Hcell : data n !! N.to_nat (N.of_nat (length A + S g')) = Some (Live w)).
    { rewrite Hx, Hd1. apply lookup_at_length. }
    rewrite bind_assoc.
    rewrite (bind_Ret _ _ _ _ _ (move_from_Live s p n _ w Hp Hcell)).
    rewrite Hx, Hd1, insert_at_length.
    (* it goes to the first cell of the gap *)
    assert (Hdst : N.to_nat (size_sub (N.of_nat (length A + S g')) (N.of_nat (S g'))) = length A).
    { rewrite size_sub_small by lia. lia. }
    unfold construct, destroy. rewrite bind_assoc.
    erewrite bind_Ret; cycle 1.
    { apply set_slot_Some; [apply upd_lookup|].
      rewrite Hdst, with_data_data, !length_app. simpl. lia. }
    cbv beta. rewrite Hdst, with_data_data, upd_upd.
    replace ((A ++ replicate (S g') Raw) ++ Husk :: (Live <$> ws) ++ B)
      with (A ++ Raw :: replicate g' Raw ++ Husk :: (Live <$> ws) ++ B)
      by (by rewrite <- app_assoc).
    rewrite insert_at_length.
    (* and its old cell is destroyed *)
    erewrite bind_Ret; cycle 1.
    { apply set_slot_Some; [apply upd_lookup|].
      rewrite Hx, with_data_data, !length_app. simpl. rewrite !length_app. simpl. lia. }
    cbv beta. rewrite with_data_data, upd_upd, Hx.
    replace (A ++ Live w :: replicate g' Raw ++ Husk :: (Live <$> ws) ++ B)
      with ((A ++ Live w :: replicate g' Raw) ++ Husk :: (Live <$> ws) ++ B)
      by (by rewrite <- app_assoc).
    replace (length (A ++ replicate (S g') Raw))
      with (length (A ++ Live w :: replicate g' (@Raw T)))
      by (rewrite !length_app; simpl; rewrite !length_replicate; lia).
    rewrite insert_at_length.
    rewrite size_add_small by lia.
    replace (N.of_nat (length A + S g') + 1)%N
      with (N.of_nat (length (A ++ [Live w]) + S g'))
      by (rewrite length_app; simpl; lia).
    rewrite (IH (A ++ [Live w]) B _ _ Hg (upd_lookup _ _ _)); cycle 1.
    { rewrite with_data_data, <- !app_assoc. simpl. do 2 f_equal.
      change (Raw :: (Live <$> ws) ++ B) with ([Raw] ++ (Live <$> ws) ++ B).
      rewrite app_assoc, <- replicate_S_end. reflexivity. }
    { rewrite length_app. simpl. lia. }
    rewrite upd_upd. unfold with_data. simpl.
    rewrite <- app_assoc. reflexivity.
Qed.

End ErasePrimitives.

Section RemoveNode.

Context {T : Type}.
Variable NodeMaxSize : N.
Implicit Types (s : @state T) (n : @Node T) (p q : loc) (bs : list (loc * list T)).

(** [destroy_node]: the destructor runs over the cells below [count], then
    the node is gone. *)
Lemma destroy_node_spec s p n :
  mem s !! p = Some n →
  N.to_nat (count n) ≤ length (data n) →
  (count n < SIZE_MOD)%N →
  destroy_node p s = Ret () (free s p).
Proof.
  intros Hp Hc Hlt. unfold destroy_node.
  rewrite (bind_Ret _ _ _ _ _ (get_node_Some _ _ _ Hp)).
  unfold trip. rewrite N.sub_0_r.
  pose proof (destroy_loop p (take (N.to_nat (count n)) (data n)) []
                (drop (N.to_nat (count n)) (data n)) n s Hp) as Hloop.
  rewrite length_take in Hloop.
  replace (N.to_nat (count n) `min` length (data n)) with (N.to_nat (count n)) in Hloop by lia.
  cbn [length app] in Hloop.
  rewrite (bind_Ret _ _ _ _ _ (Hloop ltac:(by rewrite take_drop) ltac:(lia))).
  by rewrite free_upd.
Qed.

Lemma seg_first_in (m : gmap loc (@Node T)) pv cur b bs pv' cur' :
  seg NodeMaxSize m pv cur (b :: bs) pv' cur' → cur = Some b.1 ∧ b.1 ∈ (b :: bs).*1.
Proof.
  intros H. split; [by eapply seg_head_Some|]. simpl. left.
Qed.

(** Rewiring the [next] link of the last node of a segment. *)
Lemma seg_set_last_next (m : gmap loc (@Node T)) pv cur bs t vt pv' cur' nt (x : option loc) :
  NoDup (bs ++ [(t, vt)]).*1 →
  seg NodeMaxSize m pv cur (bs ++ [(t, vt)]) pv' cur' →
  m !! t = Some nt →
  seg NodeMaxSize (<[t := mkNode (count nt) x (prev nt) (data nt)]> m)
      pv cur (bs ++ [(t, vt)]) (Some t) x.
Proof.
  intros Hnd Hseg Ht. apply seg_block in Hseg as (n0 & Ht0 & Hh & Hne & H1 & H2).
  assert (n0 = nt) as -> by congruence.
  apply seg_block. eexists. split; [apply lookup_insert_eq|].
  split; [exact Hh|]. split; [done|]. simpl. split; [| done].
  eapply seg_frame; [| exact H1]. intros y Hy.
  apply lookup_insert_ne. intros ->. by apply (NoDup_block_l _ _ _ _ Hnd).
Qed.

(** Rewiring the [prev] link of the first node of a segment. *)
Lemma seg_set_first_prev (m : gmap loc (@Node T)) pv cur r vr bs pv' cur' nr (x : option loc) :
  NoDup ((r, vr) :: bs).*1 →
  seg NodeMaxSize m pv cur ((r, vr) :: bs) pv' cur' →
  m !! r = Some nr →
  seg NodeMaxSize (<[r := mkNode (count nr) (next nr) x (data nr)]> m)
      x (Some r) ((r, vr) :: bs) pv' cur'.
Proof.
  intros Hnd Hseg Hr. simpl in Hseg.
  destruct Hseg as (_ & n0 & Hr0 & _ & Hh & Hne & Hrest).
  assert (n0 = nr) as -> by congruence.
  simpl. split; [done|]. eexists. split; [apply lookup_insert_eq|].
  split; [done|]. split; [exact Hh|]. split; [done|]. simpl.
  eapply seg_frame; [| exact Hrest]. intros y Hy.
  apply lookup_insert_ne. intros ->.
  simpl in Hnd. apply list.NoDup_cons in Hnd as [Hnotin _]. done.
Qed.

Lemma seg_last_snoc (m : gmap loc (@Node T)) pv cur bs t vt pv' cur' :
  seg NodeMaxSize m pv cur (bs ++ [(t, vt)]) pv' cur' →
  pv' = Some t ∧ ∃ nt, m !! t = Some nt ∧ next nt = cur'.
Proof.
  intros Hseg. apply seg_block in Hseg as (nt & Ht & _ & _ & _ & H2).
  simpl in H2. destruct H2 as [-> ->]. eauto.
Qed.

Lemma NoDup_app_disjoint (l1 l2 : list loc) x :
  NoDup (l1 ++ l2) → x ∈ l1 → x ∈ l2 → False.
Proof. intros Hnd H1 H2. apply list.NoDup_app in Hnd as (_ & Hd & _). by apply (Hd x). Qed.

(** [remove_node] unlinks and frees a node wherever it sits in the chain and
    returns the first position of the node that followed it, or [end()]. *)
Lemma remove_node_spec s bs1 p n bs2 :
  linked_at NodeMaxSize (mem s) (head (obj s)) (tail (obj s)) bs1 p n bs2 →
  NoDup (p :: (bs1 ++ bs2).*1) →
  N.to_nat (count n) ≤ length (data n) →
  (count n < SIZE_MOD)%N →
  ∃ s', remove_node p s
        = Ret (match bs2 with [] => Iter None 0 | b :: _ => Iter (Some b.1) 0 end) s'
        ∧ chain NodeMaxSize (mem s') (head (obj s')) (bs1 ++ bs2) (tail (obj s'))
        ∧ total_size (obj s') = total_size (obj s)
        ∧ dom (mem s') = dom (mem s) ∖ {[p]}
        ∧ (∀ x, x ∉ (bs1 ++ bs2).*1 → x ≠ p → mem s' !! x = mem s !! x).
Proof.
  intros (Hp & Hseg1 & Hseg2) Hnd Hcnt Hlt.
  apply list.NoDup_cons in Hnd as [Hpnot Hnd].
  rewrite fmap_app in Hpnot, Hnd.
  assert (Hp1 : p ∉ bs1.*1) by (intros ?; apply Hpnot, elem_of_app; by left).
  assert (Hp2 : p ∉ bs2.*1) by (intros ?; apply Hpnot, elem_of_app; by right).
  pose proof Hnd as Hnd12.
  apply list.NoDup_app in Hnd as (Hnd1 & Hdisj & Hnd2).
  assert (Hframe1 : ∀ m', (∀ x, x ∈ bs1.*1 → m' !! x = mem s !! x) →
            ∀ pv cur pv' cur', seg NodeMaxSize (mem s) pv cur bs1 pv' cur' →
                               seg NodeMaxSize m' pv cur bs1 pv' cur').
  { intros m' Hsame pv cur pv' cur' H. by eapply seg_frame. }
  unfold remove_node.
  rewrite (bind_Ret _ _ s (obj s) s) by reflexivity.
  destruct bs1 as [| b1 bs1' _] using rev_ind; destruct bs2 as [| [r vr] bs3].
  - (* the only node *)
    destruct Hseg1 as [Hpv Hhd]. destruct Hseg2 as [Htl Hnx].
    rewrite <- Hhd, Htl, decide_True by done.
    rewrite (bind_Ret _ _ _ _ _ (destroy_node_spec s p n Hp Hcnt Hlt)).
    do 2 step. eexists. split; [reflexivity|].
    split; [| split; [done | split]].
    + unfold chain. simpl. done.
    + cbn [mem free]. apply dom_delete_L.
    + intros x _ Hx. cbn [mem free]. by apply lookup_delete_ne.
  - (* the head, with a successor *)
    destruct Hseg1 as [Hpv Hhd].
    pose proof Hseg2 as (Hnx & nr & Hr & Hrpv & Hhr & Hner & Hseg3).
    destruct (seg_last_in NodeMaxSize _ _ _ _ _ _ Hseg2 ltac:(done)) as (t & Htl & Htin).
    assert (Hrp : r ≠ p) by (intros ->; apply Hp2; simpl; left).
    rewrite <- Hhd, Htl.
    rewrite decide_False by (intros [= ->]; by apply Hp2).
    rewrite decide_True by done.
    step. step. rewrite Hnx. step.
    erewrite bind_Ret; cycle 1.
    { apply set_prev_Some. cbn [mem]. exact Hr. }
    cbv beta.
    erewrite bind_Ret; cycle 1.
    { eapply destroy_node_spec; [| exact Hcnt | exact Hlt].
      cbn [mem upd]. rewrite lookup_insert_ne by done. exact Hp. }
    cbv beta. eexists. split; [reflexivity|].
    split; [| split; [done | split]].
    + unfold chain. cbn [mem obj head tail free upd app].
      eapply seg_frame; cycle 1.
      { eapply (seg_set_first_prev (mem s) _ _ r vr bs3 _ _ nr None); eauto. }
      intros y Hy. rewrite lookup_delete_ne; [done|]. intros ->. by apply Hp2.
    + cbn [mem free upd]. rewrite dom_delete_L, dom_insert_L.
      apply elem_of_dom_2 in Hr.
      rewrite (subseteq_union_1_L {[r]}); [done|]. by apply singleton_subseteq_l.
    + intros x Hx Hxp. cbn [mem free upd].
      rewrite lookup_delete_ne by done. apply lookup_insert_ne.
      intros ->. apply Hx. simpl. left.
  - (* the tail, with a predecessor *)
    destruct b1 as [t vt]. destruct Hseg2 as [Htl Hnx].
    pose proof (seg_last_snoc _ _ _ _ _ _ _ _ Hseg1) as (Hpv & nt & Ht & Hntnx).
    assert (Htp : t ≠ p).
    { intros ->. apply Hp1. rewrite fmap_app. apply elem_of_app. right. simpl. left. }
    assert (Hhd : ∃ h, head (obj s) = Some h ∧ h ∈ (bs1' ++ [(t, vt)]).*1).
    { destruct (bs1' ++ [(t, vt)]) as [| b bs] eqn:Heq; [by destruct bs1'|].
      exists b.1. eapply seg_first_in. exact Hseg1. }
    destruct Hhd as (h & Hhd & Hhin).
    rewrite Hhd, Htl.
    rewrite decide_False by (intros [= ->]; by apply Hp1).
    rewrite decide_False by (intros [= ->]; by apply Hp1).
    rewrite decide_True by done.
    step. step. rewrite Hpv. step.
    erewrite bind_Ret; cycle 1.
    { apply set_next_Some. cbn [mem]. exact Ht. }
    cbv beta.
    erewrite bind_Ret; cycle 1.
    { eapply destroy_node_spec; [| exact Hcnt | exact Hlt].
      cbn [mem upd]. rewrite lookup_insert_ne by done. exact Hp. }
    cbv beta. eexists. split; [reflexivity|].
    split; [| split; [done | split]].
    + unfold chain. cbn [mem obj head tail free upd]. rewrite app_nil_r.
      eapply seg_frame; cycle 1.
      { eapply (seg_set_last_next (mem s) _ _ bs1' t vt _ _ nt None); eauto. }
      intros y Hy. rewrite lookup_delete_ne; [done|]. intros ->. by apply Hp1.
    + cbn [mem free upd]. rewrite dom_delete_L, dom_insert_L.
      apply elem_of_dom_2 in Ht.
      rewrite (subseteq_union_1_L {[t]}); [done|]. by apply singleton_subseteq_l.
    + intros x Hx Hxp. cbn [mem free upd].
      rewrite lookup_delete_ne by done. apply lookup_insert_ne.
      intros ->. apply Hx. rewrite app_nil_r, fmap_app. apply elem_of_app. right. simpl. left.
  - (* in the middle *)
    destruct b1 as [t vt].
    pose proof Hseg2 as (Hnx & nr & Hr & Hrpv & Hhr & Hner & Hseg3).
    pose proof (seg_last_snoc _ _ _ _ _ _ _ _ Hseg1) as (Hpv & nt & Ht & Hntnx).
    destruct (seg_last_in NodeMaxSize _ _ _ _ _ _ Hseg2 ltac:(done)) as (tl & Htl & Htlin).
    assert (Htin : t ∈ (bs1' ++ [(t, vt)]).*1).
    { rewrite fmap_app. apply elem_of_app. right. simpl. left. }
    assert (Hrin : r ∈ ((r, vr) :: bs3).*1) by (simpl; left).
    assert (Htp : t ≠ p) by (intros ->; by apply Hp1).
    assert (Hrp : r ≠ p) by (intros ->; by apply Hp2).
    assert (Htr : t ≠ r) by (intros ->; by eapply Hdisj).
    assert (Hhd : ∃ h, head (obj s) = Some h ∧ h ∈ (bs1' ++ [(t, vt)]).*1).
    { destruct (bs1' ++ [(t, vt)]) as [| b bs] eqn:Heq; [by destruct bs1'|].
      exists b.1. eapply seg_first_in. exact Hseg1. }
    destruct Hhd as (h & Hhd & Hhin).
    rewrite Hhd, Htl.
    rewrite decide_False by (intros [= ->]; by eapply Hdisj).
    rewrite decide_False by (intros [= ->]; by apply Hp1).
    rewrite decide_False by (intros [= ->]; by apply Hp2).
    step. rewrite Hpv. step.
    erewrite bind_Ret; cycle 1.
    { apply set_next_Some. exact Ht. }
    cbv beta.
    erewrite bind_Ret; cycle 1.
    { apply get_node_Some. rewrite upd_lookup_ne by done. exact Hp. }
    cbv beta. rewrite Hnx. step.
    erewrite bind_Ret; cycle 1.
    { apply set_prev_Some. rewrite upd_lookup_ne by done. exact Hr. }
    cbv beta.
    erewrite bind_Ret; cycle 1.
    { eapply destroy_node_spec; [| exact Hcnt | exact Hlt].
      rewrite !upd_lookup_ne by done. exact Hp. }
    cbv beta. eexists. split; [reflexivity|].
    split; [| split; [done | split]].
    + unfold chain. cbn [mem obj head tail free upd].
      apply seg_app. exists (Some t), (Some r). split.
      * eapply seg_frame; cycle 1.
        { eapply (seg_set_last_next (mem s) _ _ bs1' t vt _ _ nt (Some r)); eauto. }
        intros y Hy. rewrite lookup_delete_ne by (intros ->; by apply Hp1).
        apply lookup_insert_ne. intros ->. by eapply Hdisj.
      * eapply seg_frame; cycle 1.
        { eapply (seg_set_first_prev (mem s) _ _ r vr bs3 _ _ nr (Some t)); eauto. }
        intros y Hy. rewrite lookup_delete_ne by (intros ->; by apply Hp2).
        destruct (decide (y = r)) as [-> | Hyr].
        { by rewrite !lookup_insert_eq, Hpv. }
        assert (Hty : t ≠ y) by (intros Heq; subst y; exact (Hdisj _ Htin Hy)).
        by rewrite !lookup_insert_ne by done.
    + cbn [mem free upd]. rewrite dom_delete_L, !dom_insert_L.
      apply elem_of_dom_2 in Ht. apply elem_of_dom_2 in Hr.
      rewrite (subseteq_union_1_L {[t]}) by (by apply singleton_subseteq_l).
      rewrite (subseteq_union_1_L {[r]}); [done|]. by apply singleton_subseteq_l.
    + intros x Hx Hxp. cbn [mem free upd].
      rewrite lookup_delete_ne by done.
      rewrite !lookup_insert_ne; [done | | ].
      * intros ->. apply Hx. rewrite fmap_app. apply elem_of_app. by left.
      * intros ->. apply Hx. rewrite fmap_app. apply elem_of_app. by right.
Qed.

End RemoveNode.

(** ** Erasing inside one node *)

Section EraseSameNode.

Context {T : Type}.
Variable NodeMaxSize : N.
Implicit Types (s : @state T) (n : @Node T) (p q : loc) (bs : list (loc * list T)).
Implicit Types (vs : list T).

(** The storage of a node cut at the two ends of a range. *)
Lemma holds_decompose3 n vs (i j : nat) :
  holds NodeMaxSize n vs → i ≤ j → j ≤ length vs →
  data n = (Live <$> take i vs) ++ (Live <$> take (j - i) (drop i vs))
           ++ (Live <$> drop j vs) ++ drop (length vs) (data n).
Proof.
  intros (_ & _ & Htake) Hij Hj.
  rewrite <- (take_drop (length vs) (data n)) at 1. rewrite Htake.
  rewrite !app_assoc. f_equal. rewrite <- !fmap_app. f_equal.
  rewrite <- (take_drop i vs) at 1. rewrite <- app_assoc. f_equal.
  rewrite <- (take_drop (j - i) (drop i vs)) at 1. f_equal.
  rewrite drop_drop. f_equal. lia.
Qed.

Lemma normalize_node_spec s p n (g : nat) (ws : list T) (A B : list slot) :
  mem s !! p = Some n →
  data n = A ++ replicate g Raw ++ (Live <$> ws) ++ B →
  count n = N.of_nat (length A + g + length ws) →
  (count n < SIZE_MOD)%N →
  normalize_node p (N.of_nat (length A + g)) (N.of_nat g) s
  = Ret () (upd s p (with_data n (A ++ (Live <$> ws) ++ replicate g Raw ++ B))).
Proof.
  intros Hp Hd Hc Hlt. unfold normalize_node.
  destruct (decide (N.of_nat g = 0%N)) as [Hz | Hnz].
  - assert (g = 0) as -> by lia. simpl in *.
    rewrite <- Hd, with_data_id, upd_id by done. reflexivity.
  - rewrite (bind_Ret _ _ _ _ _ (get_node_Some _ _ _ Hp)).
    unfold trip. rewrite Hc.
    replace (N.to_nat (N.of_nat (length A + g + length ws) - N.of_nat (length A + g)))
      with (length ws) by lia.
    apply normalize_loop; [lia | done | done | lia].
Qed.

(** The same-node branch up to its last test: the node keeps the elements
    outside the range, packed at the front. *)
Lemma erase_same_node_run s p n vs (i j : nat) :
  mem s !! p = Some n →
  holds NodeMaxSize n vs →
  i < j → j ≤ length vs →
  (NodeMaxSize < SIZE_MOD)%N →
  (N.of_nat (j - i) ≤ total_size (obj s))%N →
  (total_size (obj s) < SIZE_MOD)%N →
  ∃ n', erase_same_node p (N.of_nat i) (N.of_nat j) s
        = (if decide (count n' = 0%N) then remove_node p
           else ret (Iter (Some p) (N.of_nat i)))
            (mkState (<[p := n']> (mem s))
                     (mkList (head (obj s)) (tail (obj s))
                             (total_size (obj s) - N.of_nat (j - i))))
        ∧ holds NodeMaxSize n' (take i vs ++ drop j vs)
        ∧ next n' = next n ∧ prev n' = prev n.
Proof.
  intros Hp Hh Hij Hj Hfits Htot Htotlt.
  pose proof (holds_length _ _ _ Hh) as Hle.
  pose proof Hh as (Hc & Hlen & _).
  pose proof (holds_decompose3 n vs i j Hh ltac:(lia) Hj) as Hd.
  set (A := (Live <$> take i vs : list slot)) in *.
  set (rest := drop (length vs) (data n)) in *.
  assert (HA : length A = i) by (unfold A; rewrite length_fmap, length_take; lia).
  assert (Hcells : length (Live <$> take (j - i) (drop i vs) : list slot) = j - i).
  { rewrite length_fmap, length_take, length_drop. lia. }
  assert (Hws : length (drop j vs) = length vs - j) by apply length_drop.
  set (d' := A ++ (Live <$> drop j vs) ++ replicate (j - i) Raw ++ rest).
  exists (mkNode (N.of_nat (length vs - (j - i))) (next n) (prev n) d').
  split; [| split; [| done]].
  - unfold erase_same_node, trip.
    replace (N.to_nat (N.of_nat j - N.of_nat i)) with (j - i) by lia.
    (* destroy the range *)
    pose proof (destroy_loop p (Live <$> take (j - i) (drop i vs)) A
                  ((Live <$> drop j vs) ++ rest) n s Hp Hd) as Hdestroy.
    rewrite HA, Hcells in Hdestroy.
    rewrite (bind_Ret _ _ _ _ _ (Hdestroy ltac:(lia))). clear Hdestroy.
    (* close the gap *)
    pose proof (normalize_node_spec (upd s p (with_data n (A ++ replicate (j - i) Raw
                                            ++ (Live <$> drop j vs) ++ rest)))
                  p _ (j - i) (drop j vs) A rest (upd_lookup _ _ _) eq_refl) as Hnorm.
    rewrite HA, Hws in Hnorm.
    replace (i + (j - i)) with j in Hnorm by lia.
    cbn [count with_data] in Hnorm.
    rewrite (bind_Ret _ _ _ _ _ (Hnorm ltac:(lia) ltac:(lia))). clear Hnorm.
    rewrite upd_upd.
    (* book-keeping *)
    do 2 step. rewrite upd_upd. do 2 step.
    erewrite bind_Ret; cycle 1.
    { apply get_node_Some. cbn [mem upd]. apply lookup_insert_eq. }
    cbv beta. cbn [count].
    rewrite Hc, !size_sub_small by lia.
    replace (N.of_nat (length vs) - N.of_nat (j - i))%N
      with (N.of_nat (length vs - (j - i))) by lia.
    reflexivity.
  - unfold holds. cbn [count data].
    assert (Hl : length (take i vs ++ drop j vs) = length vs - (j - i)).
    { rewrite length_app, length_take, length_drop. lia. }
    split; [by rewrite Hl|]. split.
    + rewrite <- Hlen, Hd. unfold d'.
      rewrite !length_app, !length_fmap, length_replicate, length_take, !length_drop. lia.
    + unfold d'. rewrite fmap_app. fold A. rewrite app_assoc.
      apply take_app_length'. rewrite Hl, length_app, HA, length_fmap, Hws. lia.
Qed.

Lemma NoDup_remove_block bs1 p vs bs2 :
  NoDup (bs1 ++ (p, vs) :: bs2).*1 → NoDup (p :: (bs1 ++ bs2).*1).
Proof.
  rewrite !fmap_app, fmap_cons. simpl. intros Hnd.
  apply list.NoDup_app in Hnd as (Hnd1 & Hdisj & Hnd2).
  apply list.NoDup_cons in Hnd2 as (Hp2 & Hnd2).
  apply list.NoDup_cons. split.
  - intros Hin. apply elem_of_app in Hin as [Hin | Hin]; [| done].
    apply (Hdisj p Hin). left.
  - apply list.NoDup_app. split; [done|]. split; [| done].
    intros x Hx Hin. apply (Hdisj x Hx). by right.
Qed.

(** A block of a chain whose record has been overwritten, links kept, is
    still linked at its place. *)
Lemma linked_at_overwrite (m : gmap loc (@Node T)) hd tl bs1 p vs bs2 n' :
  NoDup (bs1 ++ (p, vs) :: bs2).*1 →
  chain NodeMaxSize m hd (bs1 ++ (p, vs) :: bs2) tl →
  (∀ n, m !! p = Some n → next n' = next n ∧ prev n' = prev n) →
  linked_at NodeMaxSize (<[p := n']> m) hd tl bs1 p n' bs2.
Proof.
  intros Hnd Hchain Hlinks.
  apply seg_block in Hchain as (n & Hp & _ & _ & H1 & H2).
  destruct (Hlinks n Hp) as [Hnx Hpv].
  split; [apply lookup_insert_eq|]. rewrite Hnx, Hpv. split.
  - eapply seg_frame; [| exact H1]. intros y Hy.
    apply lookup_insert_ne. intros ->. by apply (NoDup_block_l _ _ _ _ Hnd).
  - eapply seg_frame; [| exact H2]. intros y Hy.
    apply lookup_insert_ne. intros ->. by apply (NoDup_block_r _ _ _ _ Hnd).
Qed.

Lemma block_le_total s bs1 p vs bs2 :
  repr NodeMaxSize s (bs1 ++ (p, vs) :: bs2) →
  (N.of_nat (length vs) ≤ total_size (obj s))%N.
Proof.
  intros (_ & _ & Hsize & _). rewrite Hsize, contents_block, !length_app. lia.
Qed.

Lemma dom_overwrite (m : gmap loc (@Node T)) p n n' :
  m !! p = Some n → dom (<[p := n']> m) = dom m.
Proof.
  intros Hp. rewrite dom_insert_L.
  apply subseteq_union_1_L, singleton_subseteq_l, elem_of_dom. eauto.
Qed.

(** A node that leaves the chain and is given back is not left outside. *)
Lemma outside_remove s s' bs1 p vs bs2 :
  NoDup (bs1 ++ (p, vs) :: bs2).*1 →
  dom (mem s') = dom (mem s) ∖ {[p]} →
  outside s' (bs1 ++ bs2) = outside s (bs1 ++ (p, vs) :: bs2).
Proof.
  intros Hnd Hdom. unfold outside. rewrite Hdom, keys_block.
  apply outside_leave. apply NoDup_remove_block in Hnd.
  apply list.NoDup_cons in Hnd as [Hp _]. by rewrite elem_of_list_to_set.
Qed.

(** Erasing a range of one node that leaves the node non-empty. *)
Lemma erase_same_node_keep s bs1 p vs bs2 (i j : nat) :
  repr NodeMaxSize s (bs1 ++ (p, vs) :: bs2) →
  i < j → j ≤ length vs →
  take i vs ++ drop j vs ≠ [] →
  ∃ s', erase_same_node p (N.of_nat i) (N.of_nat j) s
        = Ret (Iter (Some p) (N.of_nat i)) s'
        ∧ repr NodeMaxSize s' (bs1 ++ (p, take i vs ++ drop j vs) :: bs2)
        ∧ outside s' (bs1 ++ (p, take i vs ++ drop j vs) :: bs2)
          = outside s (bs1 ++ (p, vs) :: bs2).
Proof.
  intros Hrepr Hij Hj Hne.
  pose proof (block_le_total _ _ _ _ _ Hrepr) as Hbt.
  pose proof Hrepr as (Hchain & Hnd & Hsize & Hlt & Hfits).
  pose proof Hchain as Hc. apply seg_block in Hc as (n & Hp & Hh & _).
  destruct (erase_same_node_run s p n vs i j Hp Hh Hij Hj Hfits ltac:(lia) Hlt)
    as (n' & Hrun & Hh' & Hnx & Hpv).
  assert (Hcnt : count n' ≠ 0%N).
  { destruct Hh' as (-> & _). destruct (take i vs ++ drop j vs); [done | simpl; lia]. }
  rewrite decide_False in Hrun by done.
  eexists. split; [exact Hrun|]. split; cycle 1.
  { apply outside_block. cbn [mem]. by eapply dom_overwrite. }
  unfold repr. cbn [mem obj head tail total_size].
  split; [| split; [| split; [| split]]].
  - eapply seg_replace_block; eauto.
  - by rewrite (fst_block bs1 p vs).
  - rewrite Hsize, !contents_block, !length_app, length_take, length_drop. lia.
  - lia.
  - done.
Qed.

(** Erasing all the elements of a node removes the node. *)
Lemma erase_same_node_all s bs1 p vs bs2 :
  repr NodeMaxSize s (bs1 ++ (p, vs) :: bs2) →
  ∃ s', erase_same_node p 0 (N.of_nat (length vs)) s
        = Ret (match bs2 with [] => Iter None 0 | b :: _ => Iter (Some b.1) 0 end) s'
        ∧ repr NodeMaxSize s' (bs1 ++ bs2)
        ∧ dom (mem s') = dom (mem s) ∖ {[p]}
        ∧ outside s' (bs1 ++ bs2) = outside s (bs1 ++ (p, vs) :: bs2).
Proof.
  intros Hrepr.
  pose proof (block_le_total _ _ _ _ _ Hrepr) as Hbt.
  pose proof Hrepr as (Hchain & Hnd & Hsize & Hlt & Hfits).
  pose proof Hchain as Hc. apply seg_block in Hc as (n & Hp & Hh & Hnev & _).
  assert (Hlen : 0 < length vs) by (destruct vs; [done | simpl; lia]).
  destruct (erase_same_node_run s p n vs 0 (length vs) Hp Hh Hlen ltac:(lia)
              Hfits ltac:(lia) Hlt) as (n' & Hrun & Hh' & Hnx & Hpv).
  change (N.of_nat 0) with 0%N in Hrun.
  rewrite take_0, drop_ge in Hh' by lia. simpl in Hh'.
  destruct Hh' as (Hc0 & Hlen' & _). simpl in Hc0.
  rewrite decide_True in Hrun by done.
  set (s1 := mkState (<[p := n']> (mem s))
                     (mkList (head (obj s)) (tail (obj s))
                             (total_size (obj s) - N.of_nat (length vs - 0)))) in *.
  destruct (remove_node_spec NodeMaxSize s1 bs1 p n' bs2) as (s' & Hrm & Hchain' & Htot' & Hdom' & _).
  - apply (linked_at_overwrite _ _ _ _ _ vs); [done | done |].
    intros n0 Hn0. assert (n0 = n) as -> by congruence. done.
  - by eapply NoDup_remove_block.
  - rewrite Hc0. simpl. lia.
  - rewrite Hc0. unfold SIZE_MOD. lia.
  - exists s'. split; [by rewrite Hrun|]. split.
    + unfold repr. split; [done|]. split.
      { apply NoDup_remove_block in Hnd. by apply list.NoDup_cons in Hnd as [_ ?]. }
      rewrite Htot'. cbn [obj total_size s1].
      rewrite contents_block, !length_app in Hsize.
      rewrite contents_app, length_app.
      split; [lia|]. split; [lia | done].
    + assert (Hd : dom (mem s') = dom (mem s) ∖ {[p]}).
      { rewrite Hdom'. cbn [mem s1]. by erewrite dom_overwrite. }
      split; [done|]. by eapply outside_remove.
Qed.

End EraseSameNode.
(** ** Erasing across nodes *)

Section EraseAcrossNodes.

Context {T : Type}.
Variable NodeMaxSize : N.
Implicit Types (s : @state T) (n : @Node T) (p q : loc) (bs : list (loc * list T)).
Implicit Types (vs ws : list T).

(** Where a segment starts. *)
Lemma seg_start (m : gmap loc (@Node T)) pv cur bs pv' :
  seg NodeMaxSize m pv cur bs pv' None → cur = bs.*1 !! 0.
Proof.
  destruct bs as [| [p vs] bs]; simpl.
  - by intros [_ ->].
  - by intros [-> _].
Qed.

Lemma first_key_snoc (mids bs2 : list (loc * list T)) q ws :
  (mids ++ (q, ws) :: bs2).*1 !! 0 = (mids.*1 ++ [q]) !! 0.
Proof. by destruct mids. Qed.

(** A chain of distinct nodes is no longer than the store is large. *)
Lemma seg_size (m : gmap loc (@Node T)) pv cur bs pv' cur' :
  seg NodeMaxSize m pv cur bs pv' cur' → NoDup bs.*1 → length bs ≤ base.size m.
Proof.
  intros Hseg Hnd.
  rewrite <- (length_fmap fst bs), <- size_dom.
  rewrite <- (size_list_to_set (C := gset loc) bs.*1 Hnd).
  apply subseteq_size. intros x Hx. apply elem_of_list_to_set in Hx.
  apply elem_of_dom. by eapply seg_allocated.
Qed.

(** The storage of a node whose elements from [i] on are destroyed. *)
Lemma holds_truncate n vs (i : nat) (d : list (@slot T)) :
  holds NodeMaxSize n vs → i ≤ length vs →
  length d = length (data n) →
  take i d = Live <$> take i vs →
  holds NodeMaxSize (mkNode (N.of_nat i) (next n) (prev n) d) (take i vs).
Proof.
  intros (Hc & Hlen & Htake) Hi Hd Ht. unfold holds. cbn [count data].
  rewrite length_take, Nat.min_l by lia. by rewrite Hd.
Qed.

Lemma erase_start_node_spec s bs1 p vs bs2 (i : nat) :
  chain NodeMaxSize (mem s) (head (obj s)) (bs1 ++ (p, vs) :: bs2) (tail (obj s)) →
  NoDup (bs1 ++ (p, vs) :: bs2).*1 →
  i < length vs →
  (NodeMaxSize < SIZE_MOD)%N →
  let start := if decide (i = 0) then [] else [(p, take i vs)] in
  ∃ s', erase_start_node p (N.of_nat i) s
        = Ret (bs2.*1 !! 0, N.of_nat (length vs - i)) s'
        ∧ chain NodeMaxSize (mem s') (head (obj s')) (bs1 ++ start ++ bs2) (tail (obj s'))
        ∧ NoDup (bs1 ++ start ++ bs2).*1
        ∧ total_size (obj s') = total_size (obj s)
        ∧ outside s' (bs1 ++ start ++ bs2) = outside s (bs1 ++ (p, vs) :: bs2).
Proof.
  intros Hchain Hnd Hi Hfits start.
  pose proof Hchain as Hc. apply seg_block in Hc as (n & Hp & Hh & Hne & H1 & H2).
  pose proof (holds_length _ _ _ Hh) as Hle.
  pose proof Hh as (Hcnt & Hlen & Htake).
  set (A := (Live <$> take i vs : list slot)).
  set (cells := (Live <$> drop i vs : list slot)).
  set (rest := drop (length vs) (data n)).
  assert (Hd : data n = A ++ cells ++ rest).
  { rewrite app_assoc. unfold A, cells. rewrite <- fmap_app, take_drop, <- Htake.
    unfold rest. by rewrite take_drop. }
  assert (HA : length A = i) by (unfold A; rewrite length_fmap, length_take; lia).
  assert (Hcells : length cells = length vs - i).
  { unfold cells. by rewrite length_fmap, length_drop. }
  pose proof (seg_start _ _ _ _ _ H2) as Hcur.
  unfold erase_start_node.
  rewrite (bind_Ret _ _ _ _ _ (get_node_Some _ _ _ Hp)).
  unfold trip. rewrite Hcnt.
  replace (N.to_nat (N.of_nat (length vs) - N.of_nat i)) with (length vs - i) by lia.
  pose proof (destroy_loop p cells A rest n s Hp Hd) as Hdestroy.
  rewrite HA, Hcells in Hdestroy.
  rewrite (bind_Ret _ _ _ _ _ (Hdestroy ltac:(lia))). clear Hdestroy.
  set (d' := A ++ replicate (length vs - i) Raw ++ rest).
  do 2 step. rewrite upd_upd.
  set (n' := mkNode (N.of_nat i) (next n) (prev n) d').
  assert (Hh' : holds NodeMaxSize n' (take i vs)).
  { apply (holds_truncate n vs i d'); [done | lia | |].
    - rewrite Hd. unfold d'. rewrite !length_app, length_replicate, Hcells. done.
    - unfold d'. apply take_app_length'. done. }
  cbn [count next].
  destruct (decide (i = 0)) as [-> | Hi0].
  - change (N.of_nat 0) with 0%N. rewrite decide_True by done.
    destruct (remove_node_spec NodeMaxSize (upd s p n') bs1 p n' bs2)
      as (s' & Hrm & Hchain' & Htot' & Hdom' & _).
    + apply (linked_at_overwrite _ _ _ _ _ _ vs); [done | done |].
      intros n0 Hn0. assert (n0 = n) as -> by congruence. done.
    + by eapply NoDup_remove_block.
    + simpl. lia.
    + simpl. unfold SIZE_MOD. lia.
    + exists s'. split; [| split; [| split; [| split]]].
      * rewrite bind_assoc, (bind_Ret _ _ _ _ _ Hrm). cbv beta.
        unfold ret at 1. unfold bind at 1. unfold ret. by rewrite Hcur.
      * done.
      * apply NoDup_remove_block in Hnd. by apply list.NoDup_cons in Hnd as [_ ?].
      * by rewrite Htot'.
      * apply (outside_remove s s' bs1 p vs bs2 Hnd).
        rewrite Hdom'. cbn [mem upd]. by erewrite dom_overwrite.
  - rewrite decide_False by lia.
    exists (upd s p n'). split; [| split; [| split; [| split]]].
    + unfold ret, bind. by rewrite Hcur.
    + eapply seg_replace_block; eauto.
      intros Hnil. apply (f_equal length) in Hnil. rewrite length_take in Hnil.
      simpl in Hnil. lia.
    + unfold start. simpl. by rewrite (fst_block bs1 p vs).
    + done.
    + apply (outside_block s). cbn [mem upd]. by eapply dom_overwrite.
Qed.

(** The loop over the nodes strictly between the two ends removes them all
    and counts their elements. *)
Lemma erase_between_spec q ws bs2 mids : ∀ s pre fuel (acc : N),
  chain NodeMaxSize (mem s) (head (obj s)) (pre ++ mids ++ (q, ws) :: bs2) (tail (obj s)) →
  NoDup (pre ++ mids ++ (q, ws) :: bs2).*1 →
  length mids < fuel →
  (acc + N.of_nat (length (contents mids)) < SIZE_MOD)%N →
  (NodeMaxSize < SIZE_MOD)%N →
  ∃ s', erase_between fuel ((mids.*1 ++ [q]) !! 0) q acc s
        = Ret (acc + N.of_nat (length (contents mids)))%N s'
        ∧ chain NodeMaxSize (mem s') (head (obj s')) (pre ++ (q, ws) :: bs2) (tail (obj s'))
        ∧ total_size (obj s') = total_size (obj s)
        ∧ outside s' (pre ++ (q, ws) :: bs2) = outside s (pre ++ mids ++ (q, ws) :: bs2).
Proof.
  induction mids as [| [c us] mids IH]; intros s pre fuel acc Hchain Hnd Hfuel Hacc Hfits.
  - exists s. split; [| done].
    destruct fuel; [lia|]. simpl. rewrite decide_True by done.
    unfold ret. f_equal. unfold contents. simpl. lia.
  - destruct fuel as [| fuel]; [lia|].
    simpl in Hfuel. rewrite contents_cons, length_app in Hacc.
    rewrite <- app_comm_cons in Hchain, Hnd.
    assert (Hcq : c ≠ q).
    { intros ->. apply NoDup_block_r in Hnd. apply Hnd.
      rewrite fmap_app, fmap_cons. apply elem_of_app. right. left. }
    pose proof Hchain as Hc. apply seg_block in Hc as (n & Hp & Hh & Hne & H1 & H2).
    pose proof (holds_length _ _ _ Hh) as Hle.
    pose proof Hh as (Hcnt & Hlen & Htake).
    pose proof (seg_start _ _ _ _ _ H2) as Hcur. rewrite first_key_snoc in Hcur.
    set (rest := drop (length us) (data n)).
    assert (Hd : data n = [] ++ (Live <$> us) ++ rest).
    { simpl. rewrite <- Htake. unfold rest. by rewrite take_drop. }
    simpl. rewrite decide_False by done.
    rewrite (bind_Ret _ _ _ _ _ (get_node_Some _ _ _ Hp)).
    unfold trip. rewrite Hcnt, N.sub_0_r, Nat2N.id.
    pose proof (destroy_loop c (Live <$> us) [] rest n s Hp Hd) as Hdestroy.
    rewrite length_fmap in Hdestroy. simpl in Hdestroy.
    rewrite (bind_Ret _ _ _ _ _ (Hdestroy ltac:(lia))). clear Hdestroy.
    set (n' := with_data n (replicate (length us) Raw ++ rest)).
    step.
    destruct (remove_node_spec NodeMaxSize (upd s c n') pre c n' (mids ++ (q, ws) :: bs2))
      as (s1 & Hrm & Hchain1 & Htot1 & Hdom1 & _).
    + apply (linked_at_overwrite _ _ _ _ _ _ us); [done | done |].
      intros n0 Hn0. assert (n0 = n) as -> by congruence. done.
    + by eapply NoDup_remove_block.
    + unfold n'. cbn [count with_data data]. rewrite Hcnt.
      rewrite length_app, length_replicate. lia.
    + unfold n'. cbn [count with_data]. rewrite Hcnt. lia.
    + rewrite (bind_Ret _ _ _ _ _ Hrm). cbv beta.
      unfold n'. cbn [next count with_data]. rewrite Hcur, Hcnt.
      rewrite size_add_small by lia.
      destruct (IH s1 pre fuel (acc + N.of_nat (length us))%N)
        as (s' & Hrun & Hchain' & Htot' & Hout').
      * done.
      * apply NoDup_remove_block in Hnd. by apply list.NoDup_cons in Hnd as [_ ?].
      * lia.
      * lia.
      * done.
      * exists s'. split; [| split; [| split]].
        -- rewrite Hrun. f_equal. rewrite contents_cons, length_app. lia.
        -- done.
        -- by rewrite Htot', Htot1.
        -- rewrite Hout'.
           apply (outside_remove s s1 pre c us (mids ++ (q, ws) :: bs2) Hnd).
           rewrite Hdom1. cbn [mem upd]. by erewrite dom_overwrite.
Qed.

Lemma first_key_iter (bs : list (loc * list T)) :
  match bs with [] => Iter None 0 | b :: _ => Iter (Some b.1) 0 end
  = Iter (bs.*1 !! 0) 0.
Proof. by destruct bs. Qed.

(** The last part: the elements of the end node before [end_index] go, the
    others move to the front; a node left without elements is removed. *)
Lemma erase_end_node_spec s pre q ws bs2 (j : nat) (acc : N) :
  chain NodeMaxSize (mem s) (head (obj s)) (pre ++ (q, ws) :: bs2) (tail (obj s)) →
  NoDup (pre ++ (q, ws) :: bs2).*1 →
  j ≤ length ws →
  (acc + N.of_nat j ≤ total_size (obj s))%N →
  (total_size (obj s) < SIZE_MOD)%N →
  (NodeMaxSize < SIZE_MOD)%N →
  let rest := if decide (j = length ws) then [] else [(q, drop j ws)] in
  ∃ s', erase_end_node q (N.of_nat j) acc s
        = Ret (if decide (j = length ws) then Iter (bs2.*1 !! 0) 0
               else Iter (Some q) 0) s'
        ∧ chain NodeMaxSize (mem s') (head (obj s')) (pre ++ rest ++ bs2) (tail (obj s'))
        ∧ NoDup (pre ++ rest ++ bs2).*1
        ∧ total_size (obj s') = (total_size (obj s) - (acc + N.of_nat j))%N
        ∧ outside s' (pre ++ rest ++ bs2) = outside s (pre ++ (q, ws) :: bs2).
Proof.
  intros Hchain Hnd Hj Hacc Hlt Hfits rest.
  pose proof Hchain as Hc. apply seg_block in Hc as (n & Hp & Hh & Hne & H1 & H2).
  pose proof (holds_length _ _ _ Hh) as Hle.
  pose proof Hh as (Hcnt & Hlen & Htake).
  set (tl := drop (length ws) (data n)).
  assert (Hd : data n = [] ++ (Live <$> take j ws) ++ (Live <$> drop j ws) ++ tl).
  { simpl. rewrite app_assoc, <- fmap_app, take_drop, <- Htake. unfold tl.
    by rewrite take_drop. }
  assert (Hcells : length (Live <$> take j ws : list (@slot T)) = j).
  { rewrite length_fmap, length_take. lia. }
  assert (Hws : length (drop j ws) = length ws - j) by apply length_drop.
  unfold erase_end_node, trip. rewrite N.sub_0_r, Nat2N.id.
  pose proof (destroy_loop q (Live <$> take j ws) [] ((Live <$> drop j ws) ++ tl) n s Hp Hd)
    as Hdestroy.
  rewrite Hcells in Hdestroy. simpl in Hdestroy.
  rewrite (bind_Ret _ _ _ _ _ (Hdestroy ltac:(lia))). clear Hdestroy.
  pose proof (normalize_node_spec
                (upd s q (with_data n (replicate j Raw ++ (Live <$> drop j ws) ++ tl)))
                q _ j (drop j ws) [] tl (upd_lookup _ _ _) eq_refl) as Hnorm.
  rewrite Hws in Hnorm. cbn [count with_data length Nat.add] in Hnorm.
  rewrite (bind_Ret _ _ _ _ _ (Hnorm ltac:(lia) ltac:(lia))). clear Hnorm.
  rewrite upd_upd. cbn [app].
  do 2 step. rewrite upd_upd. do 2 step.
  erewrite bind_Ret; cycle 1.
  { apply get_node_Some. cbn [mem upd]. apply lookup_insert_eq. }
  cbv beta. cbn [count].
  rewrite Hcnt, size_add_small by lia.
  rewrite !size_sub_small by lia.
  set (d' := (Live <$> drop j ws) ++ replicate j Raw ++ tl).
  set (n' := mkNode (N.of_nat (length ws) - N.of_nat j) (next n) (prev n) d').
  set (s1 := mkState (<[q := n']> (mem s))
               (mkList (head (obj s)) (tail (obj s))
                  (total_size (obj s) - (acc + N.of_nat j)))).
  change (∃ s', (if decide (count n' = 0%N) then remove_node q
                 else ret (Iter (Some q) 0)) s1 = Ret
                   (if decide (j = length ws) then Iter (bs2.*1 !! 0) 0
                    else Iter (Some q) 0) s'
                ∧ chain NodeMaxSize (mem s') (head (obj s')) (pre ++ rest ++ bs2) (tail (obj s'))
                ∧ NoDup (pre ++ rest ++ bs2).*1
                ∧ total_size (obj s') = (total_size (obj s) - (acc + N.of_nat j))%N
                ∧ outside s' (pre ++ rest ++ bs2) = outside s (pre ++ (q, ws) :: bs2)).
  assert (Hlen' : length d' = N.to_nat NodeMaxSize).
  { rewrite <- Hlen, Hd. unfold d'. simpl.
    rewrite !length_app, !length_fmap, length_replicate, length_take. lia. }
  unfold rest. destruct (decide (j = length ws)) as [-> | Hjne].
  - rewrite decide_True by (unfold n'; cbn [count]; lia).
    destruct (remove_node_spec NodeMaxSize s1 pre q n' bs2)
      as (s' & Hrm & Hchain' & Htot' & Hdom' & _).
    + apply (linked_at_overwrite _ _ _ _ _ _ ws); [done | done |].
      intros n0 Hn0. assert (n0 = n) as -> by congruence. done.
    + by eapply NoDup_remove_block.
    + unfold n'. cbn [count data]. lia.
    + unfold n'. cbn [count]. lia.
    + exists s'. split; [| split; [| split; [| split]]].
      * by rewrite Hrm, first_key_iter.
      * done.
      * apply NoDup_remove_block in Hnd. by apply list.NoDup_cons in Hnd as [_ ?].
      * by rewrite Htot'.
      * apply (outside_remove s s' pre q ws bs2 Hnd).
        rewrite Hdom'. cbn [mem s1]. by erewrite dom_overwrite.
  - rewrite decide_False by (unfold n'; cbn [count]; lia).
    exists s1. split; [done|]. split; [| split; [| split; [done|]]]; cycle 2.
    { apply (outside_block s). cbn [mem s1]. by eapply dom_overwrite. }
    + cbn [mem obj head tail s1 app].
      eapply seg_replace_block; eauto.
      * unfold holds, n'. cbn [count data]. rewrite Hws.
        split; [lia|]. split; [done|].
        unfold d'. apply take_app_length'. by rewrite length_fmap.
      * intros Hnil. apply (f_equal length) in Hnil. rewrite Hws in Hnil.
        simpl in Hnil. lia.
    + simpl. by rewrite (fst_block pre q ws).
Qed.

Lemma contents_kept_front p vs (i : nat) :
  contents (if decide (i = 0) then [] else [(p, take i vs)]) = take i vs.
Proof.
  destruct (decide (i = 0)) as [-> | _]; [done|].
  unfold contents. simpl. by rewrite app_nil_r.
Qed.

Lemma contents_kept_back q ws (j : nat) :
  contents (if decide (j = length ws) then [] else [(q, drop j ws)]) = drop j ws.
Proof.
  destruct (decide (j = length ws)) as [-> | _].
  - by rewrite drop_all.
  - unfold contents. simpl. by rewrite app_nil_r.
Qed.

(** Erasing a range that starts in one node and ends in a later one. *)
Lemma erase_across_nodes_repr s bs1 p vs mids q ws bs2 (i j : nat) :
  repr NodeMaxSize s (bs1 ++ (p, vs) :: mids ++ (q, ws) :: bs2) →
  i < length vs → j ≤ length ws →
  let start := if decide (i = 0) then [] else [(p, take i vs)] in
  let rest := if decide (j = length ws) then [] else [(q, drop j ws)] in
  ∃ s', erase_across_nodes p (N.of_nat i) q (N.of_nat j) s
        = Ret (if decide (j = length ws) then Iter (bs2.*1 !! 0) 0
               else Iter (Some q) 0) s'
        ∧ repr NodeMaxSize s' (bs1 ++ start ++ rest ++ bs2)
        ∧ outside s' (bs1 ++ start ++ rest ++ bs2)
          = outside s (bs1 ++ (p, vs) :: mids ++ (q, ws) :: bs2).
Proof.
  intros (Hchain & Hnd & Hsize & Hlt & Hfits) Hi Hj start rest.
  rewrite contents_block, contents_block, !length_app in Hsize.
  unfold erase_across_nodes.
  destruct (erase_start_node_spec s bs1 p vs (mids ++ (q, ws) :: bs2) i
              Hchain Hnd Hi Hfits) as (s1 & Hrun1 & Hchain1 & Hnd1 & Htot1 & Hout1).
  fold start in Hchain1, Hnd1, Hout1.
  rewrite (bind_Ret _ _ _ _ _ Hrun1). cbv beta. cbn [fst snd].
  unfold bind at 1.
  rewrite app_assoc in Hchain1, Hnd1, Hout1.
  destruct (erase_between_spec q ws bs2 mids s1 (bs1 ++ start)
              (S (base.size (mem s1))) (N.of_nat (length vs - i)) Hchain1 Hnd1)
    as (s2 & Hrun2 & Hchain2 & Htot2 & Hout2).
  { apply seg_size in Hchain1; [| done]. rewrite !length_app in Hchain1. lia. }
  { lia. }
  { done. }
  rewrite first_key_snoc, (bind_Ret _ _ _ _ _ Hrun2). cbv beta.
  destruct (erase_end_node_spec s2 (bs1 ++ start) q ws bs2 j
              (N.of_nat (length vs - i) + N.of_nat (length (contents mids)))%N)
    as (s3 & Hrun3 & Hchain3 & Hnd3 & Htot3 & Hout3).
  { done. }
  { eapply sublist_NoDup; [exact Hnd1|]. rewrite !fmap_app.
    apply sublist_app; [done|]. by apply sublist_inserts_l. }
  { done. }
  { rewrite Htot2, Htot1. lia. }
  { rewrite Htot2, Htot1. lia. }
  { done. }
  exists s3. split; [done|]. fold rest in Hchain3, Hnd3, Hout3.
  rewrite <- app_assoc in Hchain3, Hnd3, Hout3.
  split; cycle 1.
  { by rewrite Hout3, Hout2, Hout1. }
  split; [done|]. split; [done|].
  rewrite Htot3, Htot2, Htot1. split; [| split; [lia | done]].
  rewrite !contents_app. unfold start, rest.
  rewrite contents_kept_front, contents_kept_back.
  rewrite !length_app, length_take, length_drop. lia.
Qed.

End EraseAcrossNodes.
(** ** [erase(first, last)] on a well-formed container *)

Section EraseRange.

Context {T : Type}.
Variable NodeMaxSize : N.
Implicit Types (s : @state T) (n : @Node T) (p q : loc) (bs : list (loc * list T)).
Implicit Types (vs ws : list T).

(** A node occurs once in a chain of distinct nodes. *)
Lemma block_unique bs1 p vs bs2 bs1' vs' bs2' :
  NoDup (bs1 ++ (p, vs) :: bs2).*1 →
  bs1 ++ (p, vs) :: bs2 = bs1' ++ (p, vs') :: bs2' →
  bs1 = bs1' ∧ vs = vs' ∧ bs2 = bs2'.
Proof.
  intros Hnd Heq.
  pose proof (NoDup_block_l _ _ _ _ Hnd) as Hl.
  pose proof (NoDup_block_r _ _ _ _ Hnd) as Hr.
  apply app_eq_inv in Heq as [(k & -> & Hk) | (k & -> & Hk)].
  - destruct k as [| b k].
    + simpl in Hk. inversion Hk. by rewrite app_nil_r.
    + simpl in Hk. inversion Hk; subst. exfalso. apply Hl.
      rewrite fmap_app, fmap_cons. apply elem_of_app. right. left.
  - destruct k as [| b k].
    + simpl in Hk. inversion Hk. by rewrite app_nil_r.
    + simpl in Hk. inversion Hk; subst. exfalso. apply Hr.
      rewrite fmap_app, fmap_cons. apply elem_of_app. right. left.
Qed.

(** Two different nodes of a chain come one before the other. *)
Lemma block_order bs1 p vs bs2 bs1' q ws bs2' :
  p ≠ q →
  bs1 ++ (p, vs) :: bs2 = bs1' ++ (q, ws) :: bs2' →
  (∃ mids, bs2 = mids ++ (q, ws) :: bs2' ∧ bs1' = bs1 ++ (p, vs) :: mids)
  ∨ (∃ mids, bs2' = mids ++ (p, vs) :: bs2 ∧ bs1 = bs1' ++ (q, ws) :: mids).
Proof.
  intros Hpq Heq.
  apply app_eq_inv in Heq as [(k & -> & Hk) | (k & -> & Hk)].
  - destruct k as [| b k]; simpl in Hk; inversion Hk; subst; [done|].
    right. by exists k.
  - destruct k as [| b k]; simpl in Hk; inversion Hk; subst; [done|].
    left. by exists k.
Qed.

(** The elements that stay when a range inside one node goes. *)
Lemma take_drop_same (c1 vs c2 : list T) (i j : nat) :
  i ≤ j → j ≤ length vs →
  take (length c1 + i) (c1 ++ vs ++ c2) ++ drop (length c1 + j) (c1 ++ vs ++ c2)
  = c1 ++ (take i vs ++ drop j vs) ++ c2.
Proof.
  intros Hij Hj. rewrite take_app_add, drop_app_add, <- !app_assoc. f_equal.
  rewrite take_app_le, drop_app_le by lia. reflexivity.
Qed.

(** The elements that stay when a range across nodes goes. *)
Lemma take_drop_across (c1 vs cm ws c2 : list T) (i j : nat) :
  i ≤ length vs → j ≤ length ws →
  take (length c1 + i) (c1 ++ vs ++ cm ++ ws ++ c2)
  ++ drop (length (c1 ++ vs ++ cm) + j) (c1 ++ vs ++ cm ++ ws ++ c2)
  = c1 ++ take i vs ++ drop j ws ++ c2.
Proof.
  intros Hi Hj. rewrite take_app_add, <- app_assoc. f_equal.
  rewrite take_app_le by lia. f_equal.
  replace (c1 ++ vs ++ cm ++ ws ++ c2) with ((c1 ++ vs ++ cm) ++ ws ++ c2)
    by by rewrite <- !app_assoc.
  rewrite drop_app_add, drop_app_le by lia. reflexivity.
Qed.

(** The two ways [erase(first, last)] starts once its range is not empty. *)
Lemma erase_range_inner s p (i : N) q (j : N) :
  Iter (Some p) i ≠ Iter (Some q) j →
  total_size (obj s) ≠ 0%N →
  erase_range (Iter (Some p) i) (Iter (Some q) j) s
  = if decide (p = q) then erase_same_node p i j s
    else erase_across_nodes p i q j s.
Proof.
  intros Hne Htot. unfold erase_range.
  unfold bind at 1. unfold get_obj at 1.
  rewrite decide_False by tauto.
  cbn [current_node index_in_node]. unfold bind, ret. cbn [fst snd].
  by destruct (decide (p = q)).
Qed.

Lemma erase_range_to_end s p (i : N) t n :
  tail (obj s) = Some t → mem s !! t = Some n →
  total_size (obj s) ≠ 0%N →
  erase_range (Iter (Some p) i) (Iter None 0) s
  = if decide (p = t) then erase_same_node p i (count n) s
    else erase_across_nodes p i t (count n) s.
Proof.
  intros Htl Ht Htot. unfold erase_range.
  unfold bind at 1. unfold get_obj at 1.
  rewrite decide_False by (intros [Heq | Heq]; [discriminate | done]).
  cbn [current_node index_in_node].
  rewrite Htl. unfold deref.
  rewrite bind_assoc. unfold bind at 1. unfold ret at 1.
  rewrite bind_assoc, (bind_Ret _ _ _ _ _ (get_node_Some _ _ _ Ht)).
  unfold bind, ret. cbn [fst snd].
  by destruct (decide (p = t)).
Qed.

Lemma repr_total_nonzero s bs1 p vs bs2 (i : nat) :
  repr NodeMaxSize s (bs1 ++ (p, vs) :: bs2) → i < length vs →
  total_size (obj s) ≠ 0%N.
Proof.
  intros (_ & _ & Hsize & _) Hi. rewrite Hsize, contents_block, !length_app. lia.
Qed.

Lemma repr_tail s bs p vs :
  repr NodeMaxSize s (bs ++ [(p, vs)]) →
  tail (obj s) = Some p
  ∧ ∃ n, mem s !! p = Some n ∧ count n = N.of_nat (length vs).
Proof.
  intros (Hchain & _). apply chain_last in Hchain as (Htl & n & Hp & Hh & _).
  split; [done|]. exists n. split; [done|]. by destruct Hh.
Qed.

(** A range inside one node, ending before an element of the node. *)
Lemma erase_range_same s bs1 p vs bs2 (i j : nat) :
  repr NodeMaxSize s (bs1 ++ (p, vs) :: bs2) →
  i < j → j < length vs →
  ∃ s', erase_range (Iter (Some p) (N.of_nat i)) (Iter (Some p) (N.of_nat j)) s
        = Ret (Iter (Some p) (N.of_nat i)) s'
        ∧ repr NodeMaxSize s' (bs1 ++ (p, take i vs ++ drop j vs) :: bs2)
        ∧ outside s' (bs1 ++ (p, take i vs ++ drop j vs) :: bs2)
          = outside s (bs1 ++ (p, vs) :: bs2).
Proof.
  intros Hrepr Hij Hj.
  rewrite erase_range_inner.
  - rewrite decide_True by done.
    apply erase_same_node_keep; [done | done | lia |].
    intros Hnil. apply (f_equal length) in Hnil.
    rewrite length_app, length_take, length_drop in Hnil. simpl in Hnil. lia.
  - intros Heq. inversion Heq. lia.
  - apply (repr_total_nonzero s bs1 p vs bs2 j Hrepr). lia.
Qed.

(** A range from one node into a later one, ending before an element. *)
Lemma erase_range_across s bs1 p vs mids q ws bs2 (i j : nat) :
  repr NodeMaxSize s (bs1 ++ (p, vs) :: mids ++ (q, ws) :: bs2) →
  i < length vs → j < length ws →
  ∃ s', erase_range (Iter (Some p) (N.of_nat i)) (Iter (Some q) (N.of_nat j)) s
        = Ret (Iter (Some q) 0) s'
        ∧ repr NodeMaxSize s'
            (bs1 ++ (if decide (i = 0) then [] else [(p, take i vs)])
                 ++ (q, drop j ws) :: bs2)
        ∧ outside s' (bs1 ++ (if decide (i = 0) then [] else [(p, take i vs)])
                          ++ (q, drop j ws) :: bs2)
          = outside s (bs1 ++ (p, vs) :: mids ++ (q, ws) :: bs2).
Proof.
  intros Hrepr Hi Hj.
  assert (Hpq : p ≠ q).
  { intros ->. destruct Hrepr as (_ & Hnd & _). apply NoDup_block_r in Hnd.
    apply Hnd. rewrite fmap_app, fmap_cons. apply elem_of_app. right. left. }
  rewrite erase_range_inner.
  - rewrite decide_False by done.
    destruct (erase_across_nodes_repr NodeMaxSize s bs1 p vs mids q ws bs2 i j
                Hrepr Hi ltac:(lia)) as (s' & Hrun & Hrepr' & Hout).
    rewrite (decide_False (P := j = length ws)) in Hrun by lia.
    rewrite (decide_False (P := j = length ws)) in Hrepr' by lia.
    rewrite (decide_False (P := j = length ws)) in Hout by lia.
    exists s'. split; [done|]. split; [exact Hrepr' | exact Hout].
  - intros Heq. inversion Heq. done.
  - by apply (repr_total_nonzero s bs1 p vs _ i Hrepr).
Qed.

(** A range from a node that is not the last up to the end. *)
Lemma erase_range_suffix_across s bs1 p vs mids q ws (i : nat) :
  repr NodeMaxSize s (bs1 ++ (p, vs) :: mids ++ [(q, ws)]) →
  i < length vs →
  ∃ s', erase_range (Iter (Some p) (N.of_nat i)) (Iter None 0) s
        = Ret (Iter None 0) s'
        ∧ repr NodeMaxSize s'
            (bs1 ++ (if decide (i = 0) then [] else [(p, take i vs)]))
        ∧ outside s' (bs1 ++ (if decide (i = 0) then [] else [(p, take i vs)]))
          = outside s (bs1 ++ (p, vs) :: mids ++ [(q, ws)]).
Proof.
  intros Hrepr Hi.
  assert (Hpq : p ≠ q).
  { intros ->. destruct Hrepr as (_ & Hnd & _). apply NoDup_block_r in Hnd.
    apply Hnd. rewrite fmap_app, fmap_cons. apply elem_of_app. right. left. }
  pose proof Hrepr as Htl.
  replace (bs1 ++ (p, vs) :: mids ++ [(q, ws)])
    with ((bs1 ++ (p, vs) :: mids) ++ [(q, ws)]) in Htl
    by by rewrite <- app_assoc.
  apply repr_tail in Htl as (Htl & n & Hq & Hcnt).
  rewrite (erase_range_to_end s p _ q n Htl Hq).
  - rewrite decide_False by done. rewrite Hcnt.
    destruct (erase_across_nodes_repr NodeMaxSize s bs1 p vs mids q ws [] i (length ws)
                Hrepr Hi ltac:(lia)) as (s' & Hrun & Hrepr' & Hout).
    rewrite (decide_True (P := length ws = length ws)) in Hrun by done.
    rewrite (decide_True (P := length ws = length ws)) in Hrepr' by done.
    rewrite (decide_True (P := length ws = length ws)) in Hout by done.
    rewrite !app_nil_r in Hrepr', Hout.
    exists s'. split; [done|]. by split.
  - by apply (repr_total_nonzero s bs1 p vs _ i Hrepr).
Qed.

(** All the elements of the last node up to the end. *)
Lemma erase_range_whole_tail s bs1 p vs :
  repr NodeMaxSize s (bs1 ++ [(p, vs)]) →
  ∃ s', erase_range (Iter (Some p) 0) (Iter None 0) s = Ret (Iter None 0) s'
        ∧ repr NodeMaxSize s' bs1
        ∧ outside s' bs1 = outside s (bs1 ++ [(p, vs)]).
Proof.
  intros Hrepr.
  assert (Hne : 0 < length vs).
  { destruct Hrepr as (Hchain & _). apply seg_block in Hchain as (n & _ & _ & Hne & _).
    destruct vs; [done | simpl; lia]. }
  pose proof (repr_tail _ _ _ _ Hrepr) as (Htl & n & Hp & Hcnt).
  rewrite (erase_range_to_end s p _ p n Htl Hp).
  - rewrite decide_True by done. rewrite Hcnt.
    destruct (erase_same_node_all NodeMaxSize s bs1 p vs [] Hrepr)
      as (s' & Hrun & Hrepr' & _ & Hout).
    rewrite app_nil_r in Hrepr', Hout.
    exists s'. split; [done|]. by split.
  - by apply (repr_total_nonzero s bs1 p vs _ 0 Hrepr).
Qed.

(** A proper suffix of the last node up to the end: the node keeps its
    first [i] elements, and the iterator returned is the one passed in,
    index [i] of a node that now holds [i] elements. *)
Lemma erase_range_tail_suffix s bs1 p vs (i : nat) :
  repr NodeMaxSize s (bs1 ++ [(p, vs)]) →
  0 < i → i < length vs →
  ∃ s', erase_range (Iter (Some p) (N.of_nat i)) (Iter None 0) s
        = Ret (Iter (Some p) (N.of_nat i)) s'
        ∧ repr NodeMaxSize s' (bs1 ++ [(p, take i vs)])
        ∧ outside s' (bs1 ++ [(p, take i vs)]) = outside s (bs1 ++ [(p, vs)]).
Proof.
  intros Hrepr Hi0 Hi.
  pose proof (repr_tail _ _ _ _ Hrepr) as (Htl & n & Hp & Hcnt).
  rewrite (erase_range_to_end s p _ p n Htl Hp).
  - rewrite decide_True by done. rewrite Hcnt.
    destruct (erase_same_node_keep NodeMaxSize s bs1 p vs [] i (length vs) Hrepr Hi
                ltac:(lia)) as (s' & Hrun & Hrepr' & Hout).
    + intros Hnil. apply (f_equal length) in Hnil.
      rewrite length_app, length_take in Hnil. simpl in Hnil. lia.
    + rewrite drop_all, app_nil_r in Hrepr', Hout.
      exists s'. split; [done|]. by split.
  - by apply (repr_total_nonzero s bs1 p vs _ i Hrepr).
Qed.

(** [erase(first, last)] for two valid iterators, [first] before [last], of
    a well-formed container, with the nodes outside the chain. *)
Lemma erase_range_at s bs first last (k1 k2 : nat) :
  repr NodeMaxSize s bs →
  position bs first k1 → position bs last k2 → k1 < k2 →
  ∃ it s' bs',
    erase_range first last s = Ret it s'
    ∧ repr NodeMaxSize s' bs'
    ∧ contents bs' = take k1 (contents bs) ++ drop k2 (contents bs)
    ∧ outside s' bs' = outside s bs
    ∧ if decide (last = Iter None 0 ∧ current_node first = tail (obj s)
                 ∧ index_in_node first ≠ 0%N)
      then it = first ∧ ∀ k, ¬ position bs' it k
      else position bs' it k1.
Proof.
  intros Hrepr Hf Hl Hk.
  destruct Hf as [| bs1 p vs bs2 i Hbs Hi].
  { apply position_le in Hl. lia. }
  subst bs. cbn [current_node index_in_node].
  pose proof Hrepr as (Hchain & Hnd & _).
  destruct Hl as [| bs1' q ws bs2' j Hbs' Hj].
  - (* up to the end *)
    destruct bs2 as [| [q ws] bs2 _] using rev_ind.
    + pose proof (repr_tail _ _ _ _ Hrepr) as (Htl & _).
      destruct (decide (i = 0)) as [-> | Hi0].
      * destruct (erase_range_whole_tail s bs1 p vs Hrepr) as (s' & Hrun & Hrepr' & Hout).
        exists (Iter None 0), s', bs1. split; [done|]. split; [done|].
        split; [| split; [exact Hout|]].
        -- rewrite contents_snoc, drop_all, app_nil_r, Nat.add_0_r.
           by rewrite take_app_length.
        -- rewrite decide_False by (intros (_ & _ & ?); done).
           rewrite Nat.add_0_r. constructor.
      * destruct (erase_range_tail_suffix s bs1 p vs i Hrepr ltac:(lia) Hi)
          as (s' & Hrun & Hrepr' & Hout).
        exists (Iter (Some p) (N.of_nat i)), s', (bs1 ++ [(p, take i vs)]).
        split; [done|]. split; [done|]. split; [| split; [exact Hout|]].
        -- rewrite !contents_snoc, drop_all, app_nil_r. by rewrite take_app_add.
        -- rewrite decide_True by (split; [done | split; [by rewrite Htl | lia]]).
           split; [done|]. intros k Hpos.
           inversion Hpos as [| bs1'' p' vs' bs2'' i' Hbs'' Hi' [Hp' Hii'] Hk'].
           subst p'. destruct Hrepr' as (_ & Hnd' & _).
           destruct (block_unique _ _ _ _ _ _ _ Hnd' Hbs'') as (_ & <- & _).
           rewrite length_take in Hi'. lia.
    + assert (Hpq : p ≠ q).
      { intros ->. apply NoDup_block_r in Hnd. apply Hnd.
        rewrite fmap_app. apply elem_of_app. right. left. }
      pose proof Hrepr as Htl.
      replace (bs1 ++ (p, vs) :: bs2 ++ [(q, ws)])
        with ((bs1 ++ (p, vs) :: bs2) ++ [(q, ws)]) in Htl
        by by rewrite <- app_assoc.
      apply repr_tail in Htl as (Htl & _).
      destruct (erase_range_suffix_across s bs1 p vs bs2 q ws i Hrepr Hi)
        as (s' & Hrun & Hrepr' & Hout).
      eexists (Iter None 0), s', _. split; [done|]. split; [exact Hrepr'|].
      assert (Hc : contents (bs1 ++ (if decide (i = 0) then [] else [(p, take i vs)]))
                   = contents bs1 ++ take i vs).
      { by rewrite contents_app, contents_kept_front. }
      split; [| split; [exact Hout|]].
      -- rewrite Hc, drop_all, app_nil_r, contents_block, take_app_add.
         by rewrite take_app_le by lia.
      -- rewrite decide_False; cycle 1.
         { intros (_ & Hpt & _). rewrite Htl in Hpt. by inversion Hpt. }
         replace (length (contents bs1) + i)
           with (length (contents (bs1 ++ (if decide (i = 0) then []
                                            else [(p, take i vs)])))).
         ++ constructor.
         ++ rewrite Hc, length_app, length_take. lia.
  - (* up to an element *)
    assert (Hno : ¬ (Iter (Some q) (N.of_nat j) = Iter None 0
                     ∧ Some p = tail (obj s) ∧ N.of_nat i ≠ 0%N))
      by (intros (? & _); done).
    destruct (decide (p = q)) as [<- | Hpq].
    + destruct (block_unique _ _ _ _ _ _ _ Hnd Hbs') as (<- & <- & <-).
      destruct (erase_range_same s bs1 p vs bs2 i j Hrepr ltac:(lia) Hj)
        as (s' & Hrun & Hrepr' & Hout).
      eexists _, s', _. split; [done|]. split; [exact Hrepr'|].
      split; [| split; [exact Hout|]].
      * rewrite !contents_block. apply eq_sym, take_drop_same; lia.
      * rewrite decide_False by done. eapply position_at; [reflexivity|].
        rewrite length_app, length_take, length_drop. lia.
    + apply block_order in Hbs' as [(mids & -> & ->) | (mids & -> & ->)]; [| | done].
      * destruct (erase_range_across s bs1 p vs mids q ws bs2' i j Hrepr Hi Hj)
          as (s' & Hrun & Hrepr' & Hout).
        eexists _, s', _. split; [done|]. split; [exact Hrepr'|].
        assert (Hc : contents (bs1 ++ (if decide (i = 0) then [] else [(p, take i vs)]))
                     = contents bs1 ++ take i vs).
        { by rewrite contents_app, contents_kept_front. }
        split; [| split; [exact Hout|]].
        -- rewrite app_assoc, contents_block, Hc.
           rewrite (contents_block bs1 p vs mids).
           rewrite !contents_block.
           rewrite take_drop_across by lia. by rewrite <- !app_assoc.
        -- rewrite decide_False by done.
           pose proof (position_at
                         (bs1 ++ (if decide (i = 0) then [] else [(p, take i vs)])
                              ++ (q, drop j ws) :: bs2')
                         (bs1 ++ (if decide (i = 0) then [] else [(p, take i vs)]))
                         q (drop j ws) bs2' 0) as Hpos.
           rewrite Hc, length_app, length_take, Nat.add_0_r in Hpos.
           replace (length (contents bs1) + i `min` length vs)
             with (length (contents bs1) + i) in Hpos by lia.
           apply Hpos; [by rewrite <- app_assoc | rewrite length_drop; lia].
      * rewrite contents_block, !length_app in Hk. lia.
Qed.

(** [erase(first, last)] for two valid iterators, [first] before [last], of
    a well-formed container: the call returns, the container stays
    well-formed and loses exactly the elements of the range.  The iterator
    returned denotes the element that followed the range (or is [end()]) in
    every case but one: when [last] is [end()] and [first] points into the
    last node past its first element, the iterator passed in comes back,
    which is no iterator of the container any more. *)
Theorem erase_range_repr s bs first last (k1 k2 : nat) :
  repr NodeMaxSize s bs →
  position bs first k1 → position bs last k2 → k1 < k2 →
  ∃ it s' bs',
    erase_range first last s = Ret it s'
    ∧ repr NodeMaxSize s' bs'
    ∧ contents bs' = take k1 (contents bs) ++ drop k2 (contents bs)
    ∧ if decide (last = Iter None 0 ∧ current_node first = tail (obj s)
                 ∧ index_in_node first ≠ 0%N)
      then it = first ∧ ∀ k, ¬ position bs' it k
      else position bs' it k1.
Proof.
  intros Hrepr Hf Hl Hk.
  destruct (erase_range_at s bs first last k1 k2 Hrepr Hf Hl Hk)
    as (it & s' & bs' & Hrun & Hrepr' & Hcont & _ & Hit).
  by exists it, s', bs'.
Qed.

End EraseRange.
(** ** [erase(pos)], [pop_front] and [pop_back] *)

Section EraseOne.

Context {T : Type}.
Variable NodeMaxSize : N.
Implicit Types (s : @state T) (n : @Node T) (p q : loc) (bs : list (loc * list T)).
Implicit Types (vs ws : list T).

Lemma position_end_iff bs it (k : nat) :
  position bs it k → (it = Iter None 0 ↔ k = length (contents bs)).
Proof.
  intros [| bs1 p vs bs2 i -> Hi]; [done|].
  rewrite contents_block, !length_app. split; [done | lia].
Qed.

(** [++it] on an iterator to an element is the iterator to the next
    element, or [end()] after the last. *)
Lemma iter_inc_position s bs pos (k : nat) :
  repr NodeMaxSize s bs → position bs pos k → k < length (contents bs) →
  ∃ pos', iter_inc pos s = Ret pos' s ∧ position bs pos' (S k).
Proof.
  intros (Hchain & _ & _ & _ & Hfits) Hpos Hk.
  destruct Hpos as [| bs1 p vs bs2 i -> Hi]; [lia|].
  pose proof Hchain as Hc. apply seg_block in Hc as (n & Hp & Hh & Hne & H1 & H2).
  destruct (decide (S i < length vs)) as [Hin | Hlast].
  - exists (Iter (Some p) (N.of_nat (S i))). split.
    + by apply (iter_inc_inside NodeMaxSize Hfits s p n vs i).
    + rewrite <- Nat.add_succ_r. by eapply position_at.
  - exists (Iter (next n) 0). split.
    + apply (iter_inc_last NodeMaxSize Hfits s p n vs i); [done | done | lia].
    + rewrite (seg_start _ _ _ _ _ _ H2).
      destruct bs2 as [| [q ws] bs2]; simpl.
      * replace (S (length (contents bs1) + i))
          with (length (contents (bs1 ++ [(p, vs)]))).
        -- constructor.
        -- rewrite contents_snoc, length_app. lia.
      * destruct H2 as (_ & nq & _ & _ & _ & Hwne & _).
        pose proof (position_at (bs1 ++ (p, vs) :: (q, ws) :: bs2)
                      (bs1 ++ [(p, vs)]) q ws bs2 0) as Hpos.
        rewrite contents_snoc, length_app, Nat.add_0_r in Hpos.
        replace (S (length (contents bs1) + i))
          with (length (contents bs1) + length vs) by lia.
        apply Hpos; [by rewrite <- app_assoc |].
        destruct ws; [done | simpl; lia].
Qed.

(** [erase(pos)] at an iterator to an element of a well-formed container,
    with the nodes outside the chain. *)
Lemma erase_at s bs pos (k : nat) :
  repr NodeMaxSize s bs → position bs pos k → k < length (contents bs) →
  ∃ it s' bs',
    erase pos s = Ret it s'
    ∧ repr NodeMaxSize s' bs'
    ∧ contents bs' = take k (contents bs) ++ drop (S k) (contents bs)
    ∧ outside s' bs' = outside s bs
    ∧ if decide (S k = length (contents bs) ∧ current_node pos = tail (obj s)
                 ∧ index_in_node pos ≠ 0%N)
      then it = pos ∧ ∀ k', ¬ position bs' it k'
      else position bs' it k.
Proof.
  intros Hrepr Hpos Hk.
  destruct (iter_inc_position s bs pos k Hrepr Hpos Hk) as (pos' & Hinc & Hpos').
  destruct (erase_range_at NodeMaxSize s bs pos pos' k (S k) Hrepr Hpos Hpos'
              ltac:(lia)) as (it & s' & bs' & Hrun & Hrepr' & Hcont & Hout & Hit).
  exists it, s', bs'. split; [| split; [done | split; [done | split; [done|]]]].
  - unfold erase. by rewrite (bind_Ret _ _ _ _ _ Hinc).
  - pose proof (position_end_iff bs pos' (S k) Hpos') as Hend.
    destruct (decide (pos' = Iter None 0 ∧ current_node pos = tail (obj s)
                      ∧ index_in_node pos ≠ 0%N)) as [(He & Ht & Hi) | Hno].
    + rewrite decide_True; [done|]. split; [by apply Hend | done].
    + rewrite decide_False; [done|]. intros (He & Ht & Hi). apply Hno.
      split; [by apply Hend | done].
Qed.

(** [erase(pos)] at an iterator to an element of a well-formed container:
    the call returns, the container stays well-formed and loses that
    element.  The iterator returned denotes the element that followed, or
    is [end()] when a whole node went with the last element; when the last
    element is erased from a node that keeps other elements, the iterator
    passed in comes back, which is no iterator of the container any more. *)
Theorem erase_repr s bs pos (k : nat) :
  repr NodeMaxSize s bs → position bs pos k → k < length (contents bs) →
  ∃ it s' bs',
    erase pos s = Ret it s'
    ∧ repr NodeMaxSize s' bs'
    ∧ contents bs' = take k (contents bs) ++ drop (S k) (contents bs)
    ∧ if decide (S k = length (contents bs) ∧ current_node pos = tail (obj s)
                 ∧ index_in_node pos ≠ 0%N)
      then it = pos ∧ ∀ k', ¬ position bs' it k'
      else position bs' it k.
Proof.
  intros Hrepr Hpos Hk.
  destruct (erase_at s bs pos k Hrepr Hpos Hk)
    as (it & s' & bs' & Hrun & Hrepr' & Hcont & _ & Hit).
  by exists it, s', bs'.
Qed.

(** [pop_front] on a non-empty well-formed container removes the first
    element. *)
Theorem pop_front_repr s bs :
  repr NodeMaxSize s bs → contents bs ≠ [] →
  ∃ s' bs', pop_front s = Ret () s' ∧ repr NodeMaxSize s' bs'
            ∧ contents bs' = drop 1 (contents bs).
Proof.
  intros Hrepr Hne.
  destruct bs as [| [p vs] bs]; [done|].
  pose proof Hrepr as (Hchain & _).
  destruct Hchain as (Hhd & n & Hp & _ & Hh & Hvne & _).
  assert (Hlen : 0 < length vs) by (destruct vs; [done | simpl; lia]).
  pose proof (position_at ((p, vs) :: bs) [] p vs bs 0 eq_refl Hlen) as Hpos.
  destruct (erase_repr s _ _ _ Hrepr Hpos) as (it & s' & bs' & Hrun & Hrepr' & Hcont & _).
  { rewrite contents_cons, length_app. simpl. lia. }
  exists s', bs'. split; [| done].
  unfold pop_front, begin_.
  rewrite bind_assoc. unfold bind at 1. unfold get_obj at 1.
  unfold ret at 1. unfold bind at 1. rewrite Hhd.
  by rewrite (bind_Ret _ _ _ _ _ Hrun).
Qed.

(** [pop_back] on a non-empty well-formed container removes the last
    element. *)
Theorem pop_back_repr s bs :
  repr NodeMaxSize s bs → contents bs ≠ [] →
  ∃ s' bs', pop_back s = Ret () s' ∧ repr NodeMaxSize s' bs'
            ∧ contents bs' = take (length (contents bs) - 1) (contents bs).
Proof.
  intros Hrepr Hne.
  destruct bs as [| [p vs] bs _] using rev_ind; [done|].
  pose proof Hrepr as (Hchain & _ & _ & _ & Hfits).
  apply chain_last in Hchain as (Htl & n & Hp & Hh & Hvne & _).
  pose proof (holds_length _ _ _ Hh) as Hle.
  assert (Hlen : 0 < length vs) by (destruct vs; [done | simpl; lia]).
  pose proof (position_at (bs ++ [(p, vs)]) bs p vs [] (length vs - 1) eq_refl
                ltac:(lia)) as Hpos.
  destruct (erase_repr s _ _ _ Hrepr Hpos) as (it & s' & bs' & Hrun & Hrepr' & Hcont & _).
  { rewrite contents_snoc, length_app. lia. }
  exists s', bs'. split; [| split; [done|]].
  - unfold pop_back, end_.
    unfold bind at 1. unfold ret at 1.
    unfold iter_dec. cbn [current_node].
    rewrite bind_assoc. unfold bind at 1. unfold get_obj at 1. rewrite Htl.
    rewrite bind_assoc, (bind_Ret _ _ _ _ _ (get_node_Some _ _ _ Hp)).
    unfold bind at 1. unfold ret at 1.
    destruct Hh as (Hcnt & _). rewrite Hcnt, size_sub_small by lia.
    replace (N.of_nat (length vs) - 1)%N with (N.of_nat (length vs - 1)) by lia.
    by rewrite (bind_Ret _ _ _ _ _ Hrun).
  - rewrite Hcont, contents_snoc, length_app.
    replace (S (length (contents bs) + (length vs - 1)))
      with (length (contents bs ++ vs)) by (rewrite length_app; lia).
    rewrite drop_all, app_nil_r. f_equal. lia.
Qed.

End EraseOne.
(** ** [clear] *)

Section Clear.

Context {T : Type}.
Variable NodeMaxSize : N.
Implicit Types (s : @state T) (n : @Node T) (p q : loc) (bs : list (loc * list T)).

(** The loop of [clear] gives back every node of the chain. *)
Lemma clear_loop_spec bs : ∀ s pv cur tl fuel,
  seg NodeMaxSize (mem s) pv cur bs tl None →
  NoDup bs.*1 →
  length bs ≤ fuel →
  (NodeMaxSize < SIZE_MOD)%N →
  ∃ s', clear_loop fuel cur s = Ret () s'
        ∧ obj s' = obj s
        ∧ dom (mem s') = dom (mem s) ∖ list_to_set bs.*1
        ∧ (∀ x, x ∉ bs.*1 → mem s' !! x = mem s !! x).
Proof.
  induction bs as [| [c us] bs IH]; intros s pv cur tl fuel Hseg Hnd Hfuel Hfits.
  - destruct Hseg as [_ <-]. exists s.
    split; [by destruct fuel|]. split; [done|]. split; [| done].
    simpl. by rewrite difference_empty_L.
  - destruct fuel as [| fuel]; [simpl in Hfuel; lia|].
    destruct Hseg as (-> & n & Hc & Hpv & Hh & Hne & Hrest).
    rewrite fmap_cons in Hnd. apply list.NoDup_cons in Hnd as [Hc' Hnd].
    pose proof (holds_length _ _ _ Hh) as Hle.
    destruct Hh as (Hcnt & Hlen & _).
    simpl. rewrite (bind_Ret _ _ _ _ _ (get_node_Some _ _ _ Hc)).
    rewrite (bind_Ret _ _ _ _ _ (destroy_node_spec s c n Hc ltac:(lia) ltac:(lia))).
    destruct (IH (free s c) (Some c) (next n) tl fuel) as (s' & Hrun & Hobj & Hdom & Hframe).
    + eapply seg_frame; [| exact Hrest].
      intros y Hy. apply lookup_delete_ne. by intros ->.
    + done.
    + simpl in Hfuel. lia.
    + done.
    + exists s'. split; [done|]. split; [done|]. split.
      * rewrite Hdom. cbn [mem free]. rewrite dom_delete_L.
        cbn [fmap list_fmap list_to_set fst]. by rewrite difference_difference_l_L.
      * intros x Hx. cbn [fmap list_fmap fst] in Hx. apply not_elem_of_cons in Hx as [Hxc Hx].
        rewrite (Hframe x Hx). cbn [mem free]. by apply lookup_delete_ne.
Qed.

(** [clear] on a well-formed container. *)
Lemma clear_at s bs :
  repr NodeMaxSize s bs →
  ∃ s', clear s = Ret () s'
        ∧ repr NodeMaxSize s' []
        ∧ dom (mem s') = dom (mem s) ∖ list_to_set bs.*1
        ∧ (∀ x, x ∉ bs.*1 → mem s' !! x = mem s !! x)
        ∧ outside s' [] = outside s bs.
Proof.
  intros (Hchain & Hnd & _ & _ & Hfits).
  destruct (clear_loop_spec bs s None (head (obj s)) (tail (obj s))
              (S (base.size (mem s))) Hchain Hnd) as (s' & Hrun & Hobj & Hdom & Hframe).
  { apply seg_size in Hchain; [lia | done]. }
  { done. }
  eexists. split.
  - unfold clear. unfold bind at 1. unfold get_obj at 1.
    unfold bind at 1.
    rewrite (bind_Ret _ _ _ _ _ Hrun). reflexivity.
  - split; [| split; [done | split; [done|]]].
    + unfold repr, chain. simpl. split; [done|]. split; [constructor|].
      split; [done|]. split; [by unfold SIZE_MOD | done].
    + unfold outside. simpl. by rewrite Hdom, difference_empty_L.
Qed.

(** [clear] on a well-formed container gives back all its nodes and leaves
    the empty container. *)
Theorem clear_repr s bs :
  repr NodeMaxSize s bs →
  ∃ s', clear s = Ret () s'
        ∧ repr NodeMaxSize s' []
        ∧ dom (mem s') = dom (mem s) ∖ list_to_set bs.*1.
Proof.
  intros Hrepr.
  destruct (clear_at s bs Hrepr) as (s' & Hrun & Hrepr' & Hdom & _).
  by exists s'.
Qed.

End Clear.

(** ** Moving backwards *)

Section Backwards.

Context {T : Type}.
Variable NodeMaxSize : N.
Implicit Types (s : @state T) (n : @Node T) (p q : loc) (bs : list (loc * list T)).
Implicit Types (vs ws : list T).

Lemma seg_contents_nil (m : gmap loc (@Node T)) pv cur bs pv' cur' :
  seg NodeMaxSize m pv cur bs pv' cur' → contents bs = [] → bs = [].
Proof.
  destruct bs as [| [p vs] bs]; [done|]. simpl.
  intros (_ & n & _ & _ & _ & Hne & _) Hc. unfold contents in Hc. simpl in Hc.
  apply app_nil in Hc as [-> _]. done.
Qed.

(** The iterator that denotes index 0 is [begin()]. *)
Lemma position_zero s bs it :
  repr NodeMaxSize s bs → position bs it 0 → it = Iter (head (obj s)) 0.
Proof.
  intros (Hchain & _) Hpos.
  inversion Hpos as [Hit Hk | bs1 p vs bs2 i Hbs Hi Hit Hk].
  - assert (Hc : contents bs = []) by (apply length_zero_iff_nil; lia).
    apply (chain_contents_nil _ _ _ _ _ Hchain) in Hc. subst bs.
    destruct Hchain as [_ <-]. done.
  - assert (i = 0) as -> by lia.
    assert (Hc1 : contents bs1 = []) by (apply length_zero_iff_nil; lia).
    subst bs. apply seg_app in Hchain as (mp & mc & H1 & H2).
    apply (seg_contents_nil _ _ _ _ _ _ H1) in Hc1 as ->.
    simpl in H1. destruct H1 as [-> ->]. destruct H2 as [<- _]. done.
Qed.

(** [begin()] denotes no other index. *)
Lemma position_begin s bs (k : nat) :
  repr NodeMaxSize s bs → position bs (Iter (head (obj s)) 0) k → k = 0.
Proof.
  intros (Hchain & Hnd & _) Hpos.
  inversion Hpos as [Hit Hk | bs1 p vs bs2 i Hbs Hi [Hp Hii] Hk].
  - destruct bs as [| [p vs] bs]; [done|].
    destruct Hchain as [Hhd _]. congruence.
  - assert (i = 0) as -> by lia.
    destruct bs1 as [| [q ws] bs1]; [done|].
    subst bs. exfalso.
    pose proof Hchain as [Hhd _]. simpl in Hhd.
    assert (p = q) as -> by congruence.
    apply NoDup_block_l in Hnd. apply Hnd. rewrite fmap_cons. left.
Qed.

(** [--it] on the iterator that denotes index [k + 1] (an element that is
    not the first, or [end()] of a non-empty container) is the iterator
    that denotes index [k]. *)
Lemma iter_dec_position s bs pos (k : nat) :
  repr NodeMaxSize s bs → position bs pos (S k) →
  ∃ pos', iter_dec pos s = Ret pos' s ∧ position bs pos' k.
Proof.
  intros Hrepr Hpos.
  pose proof Hrepr as (Hchain & Hnd & Hsize & Hlt & Hfits).
  inversion Hpos as [Hit Hk | bs1 p vs bs2 i Hbs Hi Hit Hk].
  - (* from [end()] *)
    destruct bs as [| [t vs] bs0 _] using rev_ind; [done|].
    pose proof Hchain as Hc. apply chain_last in Hc as (Htl & n & Ht & Hh & Hne & _).
    pose proof (holds_length _ _ _ Hh) as Hle. destruct Hh as (Hcnt & _).
    assert (Hlen : 0 < length vs) by (destruct vs; [done | simpl; lia]).
    exists (Iter (Some t) (N.of_nat (length vs - 1))). split.
    + unfold iter_dec. cbn [current_node].
      unfold bind at 1. unfold get_obj at 1. rewrite Htl.
      rewrite (bind_Ret _ _ _ _ _ (get_node_Some _ _ _ Ht)).
      rewrite Hcnt, size_sub_small by lia.
      unfold ret. do 2 f_equal. lia.
    + rewrite contents_snoc, length_app in Hk.
      replace k with (length (contents bs0) + (length vs - 1)) by lia.
      eapply position_at; [reflexivity | lia].
  - subst bs.
    pose proof Hchain as Hc. apply seg_block in Hc as (n & Hp & Hh & Hne & H1 & H2).
    destruct (decide (i = 0)) as [-> | Hi0].
    + (* from the first element of a node to the last of the node before *)
      destruct bs1 as [| [q ws] bs1 _] using rev_ind.
      { unfold contents in Hk. simpl in Hk. lia. }
      pose proof H1 as Hprev. apply seg_last_snoc in Hprev as (Hpv & _).
      replace (bs1 ++ [(q, ws)]) with (bs1 ++ (q, ws) :: []) in H1 by done.
      apply seg_block in H1 as (nq & Hq & Hhq & Hneq & _).
      pose proof (holds_length _ _ _ Hhq) as Hle. destruct Hhq as (Hcntq & _).
      assert (Hlen : 0 < length ws) by (destruct ws; [done | simpl; lia]).
      exists (Iter (Some q) (N.of_nat (length ws - 1))). split.
      * unfold iter_dec. cbn [current_node index_in_node]. simpl.
        rewrite (bind_Ret _ _ _ _ _ (get_node_Some _ _ _ Hp)). rewrite Hpv.
        rewrite (bind_Ret _ _ _ _ _ (get_node_Some _ _ _ Hq)).
        rewrite Hcntq, size_sub_small by lia.
        unfold ret. do 2 f_equal. lia.
      * rewrite contents_snoc, length_app in Hk.
        replace k with (length (contents bs1) + (length ws - 1)) by lia.
        eapply position_at; [by rewrite <- app_assoc | lia].
    + exists (Iter (Some p) (N.of_nat (i - 1))). split.
      * unfold iter_dec. cbn [current_node index_in_node].
        destruct (N.ltb_spec 0 (N.of_nat i)) as [_ | Hge]; [| lia].
        pose proof (holds_length _ _ _ Hh) as Hle.
        rewrite size_sub_small by lia.
        unfold ret. do 2 f_equal. lia.
      * replace k with (length (contents bs1) + (i - 1)) by lia.
        eapply position_at; [reflexivity | lia].
Qed.

(** [--begin()] is [end()]: the decrement finds no node before the first
    and leaves the null iterator, so that decrementing runs around the
    container instead of leaving it. *)
Theorem dec_begin_is_end s bs :
  repr NodeMaxSize s bs →
  (b <- begin_ ;; iter_dec b) s = Ret (Iter None 0) s.
Proof.
  intros (Hchain & _). unfold begin_.
  rewrite bind_assoc. unfold bind at 1. unfold get_obj at 1.
  unfold ret at 1. unfold bind at 1.
  destruct bs as [| [p vs] bs].
  - destruct Hchain as [Htl <-]. unfold iter_dec. cbn [current_node].
    unfold bind, get_obj. by rewrite Htl.
  - destruct Hchain as (-> & n & Hp & Hpv & _).
    unfold iter_dec. cbn [current_node index_in_node]. simpl.
    rewrite (bind_Ret _ _ _ _ _ (get_node_Some _ _ _ Hp)). by rewrite Hpv.
Qed.

(** The reverse loop, from the iterator that denotes index [k] down to
    [begin()], reads the first [k] elements backwards. *)
Lemma rev_iterate_position s bs : ∀ (k : nat) cur (fuel : nat),
  repr NodeMaxSize s bs → position bs cur k → k < fuel →
  rev_iterate fuel cur s = Ret (rev (take k (contents bs))) s.
Proof.
  induction k as [| k IH]; intros cur fuel Hrepr Hpos Hfuel.
  - destruct fuel as [| fuel]; [lia|].
    rewrite (position_zero s bs cur Hrepr Hpos). simpl.
    unfold begin_, bind, get_obj, ret. by rewrite decide_True.
  - destruct fuel as [| fuel]; [lia|].
    pose proof (position_le _ _ _ Hpos) as Hk.
    destruct (iter_dec_position s bs cur k Hrepr Hpos) as (pos' & Hdec & Hpos').
    destruct (lookup_lt_is_Some_2 (contents bs) k ltac:(lia)) as [v Hv].
    simpl. unfold begin_.
    rewrite bind_assoc. unfold bind at 1. unfold get_obj at 1.
    unfold ret at 1. unfold bind at 1.
    rewrite decide_False; cycle 1.
    { intros ->. apply position_begin in Hpos; [lia | done]. }
    rewrite (bind_Ret _ _ _ _ _ Hdec).
    rewrite (bind_Ret _ _ _ _ _ (deref_position NodeMaxSize s bs pos' k v Hrepr Hpos' Hv)).
    rewrite (bind_Ret _ _ _ _ _ Hdec).
    rewrite (bind_Ret _ _ _ _ _ (IH pos' fuel Hrepr Hpos' ltac:(lia))).
    unfold ret. f_equal.
    rewrite (take_S_r _ _ _ Hv), rev_app_distr. done.
Qed.

End Backwards.

(** ** Indexing *)

Section Subscript.

Context {T : Type}.
Variable NodeMaxSize : N.
Implicit Types (s : @state T) (n : @Node T) (p q : loc) (bs : list (loc * list T)).
Implicit Types (vs ws : list T).

(** The loop stops at the node that holds the element with the given
    index, with the number of elements before that node. *)
Lemma subscript_loop_inside s (k : nat) bs : ∀ pv cur pv' (fuel c : nat),
  seg NodeMaxSize (mem s) pv cur bs pv' None →
  length bs ≤ fuel →
  (N.of_nat (c + length (contents bs)) < SIZE_MOD)%N →
  c ≤ k → k < c + length (contents bs) →
  ∃ bs1 p vs bs2,
    bs = bs1 ++ (p, vs) :: bs2
    ∧ subscript_loop fuel cur (N.of_nat c) (N.of_nat k) s
      = Ret (Some p, N.of_nat (c + length (contents bs1))) s
    ∧ c + length (contents bs1) ≤ k
    ∧ k < c + length (contents bs1) + length vs.
Proof.
  induction bs as [| [p vs] bs IH]; intros pv cur pv' fuel c Hseg Hfuel Hlt Hck Hk.
  - unfold contents in Hk. simpl in Hk. lia.
  - destruct Hseg as (-> & n & Hp & Hpv & Hh & Hne & Hrest).
    rewrite contents_cons, length_app in Hlt, Hk.
    destruct Hh as (Hcnt & _).
    destruct (decide (c + length vs ≤ k)) as [Hgo | Hstop].
    + destruct fuel as [| fuel]; [simpl in Hfuel; lia|]. simpl in Hfuel.
      destruct (IH (Some p) (next n) pv' fuel (c + length vs) Hrest)
        as (bs1 & q & ws & bs2 & -> & Hrun & Hlo & Hhi); [lia | | lia | lia |].
      { rewrite <- Nat.add_assoc. done. }
      exists ((p, vs) :: bs1), q, ws, bs2. split; [done|].
      rewrite contents_cons, length_app.
      split; [| lia].
      simpl. rewrite (bind_Ret _ _ _ _ _ (get_node_Some _ _ _ Hp)).
      rewrite Hcnt, size_add_small by lia.
      destruct (N.leb_spec (N.of_nat c + N.of_nat (length vs)) (N.of_nat k)) as [_ | ?];
        [| lia].
      replace (N.of_nat c + N.of_nat (length vs))%N with (N.of_nat (c + length vs)) by lia.
      rewrite Hrun. do 3 f_equal. lia.
    + exists [], p, vs, bs. split; [done|].
      unfold contents at 1 2. simpl. rewrite Nat.add_0_r.
      split; [| lia].
      assert (Hone : ∀ f, subscript_loop f (Some p) (N.of_nat c) (N.of_nat k) s
                          = Ret (Some p, N.of_nat c) s).
      { intros f. destruct f; simpl;
          rewrite (bind_Ret _ _ _ _ _ (get_node_Some _ _ _ Hp));
          rewrite Hcnt, size_add_small by lia;
          (destruct (N.leb_spec (N.of_nat c + N.of_nat (length vs)) (N.of_nat k));
           [lia | done]). }
      apply Hone.
Qed.

(** Past the last element the loop runs off the chain. *)
Lemma subscript_loop_outside s (index : N) bs : ∀ pv cur pv' (fuel c : nat),
  seg NodeMaxSize (mem s) pv cur bs pv' None →
  length bs ≤ fuel →
  (N.of_nat (c + length (contents bs)) < SIZE_MOD)%N →
  (N.of_nat (c + length (contents bs)) ≤ index)%N →
  subscript_loop fuel cur (N.of_nat c) index s
  = Ret (None, N.of_nat (c + length (contents bs))) s.
Proof.
  induction bs as [| [p vs] bs IH]; intros pv cur pv' fuel c Hseg Hfuel Hlt Hk.
  - destruct Hseg as [_ <-]. unfold contents. simpl. rewrite Nat.add_0_r.
    by destruct fuel.
  - destruct Hseg as (-> & n & Hp & Hpv & Hh & Hne & Hrest).
    rewrite contents_cons, length_app in Hlt, Hk |- *.
    destruct Hh as (Hcnt & _).
    destruct fuel as [| fuel]; [simpl in Hfuel; lia|]. simpl in Hfuel.
    simpl. rewrite (bind_Ret _ _ _ _ _ (get_node_Some _ _ _ Hp)).
    rewrite Hcnt, size_add_small by lia.
    destruct (N.leb_spec (N.of_nat c + N.of_nat (length vs)) index) as [_ | ?];
      [| lia].
    replace (N.of_nat c + N.of_nat (length vs))%N with (N.of_nat (c + length vs)) by lia.
    rewrite (IH (Some p) (next n) pv' fuel (c + length vs) Hrest); [| lia | |].
    + do 3 f_equal. lia.
    + rewrite <- Nat.add_assoc. done.
    + rewrite <- Nat.add_assoc. done.
Qed.

End Subscript.

(** ** Inserting many elements *)

Section Bulk.

Context {T : Type}.
Variable NodeMaxSize : N.
Hypothesis NodeMaxSize_ge_2 : (2 ≤ NodeMaxSize)%N.
Implicit Types (s : @state T) (bs : list (loc * list T)) (xs : list T).

Lemma push_back_at s bs (v : T) :
  repr NodeMaxSize s bs →
  (total_size (obj s) + 1 < SIZE_MOD)%N →
  ∃ s' bs', push_back NodeMaxSize v s = Ret () s'
            ∧ repr NodeMaxSize s' bs'
            ∧ contents bs' = contents bs ++ [v]
            ∧ outside s' bs' = outside s bs.
Proof using NodeMaxSize_ge_2.
  intros Hrepr Htot.
  destruct (emplace_at NodeMaxSize s bs (Iter None 0) _ v NodeMaxSize_ge_2 Hrepr
              (position_end bs) Htot)
    as (it & s' & bs' & Hrun & Hrepr' & Hcont & _ & _ & _ & Hout).
  exists s', bs'. split; [| split; [done | split; [| done]]].
  - unfold push_back, emplace_back, end_.
    unfold bind at 1. unfold ret at 1.
    by rewrite (bind_Ret _ _ _ _ _ Hrun).
  - by rewrite Hcont, firstn_all, drop_all.
Qed.

Lemma push_front_at s bs (v : T) :
  repr NodeMaxSize s bs →
  (total_size (obj s) + 1 < SIZE_MOD)%N →
  ∃ s' bs', push_front NodeMaxSize v s = Ret () s'
            ∧ repr NodeMaxSize s' bs'
            ∧ contents bs' = v :: contents bs
            ∧ outside s' bs' = outside s bs.
Proof using NodeMaxSize_ge_2.
  intros Hrepr Htot.
  destruct (begin_position NodeMaxSize s bs Hrepr) as (b & Hb & Hpos).
  destruct (emplace_at NodeMaxSize s bs b 0 v NodeMaxSize_ge_2 Hrepr Hpos Htot)
    as (it & s' & bs' & Hrun & Hrepr' & Hcont & _ & _ & _ & Hout).
  exists s', bs'. split; [| split; [done | split; [| done]]].
  - unfold push_front. rewrite (bind_Ret _ _ _ _ _ Hb).
    by rewrite (bind_Ret _ _ _ _ _ Hrun).
  - by rewrite Hcont, take_0, drop_0.
Qed.

Lemma repr_size s bs :
  repr NodeMaxSize s bs → total_size (obj s) = N.of_nat (length (contents bs)).
Proof. by intros (_ & _ & ? & _). Qed.

(** Pushing the elements of a range to the back, one after the other. *)
Lemma for_each_push_back xs : ∀ s bs,
  repr NodeMaxSize s bs →
  (total_size (obj s) + N.of_nat (length xs) < SIZE_MOD)%N →
  ∃ s' bs', for_each xs (push_back NodeMaxSize) s = Ret () s'
            ∧ repr NodeMaxSize s' bs'
            ∧ contents bs' = contents bs ++ xs
            ∧ outside s' bs' = outside s bs.
Proof using NodeMaxSize_ge_2.
  induction xs as [| x xs IH]; intros s bs Hrepr Htot.
  - exists s, bs. by rewrite app_nil_r.
  - simpl in Htot.
    destruct (push_back_at s bs x Hrepr ltac:(lia)) as (s1 & bs1 & Hrun1 & Hrepr1 & Hc1 & Hout1).
    pose proof (repr_size _ _ Hrepr) as Hs. pose proof (repr_size _ _ Hrepr1) as Hs1.
    rewrite Hc1, length_app in Hs1. simpl in Hs1.
    destruct (IH s1 bs1 Hrepr1 ltac:(lia)) as (s' & bs' & Hrun & Hrepr' & Hc & Hout).
    exists s', bs'. split; [| split; [done | split]].
    + simpl. by rewrite (bind_Ret _ _ _ _ _ Hrun1).
    + by rewrite Hc, Hc1, <- app_assoc.
    + by rewrite Hout, Hout1.
Qed.

(** Pushing the elements of a range to the front, one after the other:
    the last element of the range ends up first. *)
Lemma for_each_push_front xs : ∀ s bs,
  repr NodeMaxSize s bs →
  (total_size (obj s) + N.of_nat (length xs) < SIZE_MOD)%N →
  ∃ s' bs', for_each xs (push_front NodeMaxSize) s = Ret () s'
            ∧ repr NodeMaxSize s' bs'
            ∧ contents bs' = rev xs ++ contents bs
            ∧ outside s' bs' = outside s bs.
Proof using NodeMaxSize_ge_2.
  induction xs as [| x xs IH]; intros s bs Hrepr Htot.
  - by exists s, bs.
  - simpl in Htot.
    destruct (push_front_at s bs x Hrepr ltac:(lia)) as (s1 & bs1 & Hrun1 & Hrepr1 & Hc1 & Hout1).
    pose proof (repr_size _ _ Hrepr) as Hs. pose proof (repr_size _ _ Hrepr1) as Hs1.
    rewrite Hc1 in Hs1. simpl in Hs1.
    destruct (IH s1 bs1 Hrepr1 ltac:(lia)) as (s' & bs' & Hrun & Hrepr' & Hc & Hout).
    exists s', bs'. split; [| split; [done | split]].
    + simpl. by rewrite (bind_Ret _ _ _ _ _ Hrun1).
    + rewrite Hc, Hc1. simpl. by rewrite <- app_assoc.
    + by rewrite Hout, Hout1.
Qed.

(** The loop of the fill constructor. *)
Lemma fill_loop (v : T) (todo : nat) : ∀ (i : N) s bs,
  repr NodeMaxSize s bs →
  (total_size (obj s) + N.of_nat todo < SIZE_MOD)%N →
  ∃ s' bs', for_up i todo (λ _, push_back NodeMaxSize v) s = Ret () s'
            ∧ repr NodeMaxSize s' bs'
            ∧ contents bs' = contents bs ++ replicate todo v
            ∧ outside s' bs' = outside s bs.
Proof using NodeMaxSize_ge_2.
  induction todo as [| todo IH]; intros i s bs Hrepr Htot.
  - exists s, bs. by rewrite app_nil_r.
  - destruct (push_back_at s bs v Hrepr ltac:(lia)) as (s1 & bs1 & Hrun1 & Hrepr1 & Hc1 & Hout1).
    pose proof (repr_size _ _ Hrepr) as Hs. pose proof (repr_size _ _ Hrepr1) as Hs1.
    rewrite Hc1, length_app in Hs1. simpl in Hs1.
    destruct (IH (size_add i 1) s1 bs1 Hrepr1 ltac:(lia))
      as (s' & bs' & Hrun & Hrepr' & Hc & Hout).
    exists s', bs'. split; [| split; [done | split]].
    + simpl. by rewrite (bind_Ret _ _ _ _ _ Hrun1).
    + rewrite Hc, Hc1, <- app_assoc. done.
    + by rewrite Hout, Hout1.
Qed.


End Bulk.

(** ** Copying a chain *)

Section Copy.

Context {T : Type}.
Variable NodeMaxSize : N.
Implicit Types (s : @state T) (n : @Node T) (p q c : loc) (bs : list (loc * list T)).
Implicit Types (vs ws : list T).

Lemma read_elem_Live s p n (i : N) (v : T) :
  mem s !! p = Some n → data n !! N.to_nat i = Some (Live v) →
  read_elem p i s = Ret v s.
Proof.
  intros Hp Hi. unfold read_elem, get_slot. rewrite bind_assoc.
  rewrite (bind_Ret _ _ _ _ _ (get_node_Some _ _ _ Hp)). by rewrite Hi.
Qed.

(** The loop that copies the elements of a source node into a new node. *)
Lemma copy_loop c q (ws : list T) :
  ∀ (A B : list slot) (copied : list T) (r : nat) nc nq s,
  c ≠ q →
  mem s !! c = Some nc → mem s !! q = Some nq →
  data nc = A ++ (Live <$> ws) ++ B → length A = length copied →
  data nq = (Live <$> copied) ++ replicate (length ws + r) Raw →
  (N.of_nat (length copied + length ws) < SIZE_MOD)%N →
  for_up (N.of_nat (length copied)) (length ws)
    (λ i, v <- read_elem c i ;; construct q i v) s
  = Ret () (upd s q (with_data nq ((Live <$> (copied ++ ws)) ++ replicate r Raw))).
Proof.
  induction ws as [| w ws IH]; intros A B copied r nc nq s Hne Hc Hq Hdc HA Hdq Hlt.
  - simpl in *. rewrite app_nil_r, <- Hdq, with_data_id, (upd_id s q nq Hq). reflexivity.
  - simpl in Hlt. simpl length. cbn [for_up].
    assert (Hcell : data nc !! N.to_nat (N.of_nat (length copied)) = Some (Live w)).
    { rewrite Nat2N.id, Hdc, <- HA. simpl. apply lookup_at_length. }
    rewrite bind_assoc, (bind_Ret _ _ _ _ _ (read_elem_Live s c nc _ w Hc Hcell)).
    assert (Hdq' : data nq = (Live <$> copied) ++ Raw :: replicate (length ws + r) Raw).
    { by rewrite Hdq. }
    assert (Hj : N.to_nat (N.of_nat (length copied)) = length (Live <$> copied : list slot)).
    { rewrite length_fmap. lia. }
    assert (Hside : N.to_nat (N.of_nat (length copied)) < length (data nq)).
    { rewrite Hj, Hdq', length_app. simpl. lia. }
    unfold construct.
    rewrite (bind_Ret _ _ _ _ _ (set_slot_Some _ q nq _ (Live w) Hq Hside)).
    rewrite Hj, Hdq', insert_at_length.
    set (nq1 := with_data nq ((Live <$> copied) ++ Live w :: replicate (length ws + r) Raw)).
    rewrite size_add_small by lia.
    replace (N.of_nat (length copied) + 1)%N with (N.of_nat (length (copied ++ [w])))
      by (rewrite length_app; simpl; lia).
    rewrite (IH (A ++ [Live w]) B (copied ++ [w]) r nc nq1 _ Hne); cycle 1.
    { by rewrite upd_lookup_ne. }
    { apply upd_lookup. }
    { rewrite Hdc. simpl. by rewrite <- app_assoc. }
    { rewrite !length_app. simpl. lia. }
    { unfold nq1. rewrite with_data_data, fmap_app. simpl. by rewrite <- app_assoc. }
    { rewrite length_app. simpl. lia. }
    rewrite upd_upd. unfold nq1, with_data. simpl.
    by rewrite <- app_assoc.
Qed.

(** Linking a new last node behind a chain. *)
Lemma chain_snoc (m : gmap loc (@Node T)) hd bs tl q nq vs :
  chain NodeMaxSize m hd bs tl →
  NoDup bs.*1 →
  q ∉ bs.*1 →
  holds NodeMaxSize nq vs → vs ≠ [] →
  next nq = None → prev nq = tl →
  chain NodeMaxSize (<[q := nq]> (linked_behind m tl q))
        (match hd with Some h => Some h | None => Some q end)
        (bs ++ [(q, vs)]) (Some q).
Proof.
  intros Hchain Hnd Hq Hh Hne Hnx Hpv.
  assert (Hlast : seg NodeMaxSize (<[q := nq]> (linked_behind m tl q)) tl (Some q)
                      [(q, vs)] (Some q) None).
  { simpl. split; [done|]. exists nq. rewrite lookup_insert_eq. by rewrite Hnx. }
  destruct bs as [| [t vt] bs _] using rev_ind.
  - destruct Hchain as [-> <-]. simpl. exact Hlast.
  - pose proof Hchain as Hc. apply chain_last in Hc as (-> & nt & Ht & _).
    unfold linked_behind in *. rewrite Ht in *.
    assert (Hhd : ∃ h, hd = Some h).
    { destruct (bs ++ [(t, vt)]) as [| b' bs'] eqn:Heq.
      - by destruct bs.
      - eexists. eapply seg_head_Some. exact Hchain. }
    destruct Hhd as [h ->].
    unfold chain. apply seg_app. exists (Some t), (Some q). split; [| exact Hlast].
    eapply seg_frame; cycle 1.
    + eapply (seg_set_last_next NodeMaxSize m None (Some h) bs t vt); eauto.
    + intros y Hy. apply lookup_insert_ne. intros ->. done.
Qed.

(** One turn of the loop of the copy constructor. *)
Lemma copy_nodes_step s dst c nc vs (fuel : nat) :
  mem s !! c = Some nc → holds NodeMaxSize nc vs →
  repr NodeMaxSize s dst → c ∉ dst.*1 →
  (total_size (obj s) + N.of_nat (length vs) < SIZE_MOD)%N →
  let q := fresh (dom (mem s)) in
  let nq := mkNode (N.of_nat (length vs)) None (tail (obj s))
              ((Live <$> vs) ++ replicate (N.to_nat NodeMaxSize - length vs) Raw) in
  copy_nodes NodeMaxSize (S fuel) (Some c) s
  = copy_nodes NodeMaxSize fuel (next nc)
      (mkState (<[q := nq]> (linked_behind (mem s) (tail (obj s)) q))
               (mkList (match head (obj s) with Some h => Some h | None => Some q end)
                       (Some q)
                       (total_size (obj s) + N.of_nat (length vs)))).
Proof.
  intros Hc Hh Hrepr Hcd Htot q nq.
  pose proof Hrepr as (Hchain & Hnd & Hsize & Hlt & Hfits).
  pose proof (holds_length _ _ _ Hh) as Hle.
  pose proof Hh as (Hcnt & Hlen & Htake).
  assert (Hq : mem s !! q = None) by apply fresh_not_allocated.
  assert (Hcq : c ≠ q) by congruence.
  set (n0 := mkNode 0 None None (replicate (N.to_nat NodeMaxSize) (@Raw T))).
  assert (Hdc : data nc = [] ++ (Live <$> vs) ++ drop (length vs) (data nc)).
  { simpl. rewrite <- Htake. by rewrite take_drop. }
  assert (Hd0 : data n0 = (Live <$> []) ++ replicate (length vs + (N.to_nat NodeMaxSize - length vs)) Raw).
  { simpl. f_equal. lia. }
  simpl.
  rewrite (bind_Ret _ _ _ _ _ (create_node_spec NodeMaxSize s)). fold q n0.
  step. unfold trip. rewrite Hcnt, N.sub_0_r, Nat2N.id.
  pose proof (copy_loop c q vs [] _ [] _ nc n0 (upd s q n0) Hcq
                ltac:(by rewrite upd_lookup_ne) (upd_lookup _ _ _) Hdc eq_refl Hd0) as Hloop.
  simpl in Hloop. rewrite (bind_Ret _ _ _ _ _ (Hloop ltac:(lia))). clear Hloop.
  rewrite upd_upd. step. step. rewrite upd_upd. cbn [next prev n0].
  set (d := (Live <$> vs) ++ replicate (N.to_nat NodeMaxSize - length vs) Raw).
  step.
  destruct dst as [| [t vt] dst _] using rev_ind.
  - (* the first node of the copy *)
    destruct Hchain as [Htl Hhd]. unfold linked_behind, nq. rewrite Htl, <- Hhd.
    rewrite bind_assoc. do 3 step. erewrite bind_Ret; cycle 1.
    { apply get_node_Some. cbn [mem upd]. apply lookup_insert_eq. }
    cbv beta. cbn [count]. step.
    erewrite bind_Ret; cycle 1.
    { apply get_node_Some. cbn [mem upd]. by rewrite lookup_insert_ne. }
    cbv beta. unfold upd. cbn [mem obj head tail total_size].
    rewrite Hcnt, size_add_small by lia. by rewrite <- Htl.
  - (* a further node, linked behind the last *)
    pose proof Hchain as Hcl. apply chain_last in Hcl as (Htl & nt & Ht & _).
    assert (Hhd : ∃ h, head (obj s) = Some h).
    { destruct (dst ++ [(t, vt)]) as [| b' bs'] eqn:Heq.
      - by destruct dst.
      - eexists. eapply seg_head_Some. exact Hchain. }
    destruct Hhd as [h Hhd].
    assert (Htq : t ≠ q) by congruence.
    assert (Hct : t ≠ c).
    { intros ->. apply Hcd. rewrite fmap_app. apply elem_of_app. right. left. }
    unfold linked_behind, nq. rewrite Htl, Ht, Hhd.
    rewrite !bind_assoc.
    erewrite bind_Ret; cycle 1.
    { apply set_next_Some. rewrite upd_lookup_ne by done. exact Ht. }
    cbv beta. rewrite bind_assoc.
    erewrite bind_Ret; cycle 1.
    { apply set_prev_Some. rewrite upd_lookup_ne by done. apply upd_lookup. }
    cbv beta. cbn [count next prev data].
    do 2 step.
    erewrite bind_Ret; cycle 1.
    { apply get_node_Some. cbn [mem upd]. apply lookup_insert_eq. }
    cbv beta. cbn [count]. step.
    erewrite bind_Ret; cycle 1.
    { apply get_node_Some. cbn [mem upd].
      rewrite lookup_insert_ne by done. rewrite lookup_insert_ne by done.
      rewrite lookup_insert_ne by done. exact Hc. }
    cbv beta. unfold upd. cbn [mem obj head tail total_size].
    rewrite Hcnt, size_add_small by lia. rewrite Hhd.
    do 2 f_equal.
    rewrite (insert_insert_ne _ t q) by done.
    by rewrite insert_insert_eq.
Qed.

Lemma linked_behind_dom (m : gmap loc (@Node T)) tl q :
  dom (linked_behind m tl q) = dom m.
Proof.
  unfold linked_behind. destruct tl as [t |]; [| done].
  destruct (m !! t) as [nt |] eqn:Ht; [| done]. by eapply dom_overwrite.
Qed.

Lemma linked_behind_lookup (m : gmap loc (@Node T)) tl q y :
  tl ≠ Some y → linked_behind m tl q !! y = m !! y.
Proof.
  intros Hy. unfold linked_behind. destruct tl as [t |]; [| done].
  destruct (m !! t) as [nt |] eqn:Ht; [| done].
  apply lookup_insert_ne. congruence.
Qed.

(** The last node of a chain is one of its nodes. *)
Lemma chain_tail_in (m : gmap loc (@Node T)) hd bs tl t :
  chain NodeMaxSize m hd bs tl → tl = Some t → t ∈ bs.*1.
Proof.
  intros Hchain ->. destruct bs as [| [t' vt] bs _] using rev_ind.
  - by destruct Hchain.
  - apply chain_last in Hchain as (Ht & _). inversion Ht; subst.
    rewrite fmap_app. apply elem_of_app. right. left.
Qed.

(** The loop of the copy constructor: every node of the source that is
    still to be visited gets a new node with the same elements, linked
    behind the nodes built so far; the nodes of the source are left as they
    were. *)
Lemma copy_nodes_spec rest : ∀ s dst pv cur pv' (fuel : nat),
  seg NodeMaxSize (mem s) pv cur rest pv' None →
  repr NodeMaxSize s dst →
  (∀ x, x ∈ rest.*1 → x ∉ dst.*1) →
  length rest ≤ fuel →
  (total_size (obj s) + N.of_nat (length (contents rest)) < SIZE_MOD)%N →
  ∃ s' new,
    copy_nodes NodeMaxSize fuel cur s = Ret () s'
    ∧ repr NodeMaxSize s' (dst ++ new)
    ∧ new.*2 = rest.*2
    ∧ (∀ x, x ∈ dom (mem s) → x ∉ dst.*1 → mem s' !! x = mem s !! x)
    ∧ (∀ x, x ∈ new.*1 → x ∉ dom (mem s))
    ∧ dom (mem s') = dom (mem s) ∪ list_to_set new.*1.
Proof.
  induction rest as [| [c vs] rest IH]; intros s dst pv cur pv' fuel Hseg Hrepr Hdisj Hfuel Htot.
  - destruct Hseg as [_ <-]. exists s, []. rewrite app_nil_r.
    split; [by destruct fuel|]. split; [done|]. split; [done|].
    split; [done|]. split; [by intros x Hx; apply elem_of_nil in Hx|].
    simpl. by rewrite union_empty_r_L.
  - destruct fuel as [| fuel]; [simpl in Hfuel; lia|]. simpl in Hfuel.
    destruct Hseg as (-> & nc & Hc & Hpvc & Hh & Hne & Hrest).
    pose proof Hrepr as (Hchain & Hnd & Hsize & Hlt & Hfits).
    pose proof (holds_length _ _ _ Hh) as Hle.
    rewrite contents_cons, length_app in Htot.
    assert (Hcd : c ∉ dst.*1) by (apply Hdisj; rewrite fmap_cons; left).
    rewrite (copy_nodes_step s dst c nc vs fuel Hc Hh Hrepr Hcd ltac:(lia)).
    set (q := fresh (dom (mem s))).
    set (nq := mkNode (N.of_nat (length vs)) None (tail (obj s))
                 ((Live <$> vs) ++ replicate (N.to_nat NodeMaxSize - length vs) Raw)).
    set (s3 := mkState _ _).
    assert (Hq : mem s !! q = None) by apply fresh_not_allocated.
    assert (Hqd : q ∉ dst.*1).
    { intros Hin. destruct (seg_allocated _ _ _ _ _ _ _ _ Hchain Hin) as [? ?]. congruence. }
    assert (Hlook : ∀ y, y ∈ dom (mem s) → y ∉ dst.*1 → mem s3 !! y = mem s !! y).
    { intros y Hy Hyd. unfold s3. cbn [mem].
      rewrite lookup_insert_ne by (intros <-; by apply not_elem_of_dom in Hq).
      apply linked_behind_lookup. intros Htl.
      apply Hyd. by eapply chain_tail_in. }
    assert (Hdom3 : dom (mem s3) = {[q]} ∪ dom (mem s)).
    { unfold s3. cbn [mem]. by rewrite dom_insert_L, linked_behind_dom. }
    assert (Hrepr3 : repr NodeMaxSize s3 (dst ++ [(q, vs)])).
    { unfold repr, s3. cbn [mem obj head tail total_size].
      split; [| split; [| split; [| split]]].
      - apply chain_snoc; try done.
        unfold holds, nq. cbn [count data]. split; [done|]. split.
        + rewrite length_app, length_fmap, length_replicate. lia.
        + apply take_app_length'. by rewrite length_fmap.
      - rewrite fmap_app. apply list.NoDup_app. split; [done|]. split.
        + intros x Hx Hx'. apply list_elem_of_singleton in Hx'. by subst.
        + apply NoDup_singleton.
      - rewrite Hsize, contents_snoc, length_app. lia.
      - lia.
      - done. }
    destruct (IH s3 (dst ++ [(q, vs)]) (Some c) (next nc) pv' fuel)
      as (s' & new & Hrun & Hrepr' & Hnew & Hframe & Hfresh & Hdom').
    + eapply seg_frame; [| exact Hrest].
      intros y Hy. apply Hlook.
      * apply elem_of_dom. exact (seg_allocated _ _ _ _ _ _ _ _ Hrest Hy).
      * apply Hdisj. rewrite fmap_cons. by right.
    + done.
    + intros x Hx. rewrite fmap_app. intros Hin. apply elem_of_app in Hin as [Hin | Hin].
      * revert Hin. apply Hdisj. rewrite fmap_cons. by right.
      * apply list_elem_of_singleton in Hin. simpl in Hin. subst x.
        destruct (seg_allocated _ _ _ _ _ _ _ _ Hrest Hx) as [? ?]. congruence.
    + lia.
    + unfold s3. cbn [obj total_size]. lia.
    + exists s', ((q, vs) :: new). split; [done|].
      split; [by rewrite <- app_assoc in Hrepr'|].
      split; [by rewrite !fmap_cons, Hnew|].
      split; [| split].
      * intros x Hx Hxd. rewrite Hframe.
        -- by apply Hlook.
        -- rewrite Hdom3. apply elem_of_union. by right.
        -- rewrite fmap_app. intros Hin. apply elem_of_app in Hin as [Hin | Hin]; [done|].
           apply list_elem_of_singleton in Hin. simpl in Hin. subst x.
           by apply not_elem_of_dom in Hq.
      * intros x Hx. rewrite fmap_cons in Hx. apply elem_of_cons in Hx as [-> | Hx].
        -- by apply not_elem_of_dom.
        -- apply Hfresh in Hx. rewrite Hdom3 in Hx. intros Hin. apply Hx.
           apply elem_of_union. by right.
      * rewrite Hdom', Hdom3. rewrite fmap_cons, list_to_set_cons. simpl.
        rewrite (union_comm_L {[q]} (dom (mem s))). by rewrite <- union_assoc_L.
Qed.

End Copy.

(** ** Copying, assigning and comparing container objects *)

Section ObjectCopies.

Context {T : Type}.
Variable NodeMaxSize : N.
Implicit Types (st : @store T) (o : @unrolled_list) (bs : list (loc * list T)).

Lemma call_Ret {A} (this : loc) (m : M A) st o (a : A) (s' : @state T) :
  objects st !! this = Some o →
  m (mkState (nodes st) o) = Ret a s' →
  call this m st = Ret a (mkStore (mem s') (<[this := obj s']> (objects st))).
Proof. intros Ho Hm. unfold call. by rewrite Ho, Hm. Qed.

Lemma call_Raise {A} (this : loc) (m : M A) st o e (s' : @state T) :
  objects st !! this = Some o →
  m (mkState (nodes st) o) = Raise e s' →
  call this m st = Raise e (mkStore (mem s') (<[this := obj s']> (objects st))).
Proof. intros Ho Hm. unfold call. by rewrite Ho, Hm. Qed.

Lemma repr_empty (m : gmap loc (@Node T)) :
  (NodeMaxSize < SIZE_MOD)%N →
  repr NodeMaxSize (mkState m (mkList None None 0)) [].
Proof.
  intros Hfits. unfold repr, chain. simpl.
  split; [done|]. split; [constructor|]. split; [done|].
  split; [by unfold SIZE_MOD | done].
Qed.

(** Well-formedness only reads the nodes of the chain. *)
Lemma repr_frame (m m' : gmap loc (@Node T)) o bs :
  repr NodeMaxSize (mkState m o) bs →
  (∀ x, x ∈ bs.*1 → m' !! x = m !! x) →
  repr NodeMaxSize (mkState m' o) bs.
Proof.
  intros (Hchain & Hrest) Hframe. split; [| exact Hrest].
  simpl in *. eapply seg_frame; eauto.
Qed.

Lemma repr_keys_allocated (m : gmap loc (@Node T)) o bs x :
  repr NodeMaxSize (mkState m o) bs → x ∈ bs.*1 → x ∈ dom m.
Proof.
  intros (Hchain & _) Hx. apply elem_of_dom.
  exact (seg_allocated _ _ _ _ _ _ _ _ Hchain Hx).
Qed.

Lemma contents_same_layout (bs bs' : list (loc * list T)) :
  bs'.*2 = bs.*2 → contents bs' = contents bs.
Proof. unfold contents. by intros ->. Qed.

(** The copy constructor. *)
Lemma copy_construct_spec st (this other : loc) o bs :
  objects st !! other = Some o →
  this ≠ other →
  repr NodeMaxSize (mkState (nodes st) o) bs →
  ∃ st' o' bs',
    copy_construct NodeMaxSize this other st = Ret () st'
    ∧ objects st' = <[this := o']> (objects st)
    ∧ repr NodeMaxSize (mkState (nodes st') o') bs'
    ∧ bs'.*2 = bs.*2
    ∧ (∀ x, x ∈ dom (nodes st) → nodes st' !! x = nodes st !! x)
    ∧ (∀ x, x ∈ bs'.*1 → x ∉ dom (nodes st))
    ∧ dom (nodes st') = dom (nodes st) ∪ list_to_set bs'.*1.
Proof.
  intros Ho Hne Hrepr.
  pose proof Hrepr as (Hchain & Hnd & Hsize & Hlt & Hfits). simpl in *.
  set (e := mkList None None 0 : @unrolled_list).
  destruct (copy_nodes_spec NodeMaxSize bs (mkState (nodes st) e) [] None (head o) (tail o)
              (S (base.size (nodes st))))
    as (s' & new & Hrun & Hrepr' & Hnew & Hframe & Hfresh & Hdom).
  { done. }
  { by apply repr_empty. }
  { intros x _ Hx. by apply elem_of_nil in Hx. }
  { apply seg_size in Hchain; [lia | done]. }
  { simpl. lia. }
  simpl in *.
  exists (mkStore (mem s') (<[this := obj s']> (objects st))), (obj s'), new.
  split; [| split; [done | split; [by destruct s' | split; [done | split; [| done]]]]].
  - unfold copy_construct. unfold bind at 1. unfold load. rewrite Ho.
    unfold bind at 1. unfold store_obj at 1.
    unfold bind at 1.
    erewrite call_Ret; [| apply lookup_insert_eq | exact Hrun].
    simpl. by rewrite insert_insert_eq.
  - intros x Hx. apply Hframe; [done|]. intros Hin. by apply elem_of_nil in Hin.
Qed.

Lemma dom_swap_out (D A B : gset loc) :
  (∀ x, x ∈ B → x ∉ A) → (D ∪ B) ∖ A = (D ∖ A) ∪ B.
Proof.
  intros Hdisj. apply set_eq. intros x.
  rewrite !elem_of_union, !elem_of_difference, elem_of_union.
  split.
  - intros [[Hx | Hx] Hn]; [by left | by right].
  - intros [[Hx Hn] | Hx]; [split; [by left | done] | split; [by right | by apply Hdisj]].
Qed.

(** Copy assignment between two different containers that share no node. *)
Lemma copy_assign_spec st (this other : loc) oa ob bsa bsb :
  objects st !! this = Some oa →
  objects st !! other = Some ob →
  this ≠ other →
  repr NodeMaxSize (mkState (nodes st) oa) bsa →
  repr NodeMaxSize (mkState (nodes st) ob) bsb →
  (∀ x, x ∈ bsa.*1 → x ∉ bsb.*1) →
  ∃ st' o' bs',
    copy_assign NodeMaxSize this other st = Ret () st'
    ∧ objects st' = <[this := o']> (objects st)
    ∧ repr NodeMaxSize (mkState (nodes st') o') bs'
    ∧ bs'.*2 = bsb.*2
    ∧ repr NodeMaxSize (mkState (nodes st') ob) bsb
    ∧ (∀ x, x ∈ bs'.*1 → x ∉ dom (nodes st))
    ∧ dom (nodes st') = (dom (nodes st) ∖ list_to_set bsa.*1) ∪ list_to_set bs'.*1.
Proof.
  intros Ha Hb Hne Hra Hrb Hdisj.
  set (tmp := fresh (dom (objects st))).
  assert (Htmp : objects st !! tmp = None) by (apply not_elem_of_dom, is_fresh).
  assert (Htt : tmp ≠ this) by congruence.
  assert (Hto : tmp ≠ other) by congruence.
  destruct (copy_construct_spec st tmp other ob bsb Hb Hto Hrb)
    as (st1 & o' & bs' & Hcopy & Hobjs1 & Hr' & Hlay & Hframe1 & Hfresh & Hdom1).
  destruct st1 as [nodes1 objects1]. simpl in *. subst objects1.
  (* the old chain of [this] is still there after the copy *)
  assert (Hra1 : repr NodeMaxSize (mkState nodes1 oa) bsa).
  { eapply repr_frame; [exact Hra|]. intros x Hx. apply Hframe1.
    exact (repr_keys_allocated _ _ _ _ Hra Hx). }
  destruct (clear_at NodeMaxSize (mkState nodes1 oa) bsa Hra1)
    as (s3 & Hclear & Hr3 & Hdom3 & Hframe3 & _).
  simpl in Hdom3, Hframe3.
  assert (Hnew_old : ∀ x, x ∈ bs'.*1 → x ∉ bsa.*1).
  { intros x Hx Hxa. apply (Hfresh x Hx).
    exact (repr_keys_allocated _ _ _ _ Hra Hxa). }
  exists (mkStore (mem s3) (<[this := o']> (objects st))), o', bs'.
  split; [| split; [done | split; [| split; [done | split; [| split; [done|]]]]]].
  - unfold copy_assign. rewrite decide_True by done.
    unfold bind at 1. fold tmp.
    rewrite (bind_Ret _ _ _ _ _ Hcopy).
    unfold swap, load, store_obj.
    rewrite bind_assoc. unfold bind at 1. cbn [objects nodes].
    rewrite lookup_insert_ne, Ha by done.
    rewrite bind_assoc. unfold bind at 1. cbn [objects nodes].
    rewrite lookup_insert_eq.
    rewrite bind_assoc. unfold bind at 1. unfold bind at 1. cbn [objects nodes].
    unfold destruct_list.
    erewrite bind_Ret; cycle 1.
    { eapply call_Ret; [apply lookup_insert_eq | exact Hclear]. }
    cbn [objects nodes]. f_equal. f_equal.
    rewrite delete_insert_eq, delete_insert_eq.
    rewrite delete_insert_ne by done.
    rewrite delete_insert_eq. by rewrite delete_id.
  - simpl. eapply repr_frame; [exact Hr'|]. intros x Hx.
    apply Hframe3. by apply Hnew_old.
  - simpl. eapply repr_frame; cycle 1.
    + intros x Hx. rewrite Hframe3.
      * apply Hframe1. exact (repr_keys_allocated _ _ _ _ Hrb Hx).
      * intros Hxa. by apply (Hdisj x Hxa).
    + done.
  - simpl. rewrite Hdom3, Hdom1. apply dom_swap_out.
    intros x Hx Hxa. apply elem_of_list_to_set in Hx, Hxa.
    by apply (Hnew_old x).
Qed.

(** [a = std::move(b)] between two different containers that share no node:
    the nodes of [a] are freed, [a] takes over the chain of [b] without
    touching a node of it, and [b] is left empty. *)
Theorem move_assign_transfers_the_chain st (this other : loc) oa ob bsa bsb :
  objects st !! this = Some oa →
  objects st !! other = Some ob →
  this ≠ other →
  repr NodeMaxSize (mkState (nodes st) oa) bsa →
  repr NodeMaxSize (mkState (nodes st) ob) bsb →
  (∀ x, x ∈ bsa.*1 → x ∉ bsb.*1) →
  ∃ st',
    move_assign this other st = Ret () st'
    ∧ objects st' = <[other := mkList None None 0]> (<[this := ob]> (objects st))
    ∧ repr NodeMaxSize (mkState (nodes st') ob) bsb
    ∧ (∀ x, x ∉ bsa.*1 → nodes st' !! x = nodes st !! x)
    ∧ dom (nodes st') = dom (nodes st) ∖ list_to_set bsa.*1.
Proof.
  intros Ha Hb Hne Hra Hrb Hdisj.
  destruct (clear_at NodeMaxSize (mkState (nodes st) oa) bsa Hra)
    as (s1 & Hclear & Hr1 & Hdom1 & Hframe1 & _).
  simpl in Hdom1, Hframe1.
  exists (mkStore (mem s1)
            (<[other := mkList None None 0]> (<[this := ob]> (objects st)))).
  split; [| split; [done | split; [| split; [done | done]]]].
  - unfold move_assign. rewrite decide_True by done.
    erewrite bind_Ret; cycle 1.
    { eapply call_Ret; [exact Ha | exact Hclear]. }
    unfold load, store_obj. unfold bind at 1. simpl.
    rewrite lookup_insert_ne, Hb by done.
    unfold bind. simpl. rewrite insert_insert_eq. by destruct ob.
  - simpl. eapply repr_frame; [exact Hrb|]. intros x Hx.
    apply Hframe1. intros Hxa. by apply (Hdisj x Hxa).
Qed.

End ObjectCopies.

(** ** Comparing two containers *)

Section ComparisonFacts.

Context {T : Type} `{EqDecision T}.
Variable NodeMaxSize : N.
Implicit Types (s : @state T) (bs : list (loc * list T)) (it : iterator).

(** Incrementing and reading through an iterator look at the nodes only,
    not at the container object. *)
Lemma iter_inc_mem it s o' x :
  iter_inc it s = Ret x s →
  iter_inc it (mkState (mem s) o') = Ret x (mkState (mem s) o').
Proof.
  unfold iter_inc, bind, get_node, ret. destruct (current_node it) as [p |]; simpl.
  - destruct (mem s !! p) as [n |]; [| done].
    destruct (_ <? _)%N; intros Heq; inversion Heq; done.
  - intros Heq. by inversion Heq.
Qed.

Lemma iter_deref_mem it s o' (x : T) :
  iter_deref it s = Ret x s →
  iter_deref it (mkState (mem s) o') = Ret x (mkState (mem s) o').
Proof.
  unfold iter_deref, read_elem, get_slot, deref, bind, get_node, ret, undefined.
  destruct (current_node it) as [p |]; simpl; [| done].
  destruct (mem s !! p) as [n |]; [| done].
  destruct (data n !! _) as [[| v |] |]; try done.
  intros Heq. by inversion Heq.
Qed.

(** A state represents one sequence only. *)
Lemma repr_contents_unique s bs bs' :
  repr NodeMaxSize s bs → repr NodeMaxSize s bs' → contents bs = contents bs'.
Proof.
  intros Hr Hr'. pose proof Hr as (_ & _ & _ & _ & Hfits).
  pose proof (to_list_repr NodeMaxSize Hfits s bs Hr) as H1.
  pose proof (to_list_repr NodeMaxSize Hfits s bs' Hr') as H2.
  rewrite H1 in H2. by inversion H2.
Qed.

(** The loop of [std::equal], from index [k] of both sequences on. *)
Lemma equal_loop_spec (m : gmap loc (@Node T)) oa ob (bsa bsb : list (loc * list T)) :
  repr NodeMaxSize (mkState m oa) bsa →
  repr NodeMaxSize (mkState m ob) bsb →
  length (contents bsa) = length (contents bsb) →
  ∀ (rem k : nat) it1 it2 (fuel : nat),
    position bsa it1 k → position bsb it2 k →
    k + rem = length (contents bsa) → rem < fuel →
    equal_loop fuel it1 it2 (mkState m oa)
    = Ret (bool_decide (drop k (contents bsa) = drop k (contents bsb))) (mkState m oa).
Proof.
  intros Hra Hrb Hlen. induction rem as [| rem IH]; intros k it1 it2 fuel Hp1 Hp2 Hk Hfuel.
  - assert (it1 = Iter None 0) as ->.
    { apply (position_end_iff bsa it1 k Hp1). lia. }
    destruct fuel as [| fuel]; [lia|]. simpl.
    rewrite !drop_ge by lia. by rewrite bool_decide_eq_true_2.
  - destruct fuel as [| fuel]; [lia|]. simpl.
    rewrite decide_False; cycle 1.
    { intros ->. pose proof (proj1 (position_end_iff bsa _ k Hp1) eq_refl). lia. }
    destruct (lookup_lt_is_Some_2 (contents bsa) k ltac:(lia)) as [a Ha].
    destruct (lookup_lt_is_Some_2 (contents bsb) k ltac:(lia)) as [b Hb].
    pose proof (deref_position NodeMaxSize _ _ _ _ _ Hra Hp1 Ha) as Hd1.
    pose proof (deref_position NodeMaxSize _ _ _ _ _ Hrb Hp2 Hb) as Hd2.
    apply (iter_deref_mem _ _ oa) in Hd2. simpl in Hd2.
    rewrite (bind_Ret _ _ _ _ _ Hd1), (bind_Ret _ _ _ _ _ Hd2).
    rewrite (drop_S _ _ _ Ha), (drop_S _ _ _ Hb).
    destruct (decide (a = b)) as [-> | Hab].
    + rewrite bool_decide_eq_true_2 by done.
      destruct (iter_inc_position NodeMaxSize _ _ _ _ Hra Hp1 ltac:(lia)) as (i1 & Hi1 & Hp1').
      destruct (iter_inc_position NodeMaxSize _ _ _ _ Hrb Hp2 ltac:(lia)) as (i2 & Hi2 & Hp2').
      apply (iter_inc_mem _ _ oa) in Hi2. simpl in Hi2.
      rewrite (bind_Ret _ _ _ _ _ Hi1), (bind_Ret _ _ _ _ _ Hi2).
      rewrite (IH (S k) i1 i2 fuel Hp1' Hp2' ltac:(lia) ltac:(lia)).
      f_equal. apply bool_decide_ext. split; [by intros -> | by intros [= ->]].
    + rewrite bool_decide_eq_false_2 by done.
      unfold ret. f_equal. symmetry. apply bool_decide_eq_false_2.
      intros Heq. by inversion Heq.
Qed.

End ComparisonFacts.

(** ** A constructor that throws while appending *)

Section ThrowingAppend.

Context {T : Type}.
Variable NodeMaxSize : N.
Implicit Types (s : @state T) (n : @Node T) (p q t : loc) (bs : list (loc * list T)).
Implicit Types (vs : list T).

(** Behind the last element of a node with room nothing is shifted, so the
    exception leaves the state as it was. *)
Lemma place_Throws_at_end s q n vs :
  mem s !! q = Some n → holds NodeMaxSize n vs →
  length vs < N.to_nat NodeMaxSize →
  (NodeMaxSize < SIZE_MOD)%N →
  place q (N.of_nat (length vs)) Throws s = Raise construction_failed s.
Proof using Type.
  intros Hq Hh Hroom Hfits. pose proof Hh as (Hcnt & Hlen & _).
  destruct (holds_decompose NodeMaxSize n vs (length vs) Hh Hroom ltac:(lia))
    as (x & post & Hd & _).
  rewrite (place_Throws s q n vs (length vs) x post Hq Hcnt); [| lia | lia | done].
  rewrite drop_ge in * by lia. cbn [gap fmap list_fmap app] in *.
  rewrite <- Hd, with_data_id, upd_id by done. reflexivity.
Qed.

(** [clear] gives that empty first node back. *)
Lemma clear_empty_node s q n :
  mem s !! q = None →
  count n = 0%N → next n = None →
  clear (mkState (<[q := n]> (mem s)) (mkList (Some q) (Some q) (total_size (obj s))))
  = Ret () (mkState (mem s) (mkList None None 0)).
Proof using Type.
  intros Hq Hcnt Hnx. unfold clear.
  set (s1 := mkState (<[q := n]> (mem s)) (mkList (Some q) (Some q) (total_size (obj s)))).
  assert (Hq1 : mem s1 !! q = Some n) by apply lookup_insert_eq.
  rewrite (bind_Ret _ _ s1 (obj s1) s1) by reflexivity.
  rewrite (bind_Ret _ _ s1 (S (base.size (mem s1))) s1) by reflexivity.
  cbn [obj head s1 clear_loop].
  fold s1.
  rewrite !bind_assoc, (bind_Ret _ _ _ _ _ (get_node_Some _ _ _ Hq1)).
  rewrite !bind_assoc. erewrite bind_Ret; cycle 1.
  { apply (destroy_node_spec _ q n Hq1); rewrite Hcnt; [simpl; lia | done]. }
  rewrite Hnx. destruct (base.size (mem s1)); simpl; unfold free; simpl;
    rewrite delete_insert_eq, delete_id by done; reflexivity.
Qed.

Hypothesis NodeMaxSize_ge_2 : (2 ≤ NodeMaxSize)%N.

(** Appending to a full last node: the node is split before the constructor
    runs, and stays split. *)
Lemma emplace_back_Throws_full s bs t vs :
  repr NodeMaxSize s (bs ++ [(t, vs)]) →
  length vs = N.to_nat NodeMaxSize →
  let q := fresh (dom (mem s)) in
  let si := N.to_nat NodeMaxSize - N.to_nat (NodeMaxSize / 2) in
  ∃ s', emplace_back NodeMaxSize Throws s = Raise construction_failed s'
        ∧ repr NodeMaxSize s' (bs ++ [(t, take si vs); (q, drop si vs)])
        ∧ dom (mem s') = {[q]} ∪ dom (mem s)
        ∧ q ∉ dom (mem s).
Proof using NodeMaxSize_ge_2.
  intros Hrepr Hfull q si.
  pose proof Hrepr as (Hchain & _ & _ & _ & Hfits).
  pose proof Hchain as Hc. apply chain_last in Hc as (Htl & n & Ht & Hh & _).
  pose proof Hh as (Hcnt & Hlen & _).
  assert (Hhd : ∃ h, head (obj s) = Some h).
  { destruct (bs ++ [(t, vs)]) as [| b bs'] eqn:Heq; [by destruct bs|].
    eexists. by eapply repr_head_Some. }
  destruct Hhd as [h Hhd].
  destruct (split_repr NodeMaxSize s bs t vs [] NodeMaxSize_ge_2 Hrepr Hfull)
    as (s1 & Hsplit & Hrepr1 & Hdom1 & Hfresh).
  fold q si in Hsplit, Hrepr1, Hdom1, Hfresh.
  destruct (halves NodeMaxSize NodeMaxSize_ge_2) as (Hh1 & Hsi1 & Hsum & HsiN).
  fold si in Hsi1, Hsum, HsiN.
  exists s1. split; [| done].
  pose proof Hrepr1 as (Hchain1 & _).
  pose proof Hchain1 as Hc1. apply seg_block in Hc1 as (nt1 & Ht1 & Hht1 & _).
  replace (bs ++ [(t, take si vs); (q, drop si vs)])
    with ((bs ++ [(t, take si vs)]) ++ (q, drop si vs) :: []) in Hchain1
    by (by rewrite <- app_assoc).
  apply seg_block in Hchain1 as (nq & Hq & Hhq & _).
  unfold emplace_back, end_.
  rewrite (bind_Ret _ _ s (Iter None 0) s) by reflexivity.
  apply bind_Raise. unfold emplace.
  rewrite (bind_Ret _ _ s (obj s) s) by reflexivity. rewrite Hhd.
  rewrite (bind_Ret _ _ s () s) by reflexivity.
  cbn [current_node].
  rewrite (bind_Ret _ _ s (obj s) s) by reflexivity. rewrite Htl.
  rewrite (bind_Ret _ _ s t s) by reflexivity.
  rewrite (bind_Ret _ _ _ _ _ (get_node_Some _ _ _ Ht)).
  unfold emplace_into_node_.
  rewrite (bind_Ret _ _ _ _ _ (get_node_Some _ _ _ Ht)).
  rewrite decide_True by lia.
  rewrite bind_assoc, (bind_Ret _ _ _ _ _ Hsplit).
  rewrite bind_assoc, (bind_Ret _ _ _ _ _ (get_node_Some _ _ _ Ht1)).
  destruct Hht1 as (Hcnt1 & _). rewrite Hcnt1, Hcnt, length_take.
  replace (si `min` length vs) with si by lia.
  destruct (N.ltb_spec (N.of_nat si) (N.of_nat (length vs))) as [_ | ?]; [| lia].
  rewrite (bind_Ret _ _ _ (q, size_sub (N.of_nat (length vs)) (N.of_nat si)) s1)
    by reflexivity.
  cbn [fst snd]. rewrite size_sub_small by lia.
  replace (N.of_nat (length vs) - N.of_nat si)%N
    with (N.of_nat (length (drop si vs))) by (rewrite length_drop; lia).
  apply (place_Throws_at_end s1 q nq (drop si vs) Hq Hhq); [| done].
  rewrite length_drop. lia.
Qed.

(** Appending to the empty container: the first node is allocated and
    linked before the constructor runs, and stays behind, empty. *)
Lemma emplace_back_Throws_empty s :
  repr NodeMaxSize s [] →
  let q := fresh (dom (mem s)) in
  emplace_back NodeMaxSize Throws s
  = Raise construction_failed
      (mkState (<[q := mkNode 0 None None (replicate (N.to_nat NodeMaxSize) Raw)]> (mem s))
               (mkList (Some q) (Some q) (total_size (obj s)))).
Proof using NodeMaxSize_ge_2.
  intros ((Htl & Hhd) & _ & Hsize & _ & Hfits) q.
  set (n0 := mkNode 0 None None (replicate (N.to_nat NodeMaxSize) (@Raw T))).
  set (s1 := mkState (<[q := n0]> (mem s)) (mkList (Some q) (Some q) (total_size (obj s)))).
  assert (Hq1 : mem s1 !! q = Some n0) by apply lookup_insert_eq.
  assert (Hh0 : holds NodeMaxSize n0 []).
  { unfold holds, n0. simpl. by rewrite length_replicate. }
  unfold emplace_back, end_.
  rewrite (bind_Ret _ _ s (Iter None 0) s) by reflexivity.
  apply bind_Raise. unfold emplace.
  rewrite (bind_Ret _ _ s (obj s) s) by reflexivity. rewrite <- Hhd.
  rewrite bind_assoc, (bind_Ret _ _ _ _ _ (create_node_spec NodeMaxSize s)).
  fold q n0.
  rewrite (bind_Ret _ _ _ () s1) by reflexivity.
  cbn [current_node].
  rewrite (bind_Ret _ _ s1 (obj s1) s1) by reflexivity.
  rewrite (bind_Ret _ _ s1 q s1) by reflexivity.
  rewrite (bind_Ret _ _ _ _ _ (get_node_Some _ _ _ Hq1)).
  unfold emplace_into_node_.
  rewrite (bind_Ret _ _ _ _ _ (get_node_Some _ _ _ Hq1)).
  rewrite decide_False by (simpl; lia).
  rewrite (bind_Ret _ _ s1 (q, 0%N) s1) by reflexivity.
  cbn [fst snd]. change 0%N with (N.of_nat (length (@nil T))).
  apply (place_Throws_at_end s1 q n0 [] Hq1 Hh0); [simpl; lia | done].
Qed.

(** Whatever the state of the last node, [clear] after a failed append gives
    back every node of the container: nothing leaks. *)
Lemma emplace_back_Throws_cleanup s bs :
  repr NodeMaxSize s bs →
  ∃ s1 s2,
    emplace_back NodeMaxSize Throws s = Raise construction_failed s1
    ∧ total_size (obj s1) = total_size (obj s)
    ∧ clear s1 = Ret () s2
    ∧ repr NodeMaxSize s2 []
    ∧ outside s2 [] = outside s bs.
Proof using NodeMaxSize_ge_2.
  intros Hrepr. pose proof Hrepr as (Hchain & Hnd & Hsize & Hlt & Hfits).
  destruct bs as [| [t vs] bs _] using rev_ind.
  - pose proof (emplace_back_Throws_empty s Hrepr) as Hrun. cbv zeta in Hrun.
    eexists _, _. split; [exact Hrun|]. split; [done|].
    split; [apply clear_empty_node; [apply fresh_not_allocated | done | done]|].
    split; [by apply repr_empty | done].
  - pose proof Hchain as Hc. apply chain_last in Hc as (Htl & n & Ht & Hh & _).
    pose proof (holds_length _ _ _ Hh) as Hle.
    destruct (decide (length vs < N.to_nat NodeMaxSize)) as [Hroom | Hfull].
    + destruct (clear_at NodeMaxSize s _ Hrepr) as (s2 & Hclear & Hr2 & _ & _ & Hout).
      exists s, s2. split; [by eapply emplace_back_Throws_room|]. done.
    + destruct (emplace_back_Throws_full s bs t vs Hrepr ltac:(lia))
        as (s1 & Hrun & Hr1 & Hdom1 & Hfresh).
      destruct (clear_at NodeMaxSize s1 _ Hr1) as (s2 & Hclear & Hr2 & _ & _ & Hout).
      exists s1, s2. split; [done|]. split.
      { destruct Hr1 as (_ & _ & Hs1 & _). rewrite Hs1, Hsize.
        rewrite !contents_app. f_equal. f_equal. unfold contents. simpl.
        by rewrite !app_nil_r, take_drop. }
      split; [done|]. split; [done|].
      rewrite Hout. unfold outside. rewrite Hdom1.
      replace (bs ++ [(t, take (N.to_nat NodeMaxSize - N.to_nat (NodeMaxSize / 2)) vs);
                      (fresh (dom (mem s)),
                       drop (N.to_nat NodeMaxSize - N.to_nat (NodeMaxSize / 2)) vs)])
        with (bs ++ (t, take (N.to_nat NodeMaxSize - N.to_nat (NodeMaxSize / 2)) vs)
                 :: (fresh (dom (mem s)),
                     drop (N.to_nat NodeMaxSize - N.to_nat (NodeMaxSize / 2)) vs) :: [])
        by done.
      rewrite (keys_block bs t _ [_]), (keys_block bs t vs []).
      rewrite (keys_block bs (fresh (dom (mem s))) _ []).
      by apply outside_split.
Qed.

End ThrowingAppend.

(** ** Constructors that fill the container, and comparison *)

Section Construction.

Context {T : Type}.
Variable NodeMaxSize : N.
Hypothesis NodeMaxSize_ge_2 : (2 ≤ NodeMaxSize)%N.
Implicit Types (st : @store T) (s : @state T) (bs : list (loc * list T)).

Lemma for_each_app {A} (xs ys : list A) (body : A → @M T unit) s :
  for_each (xs ++ ys) body s = (for_each xs body ;;; for_each ys body) s.
Proof using Type.
  revert s. induction xs as [| x xs IH]; intros s; cbn [for_each app].
  - reflexivity.
  - rewrite bind_assoc.
    destruct (body x s) as [[] s1 | e s1 | |] eqn:E.
    + rewrite !(bind_Ret _ _ _ _ _ E). apply IH.
    + by rewrite !(bind_Raise _ _ _ _ _ E).
    + unfold bind. by rewrite E.
    + unfold bind. by rewrite E.
Qed.

Lemma for_each_Yields (vs : list T) s :
  for_each (Yields <$> vs) (emplace_back NodeMaxSize) s
  = for_each vs (push_back NodeMaxSize) s.
Proof using Type.
  revert s. induction vs as [| v vs IH]; intros s; cbn [for_each fmap list_fmap]; [done|].
  unfold push_back.
  destruct (emplace_back NodeMaxSize (Yields v) s) as [[] s1 | e s1 | |] eqn:E.
  - rewrite !(bind_Ret _ _ _ _ _ E). apply IH.
  - by rewrite !(bind_Raise _ _ _ _ _ E).
  - unfold bind. by rewrite E.
  - unfold bind. by rewrite E.
Qed.

Lemma repr_nil_obj s : repr NodeMaxSize s [] → obj s = mkList None None 0.
Proof using Type.
  intros ((Htl & Hhd) & _ & Hsize & _). destruct s as [m [h t n]]. simpl in *.
  by subst.
Qed.

Lemma outside_nil s : outside s [] = dom (mem s).
Proof using Type.
  unfold outside. simpl. apply set_eq. intros x.
  rewrite elem_of_difference, elem_of_empty. tauto.
Qed.

(** [unrolled_list(first, last, alloc)] on a range whose elements all copy
    builds a well-formed container that holds the range in order, in nodes
    of its own. *)
Theorem range_construct_copies_the_range st (this : loc) (vs : list T) :
  (NodeMaxSize < SIZE_MOD)%N →
  (N.of_nat (length vs) < SIZE_MOD)%N →
  ∃ st' o' bs',
    range_construct NodeMaxSize this (Yields <$> vs) st = Ret () st'
    ∧ objects st' = <[this := o']> (objects st)
    ∧ repr NodeMaxSize (mkState (nodes st') o') bs'
    ∧ contents bs' = vs
    ∧ dom (nodes st') ∖ list_to_set bs'.*1 = dom (nodes st).
Proof using NodeMaxSize_ge_2.
  intros Hfits Hlen.
  set (e := mkList None None 0 : @unrolled_list).
  destruct (for_each_push_back NodeMaxSize NodeMaxSize_ge_2 vs (mkState (nodes st) e) [])
    as (s' & bs' & Hrun & Hrepr' & Hc & Hout).
  { by apply repr_empty. }
  { simpl. lia. }
  rewrite outside_nil in Hout. simpl in Hout, Hc.
  exists (mkStore (mem s') (<[this := obj s']> (objects st))), (obj s'), bs'.
  split; [| split; [done | split; [by destruct s' | split; [done | done]]]].
  unfold range_construct. unfold bind at 1. unfold store_obj at 1.
  erewrite call_Ret; [| apply lookup_insert_eq | ].
  - simpl. by rewrite insert_insert_eq.
  - simpl. unfold on_exception. fold e. by rewrite for_each_Yields, Hrun.
Qed.

(** [unrolled_list(first, last, alloc)] on a range whose element number
    [length vs] throws when copied: the exception leaves the constructor,
    and before it does the elements copied so far are destroyed and every
    node allocated is given back. *)
Theorem range_construct_cleans_up_on_throw st (this : loc) (vs : list T) rest :
  (NodeMaxSize < SIZE_MOD)%N →
  (N.of_nat (length vs) < SIZE_MOD)%N →
  ∃ st',
    range_construct NodeMaxSize this ((Yields <$> vs) ++ Throws :: rest) st
    = Raise construction_failed st'
    ∧ objects st' = <[this := mkList None None 0]> (objects st)
    ∧ dom (nodes st') = dom (nodes st).
Proof using NodeMaxSize_ge_2.
  intros Hfits Hlen.
  set (e := mkList None None 0 : @unrolled_list).
  destruct (for_each_push_back NodeMaxSize NodeMaxSize_ge_2 vs (mkState (nodes st) e) [])
    as (s1 & bs1 & Hrun & Hrepr1 & Hc & Hout).
  { by apply repr_empty. }
  { simpl. lia. }
  rewrite outside_nil in Hout. simpl in Hout.
  destruct (emplace_back_Throws_cleanup NodeMaxSize NodeMaxSize_ge_2 s1 bs1 Hrepr1)
    as (s2 & s3 & Hthrow & _ & Hclear & Hrepr3 & Hout3).
  rewrite outside_nil, Hout in Hout3.
  pose proof (repr_nil_obj s3 Hrepr3) as Hobj3.
  exists (mkStore (mem s3) (<[this := obj s3]> (objects st))).
  split; [| split; [by rewrite Hobj3 | done]].
  unfold range_construct. unfold bind at 1. unfold store_obj at 1.
  erewrite call_Raise; [| apply lookup_insert_eq | ].
  - simpl. rewrite insert_insert_eq. reflexivity.
  - simpl. unfold on_exception. fold e.
    rewrite for_each_app. rewrite (bind_Ret _ _ _ () s1) by (by rewrite for_each_Yields).
    cbn [for_each]. rewrite (bind_Raise _ _ _ _ _ Hthrow). by rewrite Hclear.
Qed.

(** [unrolled_list(count, value, alloc)] builds a well-formed container of
    [count] copies of the value, in nodes of its own. *)
Theorem fill_construct_replicates st (this : loc) (cnt : N) (v : T) :
  (NodeMaxSize < SIZE_MOD)%N →
  (cnt < SIZE_MOD)%N →
  ∃ st' o' bs',
    fill_construct NodeMaxSize this cnt v st = Ret () st'
    ∧ objects st' = <[this := o']> (objects st)
    ∧ repr NodeMaxSize (mkState (nodes st') o') bs'
    ∧ contents bs' = replicate (N.to_nat cnt) v
    ∧ dom (nodes st') ∖ list_to_set bs'.*1 = dom (nodes st).
Proof using NodeMaxSize_ge_2.
  intros Hfits Hlen.
  set (e := mkList None None 0 : @unrolled_list).
  destruct (fill_loop NodeMaxSize NodeMaxSize_ge_2 v (N.to_nat cnt) 0 (mkState (nodes st) e) [])
    as (s' & bs' & Hrun & Hrepr' & Hc & Hout).
  { by apply repr_empty. }
  { simpl. lia. }
  rewrite outside_nil in Hout. simpl in Hout, Hc.
  exists (mkStore (mem s') (<[this := obj s']> (objects st))), (obj s'), bs'.
  split; [| split; [done | split; [by destruct s' | split; [done | done]]]].
  unfold fill_construct. unfold bind at 1. unfold store_obj at 1.
  erewrite call_Ret; [| apply lookup_insert_eq | ].
  - simpl. by rewrite insert_insert_eq.
  - simpl. fold e. unfold trip. rewrite N.sub_0_r. exact Hrun.
Qed.

End Construction.

(** ** Equality of containers *)

Section EqualityOfContainers.

Context {T : Type} `{EqDecision T}.
Variable NodeMaxSize : N.
Implicit Types (st : @store T).

Lemma list_eq_spec st (this other : loc) oa ob
    (bsa bsb : list (loc * list T)) :
  objects st !! this = Some oa →
  objects st !! other = Some ob →
  repr NodeMaxSize (mkState (nodes st) oa) bsa →
  repr NodeMaxSize (mkState (nodes st) ob) bsb →
  list_eq this other st = Ret (bool_decide (contents bsa = contents bsb)) st.
Proof.
  intros Ha Hb Hra Hrb. unfold list_eq.
  destruct (decide (this = other)) as [-> | Hne].
  - rewrite Ha in Hb. injection Hb as ->.
    rewrite bool_decide_eq_true_2; [done|].
    exact (repr_contents_unique NodeMaxSize _ _ _ Hra Hrb).
  - rewrite (bind_Ret _ _ st oa st) by (unfold load; by rewrite Ha).
    rewrite (bind_Ret _ _ st ob st) by (unfold load; by rewrite Hb).
    pose proof Hra as (_ & _ & Hsa & Hlta & _).
    pose proof Hrb as (_ & _ & Hsb & Hltb & _). simpl in Hsa, Hsb, Hlta, Hltb.
    destruct (decide (total_size oa ≠ total_size ob)) as [Hd | Hs].
    + rewrite bool_decide_eq_false_2; [done|].
      intros Heq. apply Hd. by rewrite Hsa, Hsb, Heq.
    + assert (Hlen : length (contents bsa) = length (contents bsb)).
      { destruct (decide (total_size oa = total_size ob)) as [Hq | Hq]; [| done].
        rewrite Hsa, Hsb in Hq. lia. }
      destruct (begin_position NodeMaxSize _ _ Hra) as (b1 & Hb1 & Hp1).
      destruct (begin_position NodeMaxSize _ _ Hrb) as (b2 & Hb2 & Hp2).
      unfold begin_, bind, get_obj, ret in Hb1, Hb2. simpl in Hb1, Hb2.
      injection Hb1 as <-. injection Hb2 as <-.
      pose proof (equal_loop_spec NodeMaxSize (nodes st) oa ob bsa bsb Hra Hrb Hlen
                    (length (contents bsa)) 0 _ _ (S (N.to_nat (total_size oa)))
                    Hp1 Hp2 ltac:(lia) ltac:(lia)) as Hrun.
      rewrite !drop_0 in Hrun.
      rewrite (call_Ret this _ st oa _ _ Ha Hrun). simpl.
      rewrite insert_id by done. by destruct st.
Qed.

(** [a == b] on two well-formed containers answers whether they hold the
    same sequence of elements, and [a != b] the opposite; neither changes
    anything.  ([std::equal] is given one end only: the comparison of the
    sizes before it is what keeps it inside the second container.) *)
Theorem equality_compares_the_sequences st (this other : loc) oa ob
    (bsa bsb : list (loc * list T)) :
  objects st !! this = Some oa →
  objects st !! other = Some ob →
  repr NodeMaxSize (mkState (nodes st) oa) bsa →
  repr NodeMaxSize (mkState (nodes st) ob) bsb →
  list_eq this other st = Ret (bool_decide (contents bsa = contents bsb)) st
  ∧ list_ne this other st = Ret (negb (bool_decide (contents bsa = contents bsb))) st.
Proof.
  intros Ha Hb Hra Hrb.
  pose proof (list_eq_spec st this other oa ob bsa bsb Ha Hb Hra Hrb) as Heq.
  split; [exact Heq|]. unfold list_ne. by rewrite (bind_Ret _ _ _ _ _ Heq).
Qed.

End EqualityOfContainers.

(** ** Indexing, walking backwards, and the empty container *)

Section ReadingByIndex.

Context {T : Type}.
Variable NodeMaxSize : N.
Implicit Types (s : @state T) (bs : list (loc * list T)).

(** [a[k]] with [k] below the number of elements reads the element of
    position [k] and changes nothing. *)
Theorem subscript_reads_the_kth_element s bs (k : nat) (v : T) :
  repr NodeMaxSize s bs → contents bs !! k = Some v →
  subscript (N.of_nat k) s = Ret v s.
Proof.
  intros Hrepr Hk. pose proof Hrepr as (Hchain & Hnd & Hsize & Hlt & Hfits).
  pose proof (lookup_lt_Some _ _ _ Hk) as Hlen.
  destruct (subscript_loop_inside NodeMaxSize s k bs None (head (obj s)) (tail (obj s))
              (S (base.size (mem s))) 0 Hchain)
    as (bs1 & p & vs & bs2 & Hbs & Hrun & Hlo & Hhi).
  { apply seg_size in Hchain; [lia | done]. }
  { simpl. lia. }
  { lia. }
  { simpl. lia. }
  simpl in Hrun, Hlo, Hhi. subst bs.
  unfold subscript.
  rewrite (bind_Ret _ _ s (obj s) s) by reflexivity.
  rewrite (bind_Ret _ _ s (S (base.size (mem s))) s) by reflexivity.
  rewrite (bind_Ret _ _ _ _ _ Hrun). cbn [fst snd].
  rewrite contents_block, lookup_app_r in Hk by lia.
  rewrite lookup_app_l in Hk by lia.
  pose proof (deref_block NodeMaxSize s bs1 p vs bs2 _ v Hrepr Hk) as Hd.
  unfold iter_deref in Hd. cbn [current_node index_in_node] in Hd.
  rewrite size_sub_small by lia.
  replace (N.of_nat k - N.of_nat (length (contents bs1)))%N
    with (N.of_nat (k - length (contents bs1))) by lia.
  exact Hd.
Qed.

(** [a[index]] with [index] not below the number of elements has no bounds
    check: the loop leaves [node] null and the element is read through it,
    which is undefined behaviour (no exception is raised). *)
Theorem subscript_past_the_end_is_undefined s bs (index : N) :
  repr NodeMaxSize s bs → (N.of_nat (length (contents bs)) ≤ index)%N →
  subscript index s = Undefined.
Proof.
  intros Hrepr Hk. pose proof Hrepr as (Hchain & Hnd & Hsize & Hlt & Hfits).
  pose proof (subscript_loop_outside NodeMaxSize s index bs None (head (obj s))
                (tail (obj s)) (S (base.size (mem s))) 0 Hchain) as Hrun.
  unfold subscript.
  rewrite (bind_Ret _ _ s (obj s) s) by reflexivity.
  rewrite (bind_Ret _ _ s (S (base.size (mem s))) s) by reflexivity.
  rewrite (bind_Ret _ _ _ _ _ (Hrun ltac:(apply seg_size in Hchain; [lia | done])
                                  ltac:(simpl; lia) ltac:(simpl; lia))).
  reflexivity.
Qed.

(** The reverse range-for loop reads the elements last to first. *)
Lemma rev_to_list_repr s bs :
  repr NodeMaxSize s bs → rev_to_list s = Ret (rev (contents bs)) s.
Proof.
  intros Hrepr. pose proof Hrepr as (_ & _ & Hsize & _).
  unfold rev_to_list.
  rewrite (bind_Ret _ _ s (obj s) s) by reflexivity.
  rewrite (bind_Ret _ _ s (Iter None 0) s) by reflexivity.
  rewrite (rev_iterate_position NodeMaxSize s bs (length (contents bs)) _ _ Hrepr
             (position_end bs)) by lia.
  by rewrite firstn_all.
Qed.

(** A position of the sequence is denoted by one iterator. *)
Lemma position_inj s bs it1 it2 (k : nat) :
  repr NodeMaxSize s bs → position bs it1 k → position bs it2 k → it1 = it2.
Proof.
  intros (_ & Hnd & _) H1 H2.
  destruct H1 as [| bs1 p vs bs2 i Hbs Hi].
  - remember (length (contents bs)) as k eqn:Hk.
    destruct H2 as [| bs1 p vs bs2 i -> Hi]; [done|].
    rewrite contents_block, !length_app in Hk. lia.
  - remember (length (contents bs1) + i) as k eqn:Hk.
    destruct H2 as [| bs1' q ws bs2' j Hbs' Hj].
    + subst bs. rewrite contents_block, !length_app in Hk. lia.
    + subst bs. destruct (decide (p = q)) as [<- | Hpq].
      * destruct (block_unique _ _ _ _ _ _ _ Hnd Hbs') as (<- & <- & <-).
        do 2 f_equal. lia.
      * exfalso. destruct (block_order _ _ _ _ _ _ _ _ Hpq Hbs')
          as [(mids & _ & ->) | (mids & _ & ->)];
          rewrite contents_block, !length_app in Hk; lia.
Qed.

(** [--] undoes [++]: from an iterator to an element, also the last one,
    [++it] followed by [--it] is back at the element. *)
Theorem inc_then_dec s bs pos (k : nat) :
  repr NodeMaxSize s bs → position bs pos k → k < length (contents bs) →
  (pos' <- iter_inc pos ;; iter_dec pos') s = Ret pos s.
Proof.
  intros Hrepr Hpos Hk.
  destruct (iter_inc_position NodeMaxSize s bs pos k Hrepr Hpos Hk) as (pos' & Hinc & Hpos').
  destruct (iter_dec_position NodeMaxSize s bs pos' k Hrepr Hpos') as (pos'' & Hdec & Hpos'').
  rewrite (bind_Ret _ _ _ _ _ Hinc), Hdec. f_equal.
  exact (position_inj s bs _ _ k Hrepr Hpos'' Hpos).
Qed.

(** [++] undoes [--]: from [end()] or an iterator to an element other than
    the first, [--it] followed by [++it] is back where it was. *)
Theorem dec_then_inc s bs pos (k : nat) :
  repr NodeMaxSize s bs → position bs pos (S k) →
  (pos' <- iter_dec pos ;; iter_inc pos') s = Ret pos s.
Proof.
  intros Hrepr Hpos.
  destruct (iter_dec_position NodeMaxSize s bs pos k Hrepr Hpos) as (pos' & Hdec & Hpos').
  pose proof (position_le _ _ _ Hpos) as Hle.
  destruct (iter_inc_position NodeMaxSize s bs pos' k Hrepr Hpos' ltac:(lia))
    as (pos'' & Hinc & Hpos'').
  rewrite (bind_Ret _ _ _ _ _ Hdec), Hinc. f_equal.
  exact (position_inj s bs _ _ (S k) Hrepr Hpos'' Hpos).
Qed.

(** On the empty container [pop_front()] and [pop_back()] do nothing:
    neither tests for emptiness or throws, and the [erase] they call gets an
    empty range. *)
Theorem pop_on_empty_does_nothing s :
  repr NodeMaxSize s [] → pop_front s = Ret () s ∧ pop_back s = Ret () s.
Proof.
  intros ((Htl & Hhd) & _). destruct s as [m [h t n]]. simpl in Htl, Hhd. subst h t.
  set (s := mkState m (mkList None None n)).
  assert (Herase : erase (Iter None 0) s = Ret (Iter None 0) s).
  { unfold erase. rewrite (bind_Ret _ _ s (Iter None 0) s) by reflexivity.
    unfold erase_range. rewrite (bind_Ret _ _ s (obj s) s) by reflexivity.
    rewrite decide_True by (by left). reflexivity. }
  split.
  - unfold pop_front. rewrite (bind_Ret _ _ s (Iter None 0) s) by reflexivity.
    by rewrite (bind_Ret _ _ _ _ _ Herase).
  - unfold pop_back. rewrite (bind_Ret _ _ s (Iter None 0) s) by reflexivity.
    rewrite (bind_Ret _ _ s (Iter None 0) s) by reflexivity.
    by rewrite (bind_Ret _ _ _ _ _ Herase).
Qed.

End ReadingByIndex.

(** * What the member functions do to the sequence

    The theorems of this part describe the public member functions through
    the sequence of elements a well-formed container holds: [repr s bs]
    says that the container in state [s] is the chain of nodes [bs], and
    [contents bs] is the sequence the range-for loop reads.  [outside s bs]
    is the set of nodes of the store that do not belong to the container;
    an operation that keeps it neither leaks a node nor frees a foreign
    one. *)

Section Behaviour.

Context {T : Type}.
Variable NodeMaxSize : N.
Implicit Types (s : @state T) (bs : list (loc * list T)) (xs : list T) (v : T).
Implicit Types (pos it : iterator).

Lemma represents_size s xs :
  represents NodeMaxSize s xs → total_size (obj s) = N.of_nat (length xs).
Proof. intros (bs & (_ & _ & Hsize & _) & <-). exact Hsize. Qed.

Lemma pop_front_at s bs :
  repr NodeMaxSize s bs → contents bs ≠ [] →
  ∃ s' bs', pop_front s = Ret () s' ∧ repr NodeMaxSize s' bs'
            ∧ contents bs' = drop 1 (contents bs)
            ∧ outside s' bs' = outside s bs.
Proof.
  intros Hrepr Hne.
  destruct bs as [| [p vs] bs]; [done|].
  pose proof Hrepr as (Hchain & _).
  destruct Hchain as (Hhd & n & Hp & _ & Hh & Hvne & _).
  assert (Hlen : 0 < length vs) by (destruct vs; [done | simpl; lia]).
  pose proof (position_at ((p, vs) :: bs) [] p vs bs 0 eq_refl Hlen) as Hpos.
  destruct (erase_at NodeMaxSize s _ _ _ Hrepr Hpos)
    as (it & s' & bs' & Hrun & Hrepr' & Hcont & Hout & _).
  { rewrite contents_cons, length_app. simpl. lia. }
  exists s', bs'. split; [| done].
  unfold pop_front, begin_.
  rewrite bind_assoc. unfold bind at 1. unfold get_obj at 1.
  unfold ret at 1. unfold bind at 1. rewrite Hhd.
  by rewrite (bind_Ret _ _ _ _ _ Hrun).
Qed.

Lemma pop_back_at s bs :
  repr NodeMaxSize s bs → contents bs ≠ [] →
  ∃ s' bs', pop_back s = Ret () s' ∧ repr NodeMaxSize s' bs'
            ∧ contents bs' = take (length (contents bs) - 1) (contents bs)
            ∧ outside s' bs' = outside s bs.
Proof.
  intros Hrepr Hne.
  destruct bs as [| [p vs] bs _] using rev_ind; [done|].
  pose proof Hrepr as (Hchain & _ & _ & _ & Hfits).
  apply chain_last in Hchain as (Htl & n & Hp & Hh & Hvne & _).
  pose proof (holds_length _ _ _ Hh) as Hle.
  assert (Hlen : 0 < length vs) by (destruct vs; [done | simpl; lia]).
  pose proof (position_at (bs ++ [(p, vs)]) bs p vs [] (length vs - 1) eq_refl
                ltac:(lia)) as Hpos.
  destruct (erase_at NodeMaxSize s _ _ _ Hrepr Hpos)
    as (it & s' & bs' & Hrun & Hrepr' & Hcont & Hout & _).
  { rewrite contents_snoc, length_app. lia. }
  exists s', bs'. split; [| split; [done | split; [| done]]].
  - unfold pop_back, end_.
    unfold bind at 1. unfold ret at 1.
    unfold iter_dec. cbn [current_node].
    rewrite bind_assoc. unfold bind at 1. unfold get_obj at 1. rewrite Htl.
    rewrite bind_assoc, (bind_Ret _ _ _ _ _ (get_node_Some _ _ _ Hp)).
    unfold bind at 1. unfold ret at 1.
    destruct Hh as (Hcnt & _). rewrite Hcnt, size_sub_small by lia.
    replace (N.of_nat (length vs) - 1)%N with (N.of_nat (length vs - 1)) by lia.
    by rewrite (bind_Ret _ _ _ _ _ Hrun).
  - rewrite Hcont, contents_snoc, length_app.
    replace (S (length (contents bs) + (length vs - 1)))
      with (length (contents bs ++ vs)) by (rewrite length_app; lia).
    rewrite drop_all, app_nil_r. f_equal. lia.
Qed.

(** ** Reading *)

(** The loop [for (it = begin(); it != end(); ++it) *it] over a well-formed
    container terminates, reads its elements first to last and changes
    nothing; [size()] is the number of elements read and [empty()] tells
    whether there is none. *)
Theorem range_for_reads_the_sequence s xs :
  represents NodeMaxSize s xs →
  to_list s = Ret xs s
  ∧ size s = Ret (N.of_nat (length xs)) s
  ∧ empty s = Ret (match xs with [] => true | _ => false end) s.
Proof.
  intros Hr. pose proof (represents_size s xs Hr) as Hsize.
  destruct Hr as (bs & Hrepr & <-).
  pose proof Hrepr as (_ & _ & _ & _ & Hfits).
  split; [exact (to_list_repr NodeMaxSize Hfits s bs Hrepr)|].
  unfold size, empty, bind, get_obj, ret. rewrite Hsize. split; [done|].
  f_equal. by destruct (contents bs).
Qed.

(** The loop [for (rit = rbegin(); rit != rend(); ++rit) *rit] reads the
    elements last to first and changes nothing. *)
Theorem reverse_range_for_reads_backwards s xs :
  represents NodeMaxSize s xs → rev_to_list s = Ret (rev xs) s.
Proof.
  intros (bs & Hrepr & <-). exact (rev_to_list_repr NodeMaxSize s bs Hrepr).
Qed.

(** ** Insertion *)

(** [emplace(pos, args)] with a constructor that succeeds, at a valid
    position [k] of a well-formed container with [NodeMaxSize >= 2]: the new
    element is inserted before position [k], the iterator returned denotes
    it and reads it, and the container allocates at most what it keeps. *)
Theorem emplace_inserts_before_position s bs pos (k : nat) v :
  (2 ≤ NodeMaxSize)%N →
  repr NodeMaxSize s bs →
  position bs pos k →
  (total_size (obj s) + 1 < SIZE_MOD)%N →
  ∃ it s' bs',
    emplace NodeMaxSize pos (Yields v) s = Ret it s'
    ∧ repr NodeMaxSize s' bs'
    ∧ contents bs' = take k (contents bs) ++ v :: drop k (contents bs)
    ∧ position bs' it k
    ∧ iter_deref it s' = Ret v s'
    ∧ outside s' bs' = outside s bs.
Proof.
  intros HN Hrepr Hpos Htot.
  destruct (emplace_at NodeMaxSize s bs pos k v HN Hrepr Hpos Htot)
    as (it & s' & bs' & Hrun & Hrepr' & Hc & Hit & _ & _ & Hout).
  exists it, s', bs'. repeat (split; [done|]). split; [| done].
  apply (deref_position NodeMaxSize s' bs' it k v Hrepr' Hit).
  pose proof (position_le _ _ _ Hpos) as Hle.
  rewrite Hc, lookup_app_r by (rewrite length_take; lia).
  rewrite length_take. by replace (k - k `min` length (contents bs)) with 0 by lia.
Qed.




(** [assign_range(first, last)] replaces the elements by those of the
    range, in order. *)
Theorem assign_range_replaces s bs xs :
  (2 ≤ NodeMaxSize)%N →
  repr NodeMaxSize s bs →
  (N.of_nat (length xs) < SIZE_MOD)%N →
  ∃ s' bs', assign_range NodeMaxSize xs s = Ret () s'
            ∧ repr NodeMaxSize s' bs'
            ∧ contents bs' = xs
            ∧ outside s' bs' = outside s bs.
Proof.
  intros HN Hrepr Hlen.
  destruct (clear_at NodeMaxSize s bs Hrepr) as (s1 & Hclear & Hr1 & _ & _ & Hout1).
  pose proof Hr1 as (_ & _ & Hs1 & _). simpl in Hs1.
  destruct (for_each_push_back NodeMaxSize HN xs s1 [] Hr1 ltac:(lia))
    as (s' & bs' & Hrun & Hrepr' & Hc & Hout).
  exists s', bs'. split; [| split; [done | split; [done | by rewrite Hout]]].
  unfold assign_range. by rewrite (bind_Ret _ _ _ _ _ Hclear).
Qed.

(** [prepend_range(first, last)] pushes the elements of the range to the
    front one by one: they end up in front in reverse order. *)
Theorem prepend_range_reverses s xs ys :
  (2 ≤ NodeMaxSize)%N →
  represents NodeMaxSize s ys →
  (N.of_nat (length ys) + N.of_nat (length xs) < SIZE_MOD)%N →
  ∃ s', prepend_range NodeMaxSize xs s = Ret () s'
        ∧ represents NodeMaxSize s' (rev xs ++ ys).
Proof.
  intros HN Hr Htot. rewrite <- (represents_size s ys Hr) in Htot.
  destruct Hr as (bs & Hrepr & <-).
  destruct (for_each_push_front NodeMaxSize HN xs s bs Hrepr Htot)
    as (s' & bs' & Hrun & Hrepr' & Hc & _).
  exists s'. split; [done|]. by exists bs'.
Qed.

End Behaviour.

Section Removal.

Context {T : Type}.
Variable NodeMaxSize : N.
Implicit Types (s : @state T) (bs : list (loc * list T)) (xs : list T) (v : T).
Implicit Types (pos it first last : iterator).

(** ** Erasure *)


(** [erase(pos)] at the element of position [k] removes that element; with
    the exception of the last element of the sequence when its node keeps
    other elements, the iterator returned is [end()] after the last element
    and otherwise reads the element that followed. *)
Theorem erase_removes_the_element s bs pos (k : nat) :
  repr NodeMaxSize s bs → position bs pos k → k < length (contents bs) →
  ∃ it s' bs',
    erase pos s = Ret it s'
    ∧ repr NodeMaxSize s' bs'
    ∧ contents bs' = take k (contents bs) ++ drop (S k) (contents bs)
    ∧ outside s' bs' = outside s bs
    ∧ if decide (S k = length (contents bs) ∧ current_node pos = tail (obj s)
                 ∧ index_in_node pos ≠ 0%N)
      then it = pos ∧ ∀ k', ¬ position bs' it k'
      else (S k = length (contents bs) → it = Iter None 0)
           ∧ ∀ v, contents bs !! S k = Some v → iter_deref it s' = Ret v s'.
Proof.
  intros Hrepr Hpos Hk.
  destruct (erase_at NodeMaxSize s bs pos k Hrepr Hpos Hk)
    as (it & s' & bs' & Hrun & Hrepr' & Hc & Hout & Hit).
  exists it, s', bs'. repeat (split; [done|]).
  destruct (decide _) as [Hex | Hex]; [done|].
  assert (Hk1 : length (take k (contents bs)) = k) by (rewrite length_take; lia).
  split.
  - intros Hlast. apply (proj2 (position_end_iff bs' it k Hit)).
    by rewrite Hc, Hlast, drop_all, app_nil_r.
  - intros v Hv. apply (deref_position NodeMaxSize s' bs' it k v Hrepr' Hit).
    rewrite Hc, lookup_app_r by lia. rewrite Hk1, Nat.sub_diag, lookup_drop.
    by rewrite Nat.add_0_r.
Qed.

(** [pop_front()] on a non-empty container removes the first element. *)
Theorem pop_front_removes_first s x xs :
  represents NodeMaxSize s (x :: xs) →
  ∃ s', pop_front s = Ret () s' ∧ represents NodeMaxSize s' xs.
Proof.
  intros (bs & Hrepr & Hc).
  destruct (pop_front_at NodeMaxSize s bs Hrepr) as (s' & bs' & Hrun & Hrepr' & Hc' & _).
  { by rewrite Hc. }
  exists s'. split; [done|]. exists bs'. split; [done|]. by rewrite Hc', Hc.
Qed.

(** [pop_back()] on a non-empty container removes the last element. *)
Theorem pop_back_removes_last s xs x :
  represents NodeMaxSize s (xs ++ [x]) →
  ∃ s', pop_back s = Ret () s' ∧ represents NodeMaxSize s' xs.
Proof.
  intros (bs & Hrepr & Hc).
  destruct (pop_back_at NodeMaxSize s bs Hrepr) as (s' & bs' & Hrun & Hrepr' & Hc' & _).
  { rewrite Hc. by destruct xs. }
  exists s'. split; [done|]. exists bs'. split; [done|].
  rewrite Hc', Hc, length_app. simpl.
  replace (length xs + 1 - 1) with (length xs) by lia.
  by rewrite take_app_length.
Qed.

(** [clear()] empties the container and frees its nodes: the nodes left in
    the store are those that did not belong to it, each as it was. *)
Theorem clear_frees_every_node s bs :
  repr NodeMaxSize s bs →
  ∃ s', clear s = Ret () s'
        ∧ represents NodeMaxSize s' []
        ∧ dom (mem s') = outside s bs
        ∧ ∀ x, x ∈ outside s bs → mem s' !! x = mem s !! x.
Proof.
  intros Hrepr.
  destruct (clear_at NodeMaxSize s bs Hrepr) as (s' & Hrun & Hrepr' & Hdom & Hframe & _).
  exists s'. split; [done|]. split; [by exists [] |]. split; [done|].
  intros x Hx. apply Hframe. unfold outside in Hx.
  apply elem_of_difference in Hx as [_ Hx]. by rewrite elem_of_list_to_set in Hx.
Qed.

(** ** Operations that undo each other *)

(** Erasing through the iterator that [emplace] returned gives back the
    sequence there was before, and no node is lost. *)
Theorem emplace_then_erase_restores s bs pos (k : nat) v :
  (2 ≤ NodeMaxSize)%N →
  repr NodeMaxSize s bs →
  position bs pos k →
  (total_size (obj s) + 1 < SIZE_MOD)%N →
  ∃ it s' bs',
    (it <- emplace NodeMaxSize pos (Yields v) ;; erase it) s = Ret it s'
    ∧ repr NodeMaxSize s' bs'
    ∧ contents bs' = contents bs
    ∧ outside s' bs' = outside s bs.
Proof.
  intros HN Hrepr Hpos Htot.
  destruct (emplace_at NodeMaxSize s bs pos k v HN Hrepr Hpos Htot)
    as (it1 & s1 & bs1 & Hrun1 & Hrepr1 & Hc1 & Hit1 & _ & _ & Hout1).
  pose proof (position_le _ _ _ Hpos) as Hle.
  assert (Hk1 : length (take k (contents bs)) = k) by (rewrite length_take; lia).
  destruct (erase_at NodeMaxSize s1 bs1 it1 k Hrepr1 Hit1)
    as (it & s' & bs' & Hrun & Hrepr' & Hc & Hout & _).
  { rewrite Hc1, length_app, Hk1. simpl. lia. }
  exists it, s', bs'. split; [by rewrite (bind_Ret _ _ _ _ _ Hrun1)|].
  split; [done|]. split; [| by rewrite Hout].
  rewrite Hc, Hc1.
  rewrite take_app_le by lia. rewrite take_take, Nat.min_id.
  rewrite drop_app_ge by lia. rewrite Hk1.
  replace (S k - k) with 1 by lia. simpl. rewrite drop_0.
  apply take_drop.
Qed.

(** [push_back] followed by [pop_back] gives back the sequence, and no node
    is lost. *)
Theorem push_back_then_pop_back s bs v :
  (2 ≤ NodeMaxSize)%N →
  repr NodeMaxSize s bs →
  (total_size (obj s) + 1 < SIZE_MOD)%N →
  ∃ s' bs',
    (push_back NodeMaxSize v ;;; pop_back) s = Ret () s'
    ∧ repr NodeMaxSize s' bs'
    ∧ contents bs' = contents bs
    ∧ outside s' bs' = outside s bs.
Proof.
  intros HN Hrepr Htot.
  destruct (push_back_at NodeMaxSize HN s bs v Hrepr Htot)
    as (s1 & bs1 & Hrun1 & Hrepr1 & Hc1 & Hout1).
  destruct (pop_back_at NodeMaxSize s1 bs1 Hrepr1)
    as (s' & bs' & Hrun & Hrepr' & Hc & Hout).
  { rewrite Hc1. by destruct (contents bs). }
  exists s', bs'. split; [by rewrite (bind_Ret _ _ _ _ _ Hrun1)|].
  split; [done|]. split; [| by rewrite Hout].
  rewrite Hc, Hc1, length_app. simpl.
  replace (length (contents bs) + 1 - 1) with (length (contents bs)) by lia.
  by rewrite take_app_length.
Qed.

(** [push_front] followed by [pop_front] gives back the sequence, and no
    node is lost. *)
Theorem push_front_then_pop_front s bs v :
  (2 ≤ NodeMaxSize)%N →
  repr NodeMaxSize s bs →
  (total_size (obj s) + 1 < SIZE_MOD)%N →
  ∃ s' bs',
    (push_front NodeMaxSize v ;;; pop_front) s = Ret () s'
    ∧ repr NodeMaxSize s' bs'
    ∧ contents bs' = contents bs
    ∧ outside s' bs' = outside s bs.
Proof.
  intros HN Hrepr Htot.
  destruct (push_front_at NodeMaxSize HN s bs v Hrepr Htot)
    as (s1 & bs1 & Hrun1 & Hrepr1 & Hc1 & Hout1).
  destruct (pop_front_at NodeMaxSize s1 bs1 Hrepr1)
    as (s' & bs' & Hrun & Hrepr' & Hc & Hout).
  { by rewrite Hc1. }
  exists s', bs'. split; [by rewrite (bind_Ret _ _ _ _ _ Hrun1)|].
  split; [done|]. split; [| by rewrite Hout].
  by rewrite Hc, Hc1.
Qed.

(** ** A constructor that throws *)

(** [emplace_back(args)] with a constructor that throws, on any well-formed
    container with [NodeMaxSize >= 2]: the exception leaves the call,
    [size()] is what it was, and [clear()] afterwards still gives back every
    node of the container, also the one allocated or split off before the
    constructor ran. *)
Theorem failed_emplace_back_leaks_nothing s bs :
  (2 ≤ NodeMaxSize)%N →
  repr NodeMaxSize s bs →
  ∃ s1 s2,
    emplace_back NodeMaxSize Throws s = Raise construction_failed s1
    ∧ size s1 = Ret (N.of_nat (length (contents bs))) s1
    ∧ clear s1 = Ret () s2
    ∧ represents NodeMaxSize s2 []
    ∧ dom (mem s2) = outside s bs.
Proof.
  intros HN Hrepr.
  destruct (emplace_back_Throws_cleanup NodeMaxSize HN s bs Hrepr)
    as (s1 & s2 & Hrun & Hsize & Hclear & Hrepr2 & Hout).
  exists s1, s2. split; [done|]. split.
  { unfold size, bind, get_obj, ret. rewrite Hsize.
    by rewrite (repr_size NodeMaxSize s bs Hrepr). }
  split; [done|]. split; [by exists [] |].
  by rewrite <- Hout, outside_nil.
Qed.

End Removal.

Section Copies.

Context {T : Type}.
Variable NodeMaxSize : N.
Implicit Types (st : @store T) (o : @unrolled_list) (bs : list (loc * list T)).

(** ** Copies *)

(** [unrolled_list(const unrolled_list& other)] builds a deep copy: the new
    container holds the same sequence, node by node, in nodes that did not
    exist before, and the source is what it was. *)
Theorem copy_construct_is_deep st (this other : loc) o bs :
  objects st !! other = Some o →
  this ≠ other →
  repr NodeMaxSize (mkState (nodes st) o) bs →
  ∃ st' o' bs',
    copy_construct NodeMaxSize this other st = Ret () st'
    ∧ objects st' = <[this := o']> (objects st)
    ∧ repr NodeMaxSize (mkState (nodes st') o') bs'
    ∧ contents bs' = contents bs
    ∧ length bs' = length bs
    ∧ repr NodeMaxSize (mkState (nodes st') o) bs
    ∧ (∀ x, x ∈ bs'.*1 → x ∉ dom (nodes st)).
Proof.
  intros Ho Hne Hrepr.
  destruct (copy_construct_spec NodeMaxSize st this other o bs Ho Hne Hrepr)
    as (st' & o' & bs' & Hrun & Hobj & Hrepr' & Hlay & Hframe & Hfresh & _).
  exists st', o', bs'. repeat (split; [done|]).
  split; [by apply contents_same_layout|].
  split; [by rewrite <- (length_fmap snd bs'), Hlay, length_fmap|].
  split; [| done].
  apply (repr_frame NodeMaxSize (nodes st) (nodes st') o bs Hrepr).
  intros x Hx. apply Hframe.
  exact (repr_keys_allocated NodeMaxSize _ _ _ _ Hrepr Hx).
Qed.

(** [a = b] between two different containers that share no node: [a] ends
    up with a deep copy of the sequence of [b], [b] is what it was, and the
    nodes [a] had are freed. *)
Theorem copy_assign_copies st (this other : loc) oa ob bsa bsb :
  objects st !! this = Some oa →
  objects st !! other = Some ob →
  this ≠ other →
  repr NodeMaxSize (mkState (nodes st) oa) bsa →
  repr NodeMaxSize (mkState (nodes st) ob) bsb →
  (∀ x, x ∈ bsa.*1 → x ∉ bsb.*1) →
  ∃ st' o' bs',
    copy_assign NodeMaxSize this other st = Ret () st'
    ∧ objects st' = <[this := o']> (objects st)
    ∧ repr NodeMaxSize (mkState (nodes st') o') bs'
    ∧ contents bs' = contents bsb
    ∧ repr NodeMaxSize (mkState (nodes st') ob) bsb
    ∧ (∀ x, x ∈ bs'.*1 → x ∉ dom (nodes st))
    ∧ dom (nodes st') = (dom (nodes st) ∖ list_to_set bsa.*1) ∪ list_to_set bs'.*1.
Proof.
  intros Ha Hb Hne Hra Hrb Hdisj.
  destruct (copy_assign_spec NodeMaxSize st this other oa ob bsa bsb Ha Hb Hne Hra Hrb Hdisj)
    as (st' & o' & bs' & Hrun & Hobj & Hrepr' & Hlay & Hsrc & Hfresh & Hdom).
  exists st', o', bs'. repeat (split; [done|]).
  split; [by apply contents_same_layout | done].
Qed.

End Copies.

(** ** Concrete runs over [int] elements *)

Lemma one_two_three_reached :
  sequence_ (push_back 4 <$> [1; 2; 3]%Z) empty_state = Ret () one_two_three.
Proof. vm_compute. reflexivity. Qed.

Lemma one_two_three_elements :
  to_list one_two_three = Ret [1; 2; 3]%Z one_two_three.
Proof. vm_compute. reflexivity. Qed.

(** C5. With [NodeMaxSize = 4], fourteen [push_back]s of 1..14 followed by
    five [pop_front]s return normally, [size()] is 9 and the range-for loop
    reads 6, 7, ..., 14 in that order. *)
Theorem push_14_pop_5 :
  ∃ s, (sequence_ (push_back 4 <$> [1; 2; 3; 4; 5; 6; 7; 8; 9; 10; 11; 12; 13; 14]%Z) ;;;
        sequence_ (replicate 5 pop_front) ;;;
        n <- size ;;
        xs <- to_list ;;
        ret (n, xs)) empty_state
       = Ret (9%N, [6; 7; 8; 9; 10; 11; 12; 13; 14]%Z) s.
Proof. eexists. vm_compute. reflexivity. Qed.

(** The same driver with the default [NodeMaxSize = 10] of the header. *)
Lemma push_14_pop_5_default :
  ∃ s, (sequence_ (push_back 10 <$> [1; 2; 3; 4; 5; 6; 7; 8; 9; 10; 11; 12; 13; 14]%Z) ;;;
        sequence_ (replicate 5 pop_front) ;;;
        n <- size ;;
        xs <- to_list ;;
        ret (n, xs)) empty_state
       = Ret (9%N, [6; 7; 8; 9; 10; 11; 12; 13; 14]%Z) s.
Proof. eexists. vm_compute. reflexivity. Qed.

(** C1. The strong guarantee fails.  On the one-node container [{1, 2, 3}]
    ([NodeMaxSize = 4]), [emplace(begin(), args)] with a throwing constructor
    first shifts the three elements up and only then constructs: the
    exception leaves [count = 3] over the cells [Raw; 1; 2; 3], so the first
    cell of the sequence holds no element (reading the container back is
    undefined behaviour) and the element 3 sits beyond [count]. *)
Theorem emplace_throw_changes_container :
  let damaged :=
    mkState {[ 1%positive := mkNode 3 None None [Raw; Live 1%Z; Live 2%Z; Live 3%Z] ]}
            (mkList (Some 1%positive) (Some 1%positive) 3) in
  (b <- begin_ ;; emplace 4 b Throws) one_two_three
    = Raise construction_failed damaged
  ∧ damaged ≠ one_two_three
  ∧ to_list one_two_three = Ret [1; 2; 3]%Z one_two_three
  ∧ to_list damaged = Undefined
  ∧ (b <- begin_ ;; iter_deref b) damaged = Undefined.
Proof.
  cbv zeta. repeat apply conj; try (vm_compute; reflexivity).
  intros Heq. apply (f_equal (λ s, mem s !! 1%positive ≫= λ n, data n !! 0%nat)) in Heq.
  vm_compute in Heq. discriminate.
Qed.

(** C4. An empty node can persist.  [emplace] on the empty container creates
    the head node before the element is constructed; when the constructor
    throws, the call ends with [head] pointing to a node of [count = 0]
    while [size()] is 0, so [begin() != end()] and the range-for loop reads
    a cell that holds no element. *)
Theorem failed_first_emplace_leaves_empty_node :
  let leftover :=
    mkState {[ 1%positive := mkNode 0 None None (replicate 10 Raw) ]}
            (mkList (Some 1%positive) (Some 1%positive) 0) in
  emplace_back 10 Throws empty_state = Raise construction_failed leftover
  ∧ (count <$> mem leftover !! 1%positive) = Some 0%N
  ∧ head (obj leftover) = Some 1%positive
  ∧ size leftover = Ret 0%N leftover
  ∧ (b <- begin_ ;; e <- end_ ;; ret (bool_decide (b = e))) leftover = Ret false leftover
  ∧ to_list leftover = Undefined.
Proof. cbv zeta. repeat apply conj; (vm_compute; reflexivity). Qed.

(** C2. With [NodeMaxSize = 1] the split moves [NodeMaxSize / 2 = 0]
    elements: the original node keeps [count = 1 = NodeMaxSize], the new node
    is linked behind it with [count = 0], and the insertion goes on in the
    original node, which is still full; the element is constructed at cell 1
    of a one-cell storage, which is undefined behaviour. *)
Theorem split_of_one_cell_node_frees_no_cell :
  let full := mkState {[ 1%positive := mkNode 1 None None [Live 1%Z] ]}
                      (mkList (Some 1%positive) (Some 1%positive) 1) in
  let after_split :=
    mkState {[ 1%positive := mkNode 1 (Some 2%positive) None [Live 1%Z];
               2%positive := mkNode 0 None (Some 1%positive) [Raw] ]}
            (mkList (Some 1%positive) (Some 2%positive) 1) in
  push_back 1 1%Z empty_state = Ret () full
  ∧ split_full_node 1 1%positive full = Ret 2%positive after_split
  ∧ push_back 1 2%Z full = Undefined
  ∧ push_front 1 2%Z full = Undefined.
Proof. cbv zeta. repeat apply conj; (vm_compute; reflexivity). Qed.

(** C3. Erasing a suffix of the tail node returns a dangling position.  On
    [{1, 2, 3}] in one node, [erase(first, end())] with [first] at index 1
    keeps [{1}] and returns the iterator (node, 1): its index equals the new
    [count], it is not [end()], and dereferencing it is undefined behaviour.
    [erase(pos)] of the last element behaves the same way. *)
Theorem erase_tail_suffix_returns_dangling :
  let first := Iter (Some 1%positive) 1 in
  let kept :=
    mkState {[ 1%positive := mkNode 1 None None [Live 1%Z; Raw; Raw; Raw] ]}
            (mkList (Some 1%positive) (Some 1%positive) 1) in
  let last_elem := Iter (Some 1%positive) 2 in
  let kept2 :=
    mkState {[ 1%positive := mkNode 2 None None [Live 1%Z; Live 2%Z; Raw; Raw] ]}
            (mkList (Some 1%positive) (Some 1%positive) 2) in
  (e <- end_ ;; erase_range first e) one_two_three = Ret first kept
  ∧ to_list kept = Ret [1%Z] kept
  ∧ end_ kept = Ret (Iter None 0) kept
  ∧ iter_deref first kept = Undefined
  ∧ erase last_elem one_two_three = Ret last_elem kept2
  ∧ to_list kept2 = Ret [1; 2]%Z kept2
  ∧ iter_deref last_elem kept2 = Undefined
  ∧ first ≠ Iter None 0 ∧ last_elem ≠ Iter None 0.
Proof.
  cbv zeta. repeat apply conj.
  1-7: vm_compute; reflexivity.
  all: intros Heq; inversion Heq.
Qed.

(** ** Construction and assignment of container objects *)

Section Objects.

Context {T : Type}.
Variable NodeMaxSize : N.
Implicit Types (st : @store T) (o : @unrolled_list).

(** C10. Assigning a container to itself, by copy or by move, is guarded by
    the address comparison [this != &other]: the call returns at once and
    the node store and every container object are exactly as before, so the
    size and the element sequence are unchanged. *)
Theorem self_assignment_is_identity (a : loc) st :
  copy_assign NodeMaxSize a a st = Ret () st
  ∧ move_assign a a st = Ret () st
  ∧ (copy_assign NodeMaxSize a a ;;; call a to_list) st = call a to_list st
  ∧ (move_assign a a ;;; call a to_list) st = call a to_list st
  ∧ (copy_assign NodeMaxSize a a ;;; call a size) st = call a size st
  ∧ (move_assign a a ;;; call a size) st = call a size st.
Proof.
  assert (Hc : copy_assign NodeMaxSize a a st = Ret () st).
  { unfold copy_assign. destruct (decide (a ≠ a)); [done | reflexivity]. }
  assert (Hm : move_assign a a st = Ret () st).
  { unfold move_assign. destruct (decide (a ≠ a)); [done | reflexivity]. }
  repeat apply conj; try done; unfold bind; by rewrite ?Hc, ?Hm.
Qed.

(** C6. Move construction copies the three fields of the source object into
    the new object and resets the source: the node store is untouched (no
    node is allocated, no element is copied or moved), the new object owns
    the whole chain, and the source object is exactly what the default
    constructor builds, so [size()] is 0, [begin() == end()], and every
    member function run on it afterwards runs as on a fresh container. *)
Theorem move_construct_transfers st (this other : loc) o :
  objects st !! other = Some o →
  this ≠ other →
  let st' := mkStore (nodes st)
                     (<[other := mkList None None 0]> (<[this := o]> (objects st))) in
  move_construct this other st = Ret () st'
  ∧ nodes st' = nodes st
  ∧ objects st' !! this = Some o
  ∧ objects st' !! other = Some (mkList None None 0)
  ∧ call other size st' = Ret 0%N st'
  ∧ call other (b <- begin_ ;; e <- end_ ;; ret (bool_decide (b = e))) st' = Ret true st'
  ∧ default_construct other st' = Ret () st'
  ∧ ∀ A (m : M A), (default_construct other ;;; call other m) st' = call other m st'.
Proof.
  intros Ho Hne. cbv zeta.
  set (e := mkList None None 0).
  set (objs := <[other := e]> (<[this := o]> (objects st))).
  assert (Hother : objs !! other = Some e) by apply lookup_insert_eq.
  assert (Hid : <[other := e]> objs = objs) by (by apply insert_id).
  assert (Hdef : default_construct other (mkStore (nodes st) objs)
                 = Ret () (mkStore (nodes st) objs)).
  { unfold default_construct, store_obj. simpl. fold e. by rewrite Hid. }
  repeat apply conj.
  - unfold move_construct, bind, load, store_obj. rewrite Ho. simpl.
    by destruct o.
  - reflexivity.
  - simpl. unfold objs. rewrite lookup_insert_ne by done. apply lookup_insert_eq.
  - exact Hother.
  - unfold call. simpl. rewrite Hother. simpl. by rewrite Hid.
  - unfold call. simpl. rewrite Hother. simpl. by rewrite Hid.
  - exact Hdef.
  - intros A m. unfold bind. by rewrite Hdef.
Qed.

End Objects.

(** ** The invariant and the object-level facts at concrete inputs *)

Lemma repr_empty_state : repr 4 empty_state [].
Proof.
  unfold repr, chain. simpl. repeat apply conj; try reflexivity.
  apply NoDup_nil_2.
Qed.

Lemma repr_one_two_three :
  repr 4 one_two_three [(1%positive, [1; 2; 3]%Z)].
Proof.
  unfold repr, chain. simpl. repeat apply conj; try reflexivity.
  - eexists. split; [apply lookup_singleton_eq|]. simpl.
    unfold holds. simpl. repeat apply conj; try reflexivity; try done.
  - apply NoDup_singleton.
Qed.


Lemma move_construct_transfers_witness :
  move_construct 6%positive 5%positive two_objects_before
  = Ret () (mkStore (nodes two_objects_before)
                    (<[5%positive := mkList None None 0]>
                       (<[6%positive := obj one_two_three]>
                          (objects two_objects_before)))).
Proof.
  refine (proj1 (move_construct_transfers two_objects_before 6%positive 5%positive
                   (obj one_two_three) _ _)).
  - vm_compute. reflexivity.
  - intros Heq. inversion Heq.
Defined.

(** The erase theorem at the last element of [{1, 2, 3}]: the exceptional
    case, as evaluated above. *)
Example erase_repr_last_of_one_two_three :
  ∃ it s' bs',
    erase (Iter (Some 1%positive) 2) one_two_three = Ret it s'
    ∧ repr 4 s' bs'
    ∧ contents bs' = [1; 2]%Z
    ∧ it = Iter (Some 1%positive) 2
    ∧ ∀ k, ¬ position bs' it k.
Proof.
  destruct (erase_repr 4 one_two_three [(1%positive, [1; 2; 3]%Z)]
              (Iter (Some 1%positive) (N.of_nat 2)) (0 + 2) repr_one_two_three)
    as (it & s' & bs' & Hrun & Hrepr & Hc & Hit).
  { by apply (position_at _ [] 1%positive [1; 2; 3]%Z [] 2); [| simpl; lia]. }
  { simpl. lia. }
  exists it, s', bs'. split; [exact Hrun|]. split; [done|]. split; [exact Hc|].
  destruct (decide _) as [_ | Hno] in Hit; [exact Hit|].
  exfalso. apply Hno. split; [done|]. split; [done|]. simpl. lia.
Qed.

(** And at its first element: the iterator returned denotes the element
    that followed. *)
Example erase_repr_first_of_one_two_three :
  ∃ it s' bs',
    erase (Iter (Some 1%positive) 0) one_two_three = Ret it s'
    ∧ repr 4 s' bs'
    ∧ contents bs' = [2; 3]%Z
    ∧ position bs' it 0.
Proof.
  destruct (erase_repr 4 one_two_three [(1%positive, [1; 2; 3]%Z)]
              (Iter (Some 1%positive) (N.of_nat 0)) (0 + 0) repr_one_two_three)
    as (it & s' & bs' & Hrun & Hrepr & Hc & Hit).
  { by apply (position_at _ [] 1%positive [1; 2; 3]%Z [] 0); [| simpl; lia]. }
  { simpl. lia. }
  exists it, s', bs'. split; [exact Hrun|]. split; [done|]. split; [exact Hc|].
  destruct (decide _) as [(Hk & _) | _] in Hit; [| exact Hit].
  simpl in Hk. lia.
Qed.

(** ** The theorems on the sequence at concrete inputs *)

Lemma represents_one_two_three : represents 4 one_two_three [1; 2; 3]%Z.
Proof. exists [(1%positive, [1; 2; 3]%Z)]. split; [exact repr_one_two_three | reflexivity]. Qed.

Lemma position_in_one_two_three (i : nat) :
  i < 3 →
  position [(1%positive, [1; 2; 3]%Z)] (Iter (Some 1%positive) (N.of_nat i)) i.
Proof.
  intros Hi. exact (position_at _ [] 1%positive [1; 2; 3]%Z [] i eq_refl Hi).
Qed.

Lemma repr_two_lists_5 :
  repr 4 (mkState (nodes two_lists) (obj one_two_three)) [(1%positive, [1; 2; 3]%Z)].
Proof.
  unfold repr, chain. simpl. repeat apply conj; try reflexivity.
  - eexists. split; [reflexivity|]. simpl.
    unfold holds. simpl. repeat apply conj; try reflexivity; try done.
  - apply NoDup_singleton.
Qed.

Lemma repr_two_lists_6 :
  repr 4 (mkState (nodes two_lists) (mkList (Some 2%positive) (Some 2%positive) 1))
       [(2%positive, [7]%Z)].
Proof.
  unfold repr, chain. simpl. repeat apply conj; try reflexivity.
  - eexists. split; [reflexivity|]. simpl.
    unfold holds. simpl. repeat apply conj; try reflexivity; try done.
  - apply NoDup_singleton.
Qed.

Lemma two_lists_disjoint (x : loc) :
  x ∈ [(2%positive, [7]%Z)].*1 → x ∉ [(1%positive, [1; 2; 3]%Z)].*1.
Proof.
  simpl. intros Hx Hy. apply list_elem_of_singleton in Hx, Hy. congruence.
Qed.

Lemma range_for_reads_the_sequence_witness :
  to_list one_two_three = Ret [1; 2; 3]%Z one_two_three
  ∧ size one_two_three = Ret 3%N one_two_three
  ∧ empty one_two_three = Ret false one_two_three.
Proof.
  exact (range_for_reads_the_sequence 4 one_two_three [1; 2; 3]%Z
           represents_one_two_three).
Defined.

Lemma reverse_range_for_reads_backwards_witness :
  rev_to_list one_two_three = Ret [3; 2; 1]%Z one_two_three.
Proof.
  exact (reverse_range_for_reads_backwards 4 one_two_three [1; 2; 3]%Z
           represents_one_two_three).
Defined.

Lemma inc_then_dec_witness :
  (pos' <- iter_inc (Iter (Some 1%positive) 2) ;; iter_dec pos') one_two_three
  = Ret (Iter (Some 1%positive) 2) one_two_three.
Proof.
  apply (inc_then_dec 4 one_two_three [(1%positive, [1; 2; 3]%Z)]
           (Iter (Some 1%positive) 2) 2 repr_one_two_three).
  - apply (position_in_one_two_three 2). lia.
  - simpl. lia.
Defined.

Lemma dec_then_inc_witness :
  (pos' <- iter_dec (Iter None 0) ;; iter_inc pos') one_two_three
  = Ret (Iter None 0) one_two_three.
Proof.
  apply (dec_then_inc 4 one_two_three [(1%positive, [1; 2; 3]%Z)]
           (Iter None 0) 2 repr_one_two_three).
  exact (position_end [(1%positive, [1; 2; 3]%Z)]).
Defined.

Lemma dec_begin_is_end_witness :
  (b <- begin_ ;; iter_dec b) one_two_three = Ret (Iter None 0) one_two_three.
Proof.
  exact (dec_begin_is_end 4 one_two_three [(1%positive, [1; 2; 3]%Z)]
           repr_one_two_three).
Defined.

Lemma subscript_reads_the_kth_element_witness :
  subscript 1 one_two_three = Ret 2%Z one_two_three.
Proof.
  apply (subscript_reads_the_kth_element 4 one_two_three
           [(1%positive, [1; 2; 3]%Z)] 1 2%Z repr_one_two_three).
  reflexivity.
Defined.

Lemma subscript_past_the_end_is_undefined_witness :
  subscript 3 one_two_three = Undefined.
Proof.
  apply (subscript_past_the_end_is_undefined 4 one_two_three
           [(1%positive, [1; 2; 3]%Z)] 3 repr_one_two_three).
  simpl. lia.
Defined.

Lemma emplace_inserts_before_position_witness :
  ∃ it s' bs',
    emplace 4 (Iter (Some 1%positive) 1) (Yields 9%Z) one_two_three = Ret it s'
    ∧ repr 4 s' bs'
    ∧ contents bs' = [1; 9; 2; 3]%Z
    ∧ position bs' it 1
    ∧ iter_deref it s' = Ret 9%Z s'
    ∧ outside s' bs' = outside one_two_three [(1%positive, [1; 2; 3]%Z)].
Proof.
  apply (emplace_inserts_before_position 4 one_two_three
           [(1%positive, [1; 2; 3]%Z)] (Iter (Some 1%positive) 1) 1 9%Z).
  - lia.
  - exact repr_one_two_three.
  - apply (position_in_one_two_three 1). lia.
  - reflexivity.
Defined.




Lemma assign_range_replaces_witness :
  ∃ s' bs',
    assign_range 4 [7; 8]%Z one_two_three = Ret () s'
    ∧ repr 4 s' bs'
    ∧ contents bs' = [7; 8]%Z
    ∧ outside s' bs' = outside one_two_three [(1%positive, [1; 2; 3]%Z)].
Proof.
  apply (assign_range_replaces 4 one_two_three [(1%positive, [1; 2; 3]%Z)] [7; 8]%Z).
  - lia.
  - exact repr_one_two_three.
  - reflexivity.
Defined.

Lemma prepend_range_reverses_witness :
  ∃ s', prepend_range 4 [7; 8]%Z one_two_three = Ret () s'
        ∧ represents 4 s' [8; 7; 1; 2; 3]%Z.
Proof.
  apply (prepend_range_reverses 4 one_two_three [7; 8]%Z [1; 2; 3]%Z).
  - lia.
  - exact represents_one_two_three.
  - reflexivity.
Defined.


Lemma erase_removes_the_element_witness :
  ∃ it s' bs',
    erase (Iter (Some 1%positive) 1) one_two_three = Ret it s'
    ∧ repr 4 s' bs'
    ∧ contents bs' = [1; 3]%Z
    ∧ outside s' bs' = outside one_two_three [(1%positive, [1; 2; 3]%Z)]
    ∧ if decide (2 = 3 ∧ Some 1%positive = tail (obj one_two_three) ∧ 1%N ≠ 0%N)
      then it = Iter (Some 1%positive) 1 ∧ ∀ k', ¬ position bs' it k'
      else (2 = 3 → it = Iter None 0)
           ∧ ∀ v, [1; 2; 3]%Z !! 2 = Some v → iter_deref it s' = Ret v s'.
Proof.
  apply (erase_removes_the_element 4 one_two_three [(1%positive, [1; 2; 3]%Z)]
           (Iter (Some 1%positive) 1) 1 repr_one_two_three).
  - apply (position_in_one_two_three 1). lia.
  - simpl. lia.
Defined.

Lemma pop_front_removes_first_witness :
  ∃ s', pop_front one_two_three = Ret () s' ∧ represents 4 s' [2; 3]%Z.
Proof.
  exact (pop_front_removes_first 4 one_two_three 1%Z [2; 3]%Z
           represents_one_two_three).
Defined.

Lemma pop_back_removes_last_witness :
  ∃ s', pop_back one_two_three = Ret () s' ∧ represents 4 s' [1; 2]%Z.
Proof.
  exact (pop_back_removes_last 4 one_two_three [1; 2]%Z 3%Z
           represents_one_two_three).
Defined.

Lemma pop_on_empty_does_nothing_witness :
  pop_front empty_state = Ret () empty_state
  ∧ pop_back empty_state = Ret () empty_state.
Proof. exact (pop_on_empty_does_nothing 4 empty_state repr_empty_state). Defined.

Lemma clear_frees_every_node_witness :
  ∃ s', clear one_two_three = Ret () s'
        ∧ represents 4 s' []
        ∧ dom (mem s') = outside one_two_three [(1%positive, [1; 2; 3]%Z)]
        ∧ ∀ x, x ∈ outside one_two_three [(1%positive, [1; 2; 3]%Z)] →
               mem s' !! x = mem one_two_three !! x.
Proof.
  exact (clear_frees_every_node 4 one_two_three [(1%positive, [1; 2; 3]%Z)]
           repr_one_two_three).
Defined.

Lemma emplace_then_erase_restores_witness :
  ∃ it s' bs',
    (it <- emplace 4 (Iter (Some 1%positive) 1) (Yields 9%Z) ;; erase it) one_two_three
    = Ret it s'
    ∧ repr 4 s' bs'
    ∧ contents bs' = [1; 2; 3]%Z
    ∧ outside s' bs' = outside one_two_three [(1%positive, [1; 2; 3]%Z)].
Proof.
  apply (emplace_then_erase_restores 4 one_two_three [(1%positive, [1; 2; 3]%Z)]
           (Iter (Some 1%positive) 1) 1 9%Z).
  - lia.
  - exact repr_one_two_three.
  - apply (position_in_one_two_three 1). lia.
  - reflexivity.
Defined.

Lemma push_back_then_pop_back_witness :
  ∃ s' bs',
    (push_back 4 4%Z ;;; pop_back) one_two_three = Ret () s'
    ∧ repr 4 s' bs'
    ∧ contents bs' = [1; 2; 3]%Z
    ∧ outside s' bs' = outside one_two_three [(1%positive, [1; 2; 3]%Z)].
Proof.
  apply (push_back_then_pop_back 4 one_two_three [(1%positive, [1; 2; 3]%Z)] 4%Z).
  - lia.
  - exact repr_one_two_three.
  - reflexivity.
Defined.

Lemma push_front_then_pop_front_witness :
  ∃ s' bs',
    (push_front 4 0%Z ;;; pop_front) one_two_three = Ret () s'
    ∧ repr 4 s' bs'
    ∧ contents bs' = [1; 2; 3]%Z
    ∧ outside s' bs' = outside one_two_three [(1%positive, [1; 2; 3]%Z)].
Proof.
  apply (push_front_then_pop_front 4 one_two_three [(1%positive, [1; 2; 3]%Z)] 0%Z).
  - lia.
  - exact repr_one_two_three.
  - reflexivity.
Defined.

Lemma failed_emplace_back_leaks_nothing_witness :
  ∃ s1 s2,
    emplace_back 4 Throws one_two_three = Raise construction_failed s1
    ∧ size s1 = Ret 3%N s1
    ∧ clear s1 = Ret () s2
    ∧ represents 4 s2 []
    ∧ dom (mem s2) = outside one_two_three [(1%positive, [1; 2; 3]%Z)].
Proof.
  apply (failed_emplace_back_leaks_nothing 4 one_two_three
           [(1%positive, [1; 2; 3]%Z)]).
  - lia.
  - exact repr_one_two_three.
Defined.

Lemma copy_construct_is_deep_witness :
  ∃ st' o' bs',
    copy_construct 4 6%positive 5%positive two_objects_before = Ret () st'
    ∧ objects st' = <[6%positive := o']> (objects two_objects_before)
    ∧ repr 4 (mkState (nodes st') o') bs'
    ∧ contents bs' = [1; 2; 3]%Z
    ∧ length bs' = 1
    ∧ repr 4 (mkState (nodes st') (obj one_two_three)) [(1%positive, [1; 2; 3]%Z)]
    ∧ (∀ x, x ∈ bs'.*1 → x ∉ dom (nodes two_objects_before)).
Proof.
  apply (copy_construct_is_deep 4 two_objects_before 6%positive 5%positive
           (obj one_two_three) [(1%positive, [1; 2; 3]%Z)]).
  - reflexivity.
  - discriminate.
  - exact repr_one_two_three.
Defined.

Lemma copy_assign_copies_witness :
  ∃ st' o' bs',
    copy_assign 4 6%positive 5%positive two_lists = Ret () st'
    ∧ objects st' = <[6%positive := o']> (objects two_lists)
    ∧ repr 4 (mkState (nodes st') o') bs'
    ∧ contents bs' = [1; 2; 3]%Z
    ∧ repr 4 (mkState (nodes st') (obj one_two_three)) [(1%positive, [1; 2; 3]%Z)]
    ∧ (∀ x, x ∈ bs'.*1 → x ∉ dom (nodes two_lists))
    ∧ dom (nodes st')
      = (dom (nodes two_lists) ∖ list_to_set [(2%positive, [7]%Z)].*1)
        ∪ list_to_set bs'.*1.
Proof.
  apply (copy_assign_copies 4 two_lists 6%positive 5%positive
           (mkList (Some 2%positive) (Some 2%positive) 1) (obj one_two_three)
           [(2%positive, [7]%Z)] [(1%positive, [1; 2; 3]%Z)]).
  - reflexivity.
  - reflexivity.
  - discriminate.
  - exact repr_two_lists_6.
  - exact repr_two_lists_5.
  - exact two_lists_disjoint.
Defined.

Lemma move_assign_transfers_the_chain_witness :
  ∃ st',
    move_assign 6%positive 5%positive two_lists = Ret () st'
    ∧ objects st' = <[5%positive := mkList None None 0]>
                      (<[6%positive := obj one_two_three]> (objects two_lists))
    ∧ repr 4 (mkState (nodes st') (obj one_two_three)) [(1%positive, [1; 2; 3]%Z)]
    ∧ (∀ x, x ∉ [(2%positive, [7]%Z)].*1 → nodes st' !! x = nodes two_lists !! x)
    ∧ dom (nodes st') = dom (nodes two_lists) ∖ list_to_set [(2%positive, [7]%Z)].*1.
Proof.
  apply (move_assign_transfers_the_chain 4 two_lists 6%positive 5%positive
           (mkList (Some 2%positive) (Some 2%positive) 1) (obj one_two_three)
           [(2%positive, [7]%Z)] [(1%positive, [1; 2; 3]%Z)]).
  - reflexivity.
  - reflexivity.
  - discriminate.
  - exact repr_two_lists_6.
  - exact repr_two_lists_5.
  - exact two_lists_disjoint.
Defined.

Lemma equality_compares_the_sequences_witness :
  list_eq 5%positive 6%positive two_lists
  = Ret (bool_decide ([1; 2; 3]%Z = [7]%Z)) two_lists
  ∧ list_ne 5%positive 6%positive two_lists
    = Ret (negb (bool_decide ([1; 2; 3]%Z = [7]%Z))) two_lists.
Proof.
  apply (equality_compares_the_sequences 4 two_lists 5%positive 6%positive
           (obj one_two_three) (mkList (Some 2%positive) (Some 2%positive) 1)
           [(1%positive, [1; 2; 3]%Z)] [(2%positive, [7]%Z)]).
  - reflexivity.
  - reflexivity.
  - exact repr_two_lists_5.
  - exact repr_two_lists_6.
Defined.

Lemma range_construct_copies_the_range_witness :
  ∃ st' o' bs',
    range_construct 4 6%positive [Yields 7%Z; Yields 8%Z] two_objects_before
    = Ret () st'
    ∧ objects st' = <[6%positive := o']> (objects two_objects_before)
    ∧ repr 4 (mkState (nodes st') o') bs'
    ∧ contents bs' = [7; 8]%Z
    ∧ dom (nodes st') ∖ list_to_set bs'.*1 = dom (nodes two_objects_before).
Proof.
  apply (range_construct_copies_the_range 4 ltac:(lia) two_objects_before
           6%positive [7; 8]%Z); reflexivity.
Defined.

Lemma range_construct_cleans_up_on_throw_witness :
  ∃ st',
    range_construct 4 6%positive [Yields 7%Z; Throws; Yields 8%Z] two_objects_before
    = Raise construction_failed st'
    ∧ objects st' = <[6%positive := mkList None None 0]> (objects two_objects_before)
    ∧ dom (nodes st') = dom (nodes two_objects_before).
Proof.
  apply (range_construct_cleans_up_on_throw 4 ltac:(lia) two_objects_before
           6%positive [7]%Z [Yields 8%Z]); reflexivity.
Defined.

Lemma fill_construct_replicates_witness :
  ∃ st' o' bs',
    fill_construct 4 6%positive 5 7%Z two_objects_before = Ret () st'
    ∧ objects st' = <[6%positive := o']> (objects two_objects_before)
    ∧ repr 4 (mkState (nodes st') o') bs'
    ∧ contents bs' = [7; 7; 7; 7; 7]%Z
    ∧ dom (nodes st') ∖ list_to_set bs'.*1 = dom (nodes two_objects_before).
Proof.
  apply (fill_construct_replicates 4 ltac:(lia) two_objects_before
           6%positive 5 7%Z); reflexivity.
Defined.
